(** * Control-flow-graph engine of [jittery.thirdparty.controlflow]

    A shallow embedding of the class [CFGraph] and the properties of its
    construction interface, dead-block elimination, back-edge detection,
    loop discovery, (post-)dominator computation and topological ordering.

    Conventions of the embedding.
    - Python sets are [gset]s.  The order in which Python iterates over a
      set is unspecified, so every [for x in some_set] takes its order from
      an arbitrary enumeration ([node_iter] for sets of nodes, [edge_iter]
      for sets of edges) of which only [Permutation] with the elements of
      the set is assumed.
    - [_DictOfContainers(set)] is a [gmap] read with the empty set as
      default: a missing key and a key bound to the empty set are
      identified, as [_DictOfContainers.__eq__] does.
    - Python lists used as stacks ([pop()] takes the last element) are kept
      with the top of the stack at the head.
    - Dictionaries that the code iterates over ([bodies], [loops], [idom])
      are association lists in insertion order.
    - A raised exception is a value of [exception]; a loop is given fuel
      and [OutOfFuel] is the outcome when it runs out, or when a call is
      outside what the model covers.
    - The one function that recurses on the call stack, [_dfs_rec] of
      [_find_topo_order], is given the depth of recursion that the
      interpreter has left, and raises [RecursionError] beyond it. *)

From stdpp Require Import base option list sets gmap fin_sets fin_maps strings sorting.
From Stdlib Require Import FunctionalExtensionality.

(** ** Outcomes of a call *)

Inductive exception : Set :=
  | ValueError | AssertionError | RuntimeError | KeyError | TypeError
  | AttributeError | RecursionError.

Inductive res (A : Type) : Type :=
  | Ok (a : A)
  | Raise (e : exception)
  | OutOfFuel.
Arguments Ok {A} a.
Arguments Raise {A} e.
Arguments OutOfFuel {A}.

#[global] Instance res_ret : MRet res := λ A a, Ok a.
#[global] Instance res_bind : MBind res := λ A B f m,
  match m with
  | Ok a => f a
  | Raise e => Raise e
  | OutOfFuel => OutOfFuel
  end.

#[global] Instance res_fmap : FMap res := λ A B f m,
  match m with
  | Ok a => Ok (f a)
  | Raise e => Raise e
  | OutOfFuel => OutOfFuel
  end.

#[global] Instance exception_eq_dec : EqDecision exception.
Proof. solve_decision. Defined.

#[global] Instance res_eq_dec {A} `{EqDecision A} : EqDecision (res A).
Proof. solve_decision. Defined.

(** [for x in l: acc = body(acc, x)] where the body may raise. *)
Fixpoint fold_res {A B} (body : B → A → res B) (acc : B) (l : list A) : res B :=
  match l with
  | [] => Ok acc
  | x :: l => acc' ← body acc x; fold_res body acc' l
  end.

(** [while cond: body]: [step] either continues with the next state
    ([inl]) or leaves the loop with its result ([inr]). *)
Fixpoint loop {S A} (fuel : nat) (step : S → res (S + A)) (s : S) : res A :=
  match fuel with
  | 0 => OutOfFuel
  | S fuel =>
      match step s with
      | Ok (inl s') => loop fuel step s'
      | Ok (inr a) => Ok a
      | Raise e => Raise e
      | OutOfFuel => OutOfFuel
      end
  end.

(** [functools.reduce(f, xs)] without initial value: [TypeError] on an
    empty sequence. *)
Definition reduce {A} (f : A → A → res A) (xs : list A) : res A :=
  match xs with
  | [] => Raise TypeError
  | x :: xs => fold_res f x xs
  end.

(** [[f(x) for x in l]] where [f] may raise. *)
Fixpoint map_res {A B} (f : A → res B) (l : list A) : res (list B) :=
  match l with
  | [] => Ok []
  | x :: l => y ← f x; ys ← map_res f l; Ok (y :: ys)
  end.

(** [d[k]] on a dictionary: [KeyError] for a missing key. *)
Definition getitem {A} (o : option A) : res A :=
  match o with
  | Some a => Ok a
  | None => Raise KeyError
  end.

(** [sorted(l, key=key)]: a stable sort, equal keys keep their order. *)
Fixpoint insert_by {A} (key : A → nat) (x : A) (l : list A) : list A :=
  match l with
  | [] => [x]
  | y :: l' =>
      if decide (key x < key y) then x :: y :: l' else y :: insert_by key x l'
  end.
Definition sorted {A} (key : A → nat) (l : list A) : list A :=
  foldl (λ acc x, insert_by key x acc) [] l.

(** ** Insertion-ordered dictionaries *)

Module odict.
Section odict.
Context {K V : Type} `{EqDecision K}.

Fixpoint get (k : K) (d : list (K * V)) : option V :=
  match d with
  | [] => None
  | (k', v) :: d => if decide (k = k') then Some v else get k d
  end.

(** [d[k] = v]: an existing key keeps its position, a new one goes last. *)
Fixpoint set (k : K) (v : V) (d : list (K * V)) : list (K * V) :=
  match d with
  | [] => [(k, v)]
  | (k', v') :: d =>
      if decide (k = k') then (k, v) :: d else (k', v') :: set k v d
  end.

Definition keys (d : list (K * V)) : list K := d.*1.
Definition values (d : list (K * V)) : list V := d.*2.

End odict.
End odict.

(** ** Iteration over sets *)

(** The list in which a [for] loop visits the elements of a set. *)
Class iter_order (A : Type) `{Countable A} : Type :=
  set_iter : gset A → list A.

(** [it] gives for every set an enumeration of its elements, each once. *)
Definition enumerates {A} `{Countable A} (it : iter_order A) : Prop :=
  ∀ s, it s ≡ₚ elements s.

(** ** Recursion on the call stack *)

(** The depth of recursion that the interpreter has left where
    [_find_topo_order] calls its local function: the number of nested
    calls of a Python function that it still allows
    ([sys.getrecursionlimit()] less the frames in use).  A call beyond
    it raises [RecursionError]. *)
Class recursion_limit : Type :=
  max_depth : nat.

(** ** The graph store *)

Section CFG.
Context `{Countable node} {data : Type}.

(** Iteration order of Python sets. *)
Context {node_iter : iter_order node} {edge_iter : iter_order (node * node)}.

(** The recursion limit of the interpreter. *)
Context {limit : recursion_limit}.

(** The attributes of a [CFGraph] instance.  [_dead_nodes] exists only
    once [process] has assigned it.  Edge payloads are [option data],
    [None] being Python's [None]. *)
Record CFGraph : Type := mkCFGraph {
  _nodes : gset node;
  _preds : gmap node (gset node);
  _succs : gmap node (gset node);
  _edge_data : gmap (node * node) (option data);
  _entry_point : option node;
  _dead_nodes : option (gset node);
}.

(** [CFGraph.__init__] *)
Definition __init__ : CFGraph :=
  {| _nodes := ∅; _preds := ∅; _succs := ∅; _edge_data := ∅;
     _entry_point := None; _dead_nodes := None |}.

Definition with_nodes (v : gset node) (g : CFGraph) : CFGraph :=
  {| _nodes := v; _preds := _preds g; _succs := _succs g;
     _edge_data := _edge_data g; _entry_point := _entry_point g;
     _dead_nodes := _dead_nodes g |}.
Definition with_preds (v : gmap node (gset node)) (g : CFGraph) : CFGraph :=
  {| _nodes := _nodes g; _preds := v; _succs := _succs g;
     _edge_data := _edge_data g; _entry_point := _entry_point g;
     _dead_nodes := _dead_nodes g |}.
Definition with_succs (v : gmap node (gset node)) (g : CFGraph) : CFGraph :=
  {| _nodes := _nodes g; _preds := _preds g; _succs := v;
     _edge_data := _edge_data g; _entry_point := _entry_point g;
     _dead_nodes := _dead_nodes g |}.
Definition with_edge_data (v : gmap (node * node) (option data)) (g : CFGraph)
    : CFGraph :=
  {| _nodes := _nodes g; _preds := _preds g; _succs := _succs g;
     _edge_data := v; _entry_point := _entry_point g;
     _dead_nodes := _dead_nodes g |}.
Definition with_entry_point (v : option node) (g : CFGraph) : CFGraph :=
  {| _nodes := _nodes g; _preds := _preds g; _succs := _succs g;
     _edge_data := _edge_data g; _entry_point := v;
     _dead_nodes := _dead_nodes g |}.
Definition with_dead_nodes (v : option (gset node)) (g : CFGraph) : CFGraph :=
  {| _nodes := _nodes g; _preds := _preds g; _succs := _succs g;
     _edge_data := _edge_data g; _entry_point := _entry_point g;
     _dead_nodes := v |}.

(** [self._succs[n]] and [self._preds[n]]: the bound set, or the empty
    set for a key that is not bound. *)
Definition succs_of (g : CFGraph) (n : node) : gset node := _succs g !!! n.
Definition preds_of (g : CFGraph) (n : node) : gset node := _preds g !!! n.

(** [add_node] *)
Definition add_node (n : node) (g : CFGraph) : CFGraph :=
  with_nodes (_nodes g ∪ {[n]}) g.

(** [_add_edge]: no check of the endpoints. *)
Definition _add_edge (from_ to : node) (d : option data) (g : CFGraph)
    : CFGraph :=
  let g := with_preds (<[to := preds_of g to ∪ {[from_]}]> (_preds g)) g in
  let g := with_succs (<[from_ := succs_of g from_ ∪ {[to]}]> (_succs g)) g in
  with_edge_data (<[(from_, to) := d]> (_edge_data g)) g.

(** [add_edge]: the graph after the call and the outcome of the call. *)
Definition add_edge (src dest : node) (d : option data) (g : CFGraph)
    : CFGraph * res unit :=
  if decide (src ∉ _nodes g) then (g, Raise ValueError)
  else if decide (dest ∉ _nodes g) then (g, Raise ValueError)
  else (_add_edge src dest d g, Ok ()).

(** [set_entry_point]: the [assert] raises [AssertionError]. *)
Definition set_entry_point (n : node) (g : CFGraph) : CFGraph * res unit :=
  if decide (n ∈ _nodes g) then (with_entry_point (Some n) g, Ok ())
  else (g, Raise AssertionError).

(** [entry_point] *)
Definition entry_point (g : CFGraph) : res node :=
  match _entry_point g with
  | Some e => Ok e
  | None => Raise AssertionError
  end.

(** [for x in l: body(x)] on the graph; an exception leaves the loop with
    the graph as it then is. *)
Fixpoint for_each {A} (body : A → CFGraph → CFGraph * res unit)
    (l : list A) (g : CFGraph) : CFGraph * res unit :=
  match l with
  | [] => (g, Ok ())
  | x :: l =>
      match body x g with
      | (g', Ok _) => for_each body l g'
      | (g', Raise e) => (g', Raise e)
      | (g', OutOfFuel) => (g', OutOfFuel)
      end
  end.

(** ** Dead-block elimination *)

(** [_remove_node_edges].  [set.remove] and [del] raise [KeyError] when
    the element or the key is missing. *)
Definition _remove_node_edges (n : node) (g : CFGraph) : CFGraph * res unit :=
  let succs := node_iter (succs_of g n) in
  let g := with_succs (delete n (_succs g)) g in
  match
    for_each (λ succ g,
      if decide (n ∈ preds_of g succ) then
        let g := with_preds (<[succ := preds_of g succ ∖ {[n]}]> (_preds g)) g in
        match _edge_data g !! (n, succ) with
        | Some _ => (with_edge_data (delete (n, succ) (_edge_data g)) g, Ok ())
        | None => (g, Raise KeyError)
        end
      else (g, Raise KeyError)) succs g
  with
  | (g, Ok _) =>
      let preds := node_iter (preds_of g n) in
      let g := with_preds (delete n (_preds g)) g in
      for_each (λ pred g,
        if decide (n ∈ succs_of g pred) then
          let g :=
            with_succs (<[pred := succs_of g pred ∖ {[n]}]> (_succs g)) g in
          match _edge_data g !! (pred, n) with
          | Some _ => (with_edge_data (delete (pred, n) (_edge_data g)) g, Ok ())
          | None => (g, Raise KeyError)
          end
        else (g, Raise KeyError)) preds g
  | (g, r) => (g, r)
  end.

(** One turn of the [while stack] loop of [_dfs]; the state is the stack,
    [seen] and the nodes yielded so far. *)
Definition _dfs_step (g : CFGraph) (st : list node * gset node * list node)
    : res (list node * gset node * list node + list node) :=
  let '(stack, seen, out) := st in
  match stack with
  | [] => Ok (inr out)
  | n :: stack =>
      if decide (n ∈ seen) then Ok (inl (stack, seen, out))
      else
        Ok (inl (foldl (λ stack succ, succ :: stack) stack
                   (node_iter (succs_of g n)),
                 seen ∪ {[n]}, out ++ [n]))
  end.

(** The number of edges of the successor table. *)
Definition edge_count (g : CFGraph) : nat :=
  sum_list_with (λ n, size (succs_of g n)) (elements (dom (_succs g))).

(** [_dfs]: the nodes in the order the generator yields them. *)
Definition _dfs (g : CFGraph) (entries : list node) : res (list node) :=
  loop (S (length entries + edge_count g)) (_dfs_step g)
    (reverse entries, ∅, []).

(** [_eliminate_dead_blocks], for the entry point [entry] ([process] has
    checked that there is one, and [_dfs] starts from [(entry,)]). *)
Definition _eliminate_dead_blocks (entry : node) (g : CFGraph)
    : CFGraph * res unit :=
  match _dfs g [entry] with
  | Ok yielded =>
      let live := foldl (λ live n, live ∪ {[n]}) ∅ yielded in
      let dead := _nodes g ∖ live in
      let g := with_dead_nodes (Some dead) g in
      let g := with_nodes live g in
      for_each _remove_node_edges (node_iter dead) g
  | Raise e => (g, Raise e)
  | OutOfFuel => (g, OutOfFuel)
  end.

(** [process] *)
Definition process (g : CFGraph) : CFGraph * res unit :=
  match _entry_point g with
  | None => (g, Raise RuntimeError)
  | Some entry => _eliminate_dead_blocks entry g
  end.

(** [dead_nodes] and [nodes]; the attribute [_dead_nodes] does not exist
    before [process] has assigned it. *)
Definition dead_nodes (g : CFGraph) : res (gset node) :=
  match _dead_nodes g with
  | Some dead => Ok dead
  | None => Raise AttributeError
  end.
Definition nodes (g : CFGraph) : gset node := _nodes g.

(** [_find_exit_points]; [self._succs.get(n)] is falsy for a missing key
    and for an empty set. *)
Definition _find_exit_points (g : CFGraph) : gset node :=
  foldl (λ exit_points n,
    if decide (succs_of g n = ∅) then exit_points ∪ {[n]} else exit_points)
    ∅ (node_iter (_nodes g)).

(** ** Back edges *)

(** The state of the [while stack] loop of [_find_back_edges]: the
    traversal path, the successors of each node of the path that are not
    checked yet (next one to [pop()] first), the nodes whose successors
    are all checked, and the back edges found. *)
Record be_state : Type := mkBE {
  be_stack : list node;
  be_succs_state : gmap node (list node);
  be_checked : gset node;
  be_back_edges : gset (node * node);
}.

(** [push_state] *)
Definition push_state (g : CFGraph) (n : node) (st : be_state) : be_state :=
  {| be_stack := n :: be_stack st;
     be_succs_state :=
       <[n := foldl (λ l dest, dest :: l) [] (node_iter (succs_of g n))]>
         (be_succs_state st);
     be_checked := be_checked st;
     be_back_edges := be_back_edges st |}.

Definition _find_back_edges_step (g : CFGraph) (st : be_state)
    : res (be_state + gset (node * node)) :=
  match be_stack st with
  | [] => Ok (inr (be_back_edges st))
  | tos :: rest =>
      match be_succs_state st !! tos with
      | None => Raise KeyError
      | Some (cur_node :: tos_succs) =>
          let st := {| be_stack := be_stack st;
                       be_succs_state := <[tos := tos_succs]> (be_succs_state st);
                       be_checked := be_checked st;
                       be_back_edges := be_back_edges st |} in
          if decide (cur_node ∈ be_stack st) then
            Ok (inl {| be_stack := be_stack st;
                       be_succs_state := be_succs_state st;
                       be_checked := be_checked st;
                       be_back_edges := be_back_edges st ∪ {[(tos, cur_node)]} |})
          else if decide (cur_node ∉ be_checked st) then
            Ok (inl (push_state g cur_node st))
          else Ok (inl st)
      | Some [] =>
          Ok (inl {| be_stack := rest;
                     be_succs_state := be_succs_state st;
                     be_checked := be_checked st ∪ {[tos]};
                     be_back_edges := be_back_edges st |})
      end
  end.

(** One unit per node and one per edge leaving a node. *)
Definition node_weight (g : CFGraph) (ns : gset node) : nat :=
  sum_list_with (λ n, S (size (succs_of g n))) (elements ns).

(** [_find_back_edges] (with [stats=None]). *)
Definition _find_back_edges (g : CFGraph) : res (gset (node * node)) :=
  entry ← entry_point g;
  loop (S (node_weight g (_nodes g))) (_find_back_edges_step g)
    (push_state g entry
       {| be_stack := []; be_succs_state := ∅; be_checked := ∅;
          be_back_edges := ∅ |}).

(** ** Topological order *)

(** The local function [_dfs_rec] of [_find_topo_order], on the pair of
    [seen] and [post_order].  It calls itself on the call stack: [depth]
    is the number of nested calls that the interpreter still allows, the
    call included; with none left the call raises [RecursionError], and
    the calls that it makes have one less. *)
Fixpoint _dfs_rec (g : CFGraph) (back_edges : gset (node * node))
    (depth : nat) (n : node) (st : gset node * list node)
    : res (gset node * list node) :=
  match depth with
  | 0 => Raise RecursionError
  | S depth =>
      if decide (n ∈ st.1) then Ok st
      else
        st ← fold_res (λ st dest,
                if decide ((n, dest) ∈ back_edges) then Ok st
                else _dfs_rec g back_edges depth dest st)
              (st.1 ∪ {[n]}, st.2) (node_iter (succs_of g n));
        Ok (st.1, st.2 ++ [n])
  end.

(** [_find_topo_order].  [self._back_edges] is read first and fails on a
    graph without entry point.  The first call of [_dfs_rec] has the
    depth [max_depth] that the interpreter has left. *)
Definition _find_topo_order (g : CFGraph) : res (list node) :=
  back_edges ← _find_back_edges g;
  match _entry_point g with
  | Some entry =>
      st ← _dfs_rec g back_edges max_depth entry (∅, []);
      Ok (reverse st.2)
  | None => Raise AssertionError
  end.

(** [topo_order] *)
Definition topo_order (g : CFGraph) : res (list node) := _find_topo_order g.

(** [topo_sort]: the nodes in the order the generator yields them. *)
Definition topo_sort (g : CFGraph) (ns : gset node) (reverse : bool)
    : res (list node) :=
  it ← topo_order g;
  let it := if reverse then list.reverse it else it in
  Ok (filter (λ n, n ∈ ns) it).

(** ** Loops *)

(** The named tuple [Loop]. *)
Record Loop : Type := mkLoop {
  entries : gset node;
  exits : gset node;
  header : node;
  body : gset node;
}.

#[global] Instance Loop_eq_dec : EqDecision Loop.
Proof. solve_decision. Defined.

(** One turn of the [while queue] loop of [_find_loops], on the pair of
    [body] and [queue]. *)
Definition _find_loops_body_step (g : CFGraph) (st : gset node * list node)
    : res (gset node * list node + gset node) :=
  let '(body, queue) := st in
  match queue with
  | [] => Ok (inr body)
  | n :: queue =>
      if decide (n ∉ body) then
        Ok (inl (body ∪ {[n]},
                 foldl (λ queue p, p :: queue) queue (node_iter (preds_of g n))))
      else Ok (inl (body, queue))
  end.

(** The number of edges of the predecessor table. *)
Definition pred_count (g : CFGraph) : nat :=
  sum_list_with (λ n, size (preds_of g n)) (elements (dom (_preds g))).

(** [_find_loops], from the back edges ([self._back_edges]). *)
Definition _find_loops_bodies (g : CFGraph) (back_edges : gset (node * node))
    : res (list (node * gset node)) :=
  fold_res (λ bodies '(src, dest),
    let header := dest in
    body ← loop (S (S (pred_count g))) (_find_loops_body_step g)
             ({[header]}, [src]);
    match odict.get header bodies with
    | Some body0 => Ok (odict.set header (body0 ∪ body) bodies)
    | None => Ok (odict.set header body bodies)
    end) [] (edge_iter back_edges).

Definition _find_loops (g : CFGraph) : res (list (node * Loop)) :=
  back_edges ← _find_back_edges g;
  bodies ← _find_loops_bodies g back_edges;
  Ok (foldl (λ loops '(header, body),
        let '(entries, exits) :=
          foldl (λ '(entries, exits) n,
                   (entries ∪ (preds_of g n ∖ body),
                    exits ∪ (succs_of g n ∖ body)))
                (∅, ∅) (node_iter body) in
        let loop :=
          {| header := header; body := body; entries := entries;
             exits := exits |} in
        odict.set header loop loops) [] bodies).

(** [loops] *)
Definition loops (g : CFGraph) : res (list (node * Loop)) := _find_loops g.

(** [_find_in_loops] *)
Definition _find_in_loops (g : CFGraph) : res (gmap node (list node)) :=
  loops ← _find_loops g;
  let in_loops : gmap node (list node) :=
    foldl (λ in_loops n, <[n := []]> in_loops) ∅ (node_iter (_nodes g)) in
  fold_res (λ in_loops loop,
      fold_res (λ in_loops n,
          l ← getitem (in_loops !! n);
          Ok (<[n := l ++ [header loop]]> in_loops))
        in_loops (node_iter (body loop)))
    in_loops (sorted (λ loop, size (body loop)) (odict.values loops)).

(** [in_loops] *)
Definition in_loops (g : CFGraph) (n : node) : res (list Loop) :=
  table ← _find_in_loops g;
  loops ← _find_loops g;
  map_res (λ x, getitem (odict.get x loops)) (default [] (table !! n)).

(** ** Dominators and post-dominators *)

(** One turn of the [while todo] loop of [_find_dominators_internal], on
    the pair of [doms] and [todo]. *)
Definition _find_dominators_internal_step (entries : gset node)
    (preds_table succs_table : node → gset node)
    (st : gmap node (gset node) * list node)
    : res (gmap node (gset node) * list node + gmap node (gset node)) :=
  let '(doms, todo) := st in
  match todo with
  | [] => Ok (inr doms)
  | n :: todo =>
      if decide (n ∈ entries) then Ok (inl (doms, todo))
      else
        let new_doms : gset node := {[n]} in
        let preds := preds_table n in
        new_doms ←
          (if decide (preds ≠ ∅) then
             ds ← map_res (λ p, getitem (doms !! p)) (node_iter preds);
             r ← reduce (λ a b, Ok (a ∩ b)) ds;
             Ok (new_doms ∪ r)
           else Ok new_doms);
        old ← getitem (doms !! n);
        if decide (new_doms ≠ old) then
          if decide (size new_doms < size old) then
            Ok (inl (<[n := new_doms]> doms,
                     foldl (λ todo s, s :: todo) todo
                       (node_iter (succs_table n))))
          else Raise AssertionError
        else Ok (inl (doms, todo))
  end.

(** [_find_dominators_internal].  [exit_points] is the value of
    [self._exit_points] when the call is made; [seeds] stands for the
    Python variable [entries].  The forward analysis of a graph whose
    entry point was never set would use [None] as a node, which the model
    does not cover. *)
Definition _find_dominators_internal (g : CFGraph) (exit_points : gset node)
    (post : bool) : res (gmap node (gset node)) :=
  seeds ←
    (if post then Ok exit_points
     else match _entry_point g with
          | Some e => Ok {[e]}
          | None => OutOfFuel
          end);
  let preds_table := if post then succs_of g else preds_of g in
  let succs_table := if post then preds_of g else succs_of g in
  if decide (seeds = ∅) then Raise RuntimeError
  else
    let doms : gmap node (gset node) :=
      foldl (λ doms e, <[e := {[e]}]> doms) ∅ (node_iter seeds) in
    let '(doms, todo) :=
      foldl (λ '(doms, todo) n,
               if decide (n ∉ seeds) then (<[n := _nodes g]> doms, n :: todo)
               else (doms, todo))
            (doms, []) (node_iter (_nodes g)) in
    let sz := size (_nodes g) in
    loop (S (sz + sz * sz * S sz))
      (_find_dominators_internal_step seeds preds_table succs_table)
      (doms, todo).

(** [_find_dominators] and [dominators] *)
Definition _find_dominators (g : CFGraph) : res (gmap node (gset node)) :=
  _find_dominators_internal g (_find_exit_points g) false.
Definition dominators (g : CFGraph) : res (gmap node (gset node)) :=
  _find_dominators g.

(** [_find_post_dominators].  [dummy_exit] stands for the fresh
    [object()]; the call yields the graph and the exit-point set
    ([self._exit_points], which the call updates in place) as it leaves
    them, and its outcome. *)
Definition _find_post_dominators (dummy_exit : node) (g : CFGraph)
    : CFGraph * gset node * res (gmap node (gset node)) :=
  let exit_points := _find_exit_points g ∪ {[dummy_exit]} in
  match _find_loops g with
  | Ok loops =>
      let g :=
        foldl (λ g loop,
                 if decide (exits loop = ∅) then
                   foldl (λ g b, _add_edge b dummy_exit None g) g
                     (node_iter (body loop))
                 else g) g (odict.values loops) in
      match _find_dominators_internal g exit_points true with
      | Ok pdoms =>
          match pdoms !! dummy_exit with
          | Some _ =>
              let pdoms := delete dummy_exit pdoms in
              let pdoms := (λ doms, doms ∖ {[dummy_exit]}) <$> pdoms in
              match _remove_node_edges dummy_exit g with
              | (g, Ok _) =>
                  if decide (dummy_exit ∈ exit_points) then
                    (g, exit_points ∖ {[dummy_exit]}, Ok pdoms)
                  else (g, exit_points, Raise KeyError)
              | (g, Raise e) => (g, exit_points, Raise e)
              | (g, OutOfFuel) => (g, exit_points, OutOfFuel)
              end
          | None => (g, exit_points, Raise KeyError)
          end
      | Raise e => (g, exit_points, Raise e)
      | OutOfFuel => (g, exit_points, OutOfFuel)
      end
  | Raise e => (g, exit_points, Raise e)
  | OutOfFuel => (g, exit_points, OutOfFuel)
  end.

(** [post_dominators] *)
Definition post_dominators (dummy_exit : node) (g : CFGraph)
    : res (gmap node (gset node)) :=
  (_find_post_dominators dummy_exit g).2.

(** [exit_points], before any call of [post_dominators]. *)
Definition exit_points (g : CFGraph) : gset node := _find_exit_points g.

(** [backbone]: [self._post_doms[self._entry_point]]. *)
Definition backbone (dummy_exit : node) (g : CFGraph) : res (gset node) :=
  post_doms ← post_dominators dummy_exit g;
  match _entry_point g with
  | Some e => getitem (post_doms !! e)
  | None => Raise KeyError
  end.

(** ** Immediate dominators and the dominance frontier *)

(** The entries of the work stack of [_find_postorder]: a callback and
    its argument. *)
Inductive callback : Type :=
  | dfs_rec (n : node)
  | post_order_append (n : node).

Definition _find_postorder_step (g : CFGraph) (back_edges : gset (node * node))
    (st : list callback * gset node * list node)
    : res (list callback * gset node * list node + list node) :=
  let '(stack, seen, post_order) := st in
  match stack with
  | [] => Ok (inr post_order)
  | dfs_rec n :: stack =>
      if decide (n ∉ seen) then
        Ok (inl (foldl (λ stack dest,
                     if decide ((n, dest) ∉ back_edges)
                     then dfs_rec dest :: stack else stack)
                   (post_order_append n :: stack) (node_iter (succs_of g n)),
                 seen ∪ {[n]}, post_order))
      else Ok (inl (stack, seen, post_order))
  | post_order_append n :: stack => Ok (inl (stack, seen, post_order ++ [n]))
  end.

(** [_find_postorder] *)
Definition _find_postorder (g : CFGraph) : res (list node) :=
  back_edges ← _find_back_edges g;
  match _entry_point g with
  | Some entry =>
      loop (S (S (node_weight g (_nodes g))))
        (_find_postorder_step g back_edges) ([dfs_rec entry], ∅, [])
  | None => Raise AssertionError
  end.

(** The local function [intersect] of [_find_immediate_dominators]. *)
Definition intersect (idx : gmap node nat) (idom : list (node * node))
    (fuel : nat) (u v : node) : res node :=
  loop fuel (λ '(u, v),
    if decide (u ≠ v) then
      u ← loop fuel (λ u,
             iu ← getitem (idx !! u);
             iv ← getitem (idx !! v);
             if decide (iu < iv) then u' ← getitem (odict.get u idom); Ok (inl u')
             else Ok (inr u)) u;
      v ← loop fuel (λ v,
             iu ← getitem (idx !! u);
             iv ← getitem (idx !! v);
             if decide (iv < iu) then v' ← getitem (odict.get v idom); Ok (inl v')
             else Ok (inr v)) v;
      Ok (inl (u, v))
    else Ok (inr u)) (u, v).

(** [_find_immediate_dominators] *)
Definition _find_immediate_dominators (g : CFGraph) : res (list (node * node)) :=
  order ← _find_postorder g;
  match _entry_point g with
  | Some entry =>
      let idx : gmap node nat :=
        foldl (λ idx '(i, e), <[e := i]> idx) ∅ (imap (λ i e, (i, e)) order) in
      let idom := [(entry, entry)] in
      let order := reverse (removelast order) in
      let fuel := 4 + size (_nodes g) in
      loop fuel (λ '(idom, changed),
        if (changed : bool) then
          st ← fold_res (λ '(idom, changed) u,
                  new_idom ← reduce (intersect idx idom fuel)
                    (filter (λ v, is_Some (odict.get v idom))
                       (node_iter (preds_of g u)));
                  if decide (odict.get u idom ≠ Some new_idom)
                  then Ok (odict.set u new_idom idom, true)
                  else Ok (idom, changed))
                (idom, false) order;
          Ok (inl st)
        else Ok (inr idom)) (idom, true)
  | None => Raise AssertionError
  end.

(** [immediate_dominators] *)
Definition immediate_dominators (g : CFGraph) : res (list (node * node)) :=
  _find_immediate_dominators g.

(** [_find_dominance_frontier] *)
Definition _find_dominance_frontier (g : CFGraph)
    : res (gmap node (gset node)) :=
  idom ← _find_immediate_dominators g;
  let df : gmap node (gset node) :=
    foldl (λ df u, <[u := ∅]> df) ∅ (odict.keys idom) in
  fold_res (λ df u,
      if decide (size (preds_of g u) < 2) then Ok df
      else
        fold_res (λ df v,
            loop (S (size (_nodes g))) (λ '(df, v),
              idom_u ← getitem (odict.get u idom);
              if decide (v ≠ idom_u) then
                df_v ← getitem (df !! v);
                v' ← getitem (odict.get v idom);
                Ok (inl (<[v := df_v ∪ {[u]}]> df, v'))
              else Ok (inr df)) (df, v))
          df (node_iter (preds_of g u)))
    df (odict.keys idom).

(** [dominance_frontier] *)
Definition dominance_frontier (g : CFGraph) : res (gmap node (gset node)) :=
  _find_dominance_frontier g.

(** * Specification vocabulary *)

(** The edge relation of the successor table and reachability along it. *)
Definition edge (g : CFGraph) (s t : node) : Prop := t ∈ succs_of g s.
Definition reachable (g : CFGraph) (s t : node) : Prop := rtc (edge g) s t.

(** The two adjacency tables and the payload table describe the same
    edges. *)
Definition consistent (g : CFGraph) : Prop :=
  (∀ s t, t ∈ succs_of g s ↔ s ∈ preds_of g t) ∧
  (∀ s t, t ∈ succs_of g s ↔ is_Some (_edge_data g !! (s, t))).

(** The invariant of the construction interface ([add_node], [add_edge],
    [set_entry_point]): consistent tables, edges between added nodes
    only, and an entry point that is an added node. *)
Definition wf (g : CFGraph) : Prop :=
  consistent g ∧
  (∀ s t, t ∈ succs_of g s → s ∈ _nodes g ∧ t ∈ _nodes g) ∧
  (∀ e, _entry_point g = Some e → e ∈ _nodes g).

(** A graph as [process] leaves it: well formed, with an entry point from
    which every live node is reachable. *)
Definition frozen (g : CFGraph) : Prop :=
  wf g ∧ ∃ e, _entry_point g = Some e ∧ ∀ n, n ∈ _nodes g → reachable g e n.

(** Equality of [_DictOfContainers]: the same non-empty items. *)
Definition dict_eq (m1 m2 : gmap node (gset node)) : Prop :=
  ∀ n, m1 !!! n = m2 !!! n.

(** The successors that [_dfs] has still to push: those of the bound
    nodes that are not seen yet. *)
Definition dfs_pending (g : CFGraph) (seen : gset node) : nat :=
  sum_list_with (λ n, size (succs_of g n)) (elements (dom (_succs g) ∖ seen)).

(** The invariant of the [while stack] loop of [_dfs] started at [e]. *)
Definition dfs_inv (g : CFGraph) (e : node)
    (st : list node * gset node * list node) : Prop :=
  let '(stack, seen, out) := st in
  seen = list_to_set out ∧
  NoDup out ∧
  (e ∈ seen ∨ e ∈ stack) ∧
  (∀ n t, n ∈ seen → t ∈ succs_of g n → t ∈ seen ∨ t ∈ stack) ∧
  (∀ n, n ∈ seen ∨ n ∈ stack → reachable g e n).

(** [g'] is [g] without the edges that leave or enter a node of [D]. *)
Definition restricted (D : gset node) (g g' : CFGraph) : Prop :=
  (∀ s, succs_of g' s = if decide (s ∈ D) then ∅ else succs_of g s ∖ D) ∧
  (∀ t, preds_of g' t = if decide (t ∈ D) then ∅ else preds_of g t ∖ D) ∧
  (∀ s t, _edge_data g' !! (s, t) =
     if decide (s ∈ D ∨ t ∈ D) then None else _edge_data g !! (s, t)) ∧
  _nodes g' = _nodes g ∧
  _entry_point g' = _entry_point g ∧
  _dead_nodes g' = _dead_nodes g.

(** The successors of [x] that [_find_back_edges] has not checked yet:
    the rest of its list when [x] is on the path, none when [x] is
    checked, all of them before [x] is pushed. *)
Definition be_pend (g : CFGraph) (st : be_state) (x : node) : list node :=
  if decide (x ∈ be_stack st) then default [] (be_succs_state st !! x)
  else if decide (x ∈ be_checked st) then []
  else node_iter (succs_of g x).

(** The edges that are checked and were not found to be back edges. *)
Definition be_tree (g : CFGraph) (st : be_state) (s t : node) : Prop :=
  t ∈ succs_of g s ∧ ((s, t) ∉ be_back_edges st) ∧ (t ∉ be_pend g st s).

(** The edges of the graph that are not in the set [back_edges]. *)
Definition forward_edge (g : CFGraph) (back_edges : gset (node * node))
    (s t : node) : Prop :=
  t ∈ succs_of g s ∧ (s, t) ∉ back_edges.

(** The invariant of the [while stack] loop of [_find_back_edges]. *)
Definition be_inv (g : CFGraph) (e : node) (st : be_state) : Prop :=
  NoDup (be_stack st) ∧
  (∀ x, x ∈ be_stack st →
     (x ∉ be_checked st) ∧ is_Some (be_succs_state st !! x)) ∧
  (∀ x, x ∈ be_stack st ∨ x ∈ be_checked st →
     x ∈ _nodes g ∧ rtc (be_tree g st) e x) ∧
  (∀ x, NoDup (be_pend g st x) ∧ ∀ t, t ∈ be_pend g st x → t ∈ succs_of g x) ∧
  (∀ x t, x ∈ be_stack st ∨ x ∈ be_checked st → t ∈ succs_of g x →
     t ∈ be_pend g st x ∨ t ∈ be_checked st ∨ t ∈ be_stack st) ∧
  (e ∈ be_stack st ∨ e ∈ be_checked st) ∧
  (∀ s t, (s, t) ∈ be_back_edges st →
     t ∈ succs_of g s ∧ (t ∉ be_pend g st s) ∧ succs_of g t ≠ ∅) ∧
  (∀ x, x ∈ tail (be_stack st) → succs_of g x ≠ ∅).

Definition be_measure (g : CFGraph) (st : be_state) : nat :=
  sum_list_with (λ x, S (length (be_pend g st x))) (be_stack st) +
  node_weight g (_nodes g ∖ (list_to_set (be_stack st) ∪ be_checked st)).

(** What [_find_back_edges] establishes: every live node is reached from
    the entry point without taking a back edge, and the target of a back
    edge has a successor. *)
Definition be_post (g : CFGraph) (e : node) (back_edges : gset (node * node))
    : Prop :=
  (∀ n, n ∈ _nodes g → rtc (forward_edge g back_edges) e n) ∧
  (∀ s t, (s, t) ∈ back_edges → t ∈ succs_of g s ∧ succs_of g t ≠ ∅).

(** What a call of [_dfs_rec] on [(seen, post)] establishes for its result
    [(seen', post')]: the nodes it marks are live, each has all its
    forward successors marked, and they are appended once each. *)
Definition dfs_rec_post (g : CFGraph) (back_edges : gset (node * node))
    (seen : gset node) (post : list node) (st' : gset node * list node)
    : Prop :=
  seen ⊆ st'.1 ∧ st'.1 ⊆ _nodes g ∧
  (∀ u t, u ∈ st'.1 → u ∉ seen → forward_edge g back_edges u t → t ∈ st'.1) ∧
  ∃ new, st'.2 = post ++ new ∧ NoDup new ∧
    ∀ x, x ∈ new ↔ x ∈ st'.1 ∧ x ∉ seen.

(** The predecessors that the [while queue] loop of [_find_loops] has
    still to push. *)
Definition preds_pending (g : CFGraph) (body : gset node) : nat :=
  sum_list_with (λ n, size (preds_of g n)) (elements (dom (_preds g) ∖ body)).

(** What is used of a loop body: its nodes are live and each has a
    successor. *)
Definition body_ok (g : CFGraph) (B : gset node) : Prop :=
  B ⊆ _nodes g ∧ ∀ x, x ∈ B → succs_of g x ≠ ∅.

(** The loop that [_find_loops] makes of a header and its body. *)
Definition make_loop (g : CFGraph) (hb : node * gset node) : node * Loop :=
  (hb.1,
   {| header := hb.1; body := hb.2;
      entries := (foldl (λ '(entries, exits) n,
                    (entries ∪ (preds_of g n ∖ hb.2),
                     exits ∪ (succs_of g n ∖ hb.2)))
                  (∅, ∅) (node_iter hb.2)).1;
      exits := (foldl (λ '(entries, exits) n,
                  (entries ∪ (preds_of g n ∖ hb.2),
                   exits ∪ (succs_of g n ∖ hb.2)))
                (∅, ∅) (node_iter hb.2)).2 |}).

(** The invariant of the [while todo] loop of [_find_dominators_internal]
    on the live nodes [N], for the seeds [seeds] and the table
    [preds_table]: [doms] binds the live nodes and the seeds, a seed to
    itself alone, a live node [n] to a set of live nodes that holds [n]
    and, when [n] is no seed, all that the next update of [n] would
    keep. *)
Definition dom_inv (N seeds : gset node) (preds_table : node → gset node)
    (st : gmap node (gset node) * list node) : Prop :=
  (∀ k, is_Some (st.1 !! k) ↔ k ∈ N ∨ k ∈ seeds) ∧
  (∀ s, s ∈ seeds → st.1 !! s = Some {[s]}) ∧
  (∀ n, n ∈ N → ∃ D, st.1 !! n = Some D ∧ n ∈ D ∧ D ⊆ N ∧
     (n ∉ seeds → ∀ x, preds_table n ≠ ∅ →
        (∀ p Dp, p ∈ preds_table n → st.1 !! p = Some Dp → x ∈ Dp) →
        x ∈ D)) ∧
  (∀ n, n ∈ st.2 → n ∈ N).

Definition dom_measure (N seeds : gset node)
    (st : gmap node (gset node) * list node) : nat :=
  length st.2 +
  S (size N) *
    sum_list_with (λ n, size (default ∅ (st.1 !! n))) (elements (N ∖ seeds)).

(** What the loop establishes. *)
Definition dom_post (N seeds : gset node) (doms : gmap node (gset node))
    : Prop :=
  (∀ k, is_Some (doms !! k) ↔ k ∈ N ∨ k ∈ seeds) ∧
  (∀ s, s ∈ seeds → doms !! s = Some {[s]}) ∧
  (∀ n, n ∈ N → ∃ D, doms !! n = Some D ∧ n ∈ D ∧ D ⊆ N).

(** The graph on which [_find_post_dominators] runs the backward
    analysis: every node of the body of a loop without exits has an edge
    to [dummy_exit]. *)
Definition link_sink (dummy_exit : node) (Ls : list Loop) (g : CFGraph)
    : CFGraph :=
  foldl (λ g loop,
           if decide (exits loop = ∅) then
             foldl (λ g b, _add_edge b dummy_exit None g) g
               (node_iter (body loop))
           else g) g Ls.

(** [g1] is [g] with an edge to [d], without payload, from every node of
    [W]. *)
Definition linked (d : node) (W : gset node) (g g1 : CFGraph) : Prop :=
  (∀ s, succs_of g1 s =
     succs_of g s ∪ (if decide (s ∈ W) then {[d]} else ∅)) ∧
  (∀ t, preds_of g1 t = preds_of g t ∪ (if decide (t = d) then W else ∅)) ∧
  (∀ s t, _edge_data g1 !! (s, t) =
     if decide (t = d ∧ s ∈ W) then Some None else _edge_data g !! (s, t)) ∧
  _nodes g1 = _nodes g ∧
  _entry_point g1 = _entry_point g ∧
  _dead_nodes g1 = _dead_nodes g.

(** The two graphs have the same nodes, the same edges with the same
    payloads, the same entry point and the same dead nodes; the adjacency
    tables are compared as [_DictOfContainers.__eq__] compares them. *)
Definition same_graph (g g' : CFGraph) : Prop :=
  _nodes g' = _nodes g ∧
  dict_eq (_succs g') (_succs g) ∧
  dict_eq (_preds g') (_preds g) ∧
  _edge_data g' = _edge_data g ∧
  _entry_point g' = _entry_point g ∧
  _dead_nodes g' = _dead_nodes g.

End CFG.

Arguments CFGraph node {_ _} data.
Arguments Loop node {_ _}.

(** * Further operations *)

Section CFG_more.
Context `{Countable node} {data : Type}.
Context {node_iter : iter_order node} {edge_iter : iter_order (node * node)}.
Context {limit : recursion_limit}.
Implicit Types g : CFGraph node data.

(** [successors] and [predecessors]: the pairs in the order the generator
    yields them.  The [KeyError] of [self._edge_data[src, dest]] ends the
    generator; what it had yielded before is not kept. *)
Definition successors g (src : node) : res (list (node * option data)) :=
  map_res (λ dest, d ← getitem (_edge_data g !! (src, dest)); Ok (dest, d))
    (node_iter (succs_of g src)).
Definition predecessors g (dest : node) : res (list (node * option data)) :=
  map_res (λ src, d ← getitem (_edge_data g !! (src, dest)); Ok (src, d))
    (node_iter (preds_of g dest)).

(** [_find_descendents].  [descs[node]] and the local [node_descs] are
    one set object; [self._back_edges] has its value since
    [self._topo_order] was computed. *)
Definition _find_descendents g : res (gmap node (gset node)) :=
  order ← _find_topo_order g;
  back_edges ← _find_back_edges g;
  fold_res (λ descs n,
      let descs := <[n := ∅]> descs in
      fold_res (λ descs succ,
          if decide ((n, succ) ∉ back_edges) then
            node_descs ← getitem (descs !! n);
            succ_descs ← getitem (descs !! succ);
            Ok (<[n := node_descs ∪ {[succ]} ∪ succ_descs]> descs)
          else Ok descs)
        descs (node_iter (succs_of g n)))
    ∅ (reverse order).

(** [descendents] *)
Definition descendents g (n : node) : res (gset node) :=
  descs ← _find_descendents g;
  getitem (descs !! n).

(** [_find_dominator_tree]: the table is a [_DictOfContainers], which
    [domtree[v].add(u)] extends by the key [v] when it is missing. *)
Definition _find_dominator_tree g : res (gmap node (gset node)) :=
  idom ← _find_immediate_dominators g;
  Ok (foldl (λ (domtree : gmap node (gset node)) '(u, v),
        let domtree :=
          if decide (is_Some (domtree !! u)) then domtree
          else <[u := ∅]> domtree in
        if decide (u ≠ v) then <[v := domtree !!! v ∪ {[u]}]> domtree
        else domtree) ∅ idom).

(** [dominator_tree] *)
Definition dominator_tree g : res (gmap node (gset node)) :=
  _find_dominator_tree g.

(** The graphs that the construction interface builds: from an empty
    graph by [add_node], [add_edge] and [set_entry_point], whether the
    calls succeed or fail. *)
Inductive constructed : CFGraph node data → Prop :=
  | constructed_init : constructed __init__
  | constructed_add_node n g : constructed g → constructed (add_node n g)
  | constructed_add_edge src dest d g :
      constructed g → constructed (add_edge src dest d g).1
  | constructed_set_entry_point n g :
      constructed g → constructed (set_entry_point n g).1.

(** [Loop.__eq__] and [Loop.__hash__]: loops are compared by their
    header alone. *)
Definition Loop_eq (a b : Loop node) : bool := bool_decide (header b = header a).
Definition Loop_hash (hash : node → Z) (a : Loop node) : Z := hash (header a).

(** [x] is in the natural loop of the back edge from [src] to [h]: it is
    [h], or it reaches [src] along edges without passing through [h]. *)
Definition in_natural_loop g (h src x : node) : Prop :=
  x = h ∨ (x ≠ h ∧ rtc (λ a b, edge g a b ∧ b ≠ h) x src).

(** [d] is on every path from a node of [seeds] to [n], in the graph
    with an edge from [a] to each node of [st a]: no path from a seed to
    [n] avoids [d]. *)
Definition on_every_path (seeds : gset node) (st : node → gset node)
    (d n : node) : Prop :=
  ¬ ∃ s, s ∈ seeds ∧ s ≠ d ∧ rtc (λ a b, b ∈ st a ∧ b ≠ d) s n.

(** [d] dominates [n]: every path from the entry point [e] to [n] goes
    through [d]. *)
Definition dominates g (e d n : node) : Prop :=
  on_every_path {[e]} (succs_of g) d n.

(** The nodes that [_find_post_dominators] links to the sink: those of
    the bodies of the loops without exits. *)
Definition sink_sources (Ls : list (Loop node)) : gset node :=
  ⋃ ((λ L, if decide (exits L = ∅) then body L else ∅) <$> Ls).

(** [p] post-dominates [n]: every path from [n] to an exit point, or to
    a node of a loop without exits ([W] holds these nodes), goes through
    [p]. *)
Definition post_dominates g (W : gset node) (p n : node) : Prop :=
  ¬ ∃ t, (t ∈ exit_points g ∨ t ∈ W) ∧ n ≠ p ∧
         rtc (λ a b, edge g a b ∧ b ≠ p) n t.

(** What the [while todo] loop of [_find_dominators_internal] keeps
    besides [dom_inv]: the set of a node that is not in [todo] is closed
    under the next update, and no set has lost a node that is on every
    path from the seeds. *)
Definition dom_sem (N seeds : gset node) (pt st : node → gset node)
    (s : gmap node (gset node) * list node) : Prop :=
  (∀ n D, s.1 !! n = Some D → n ∉ seeds → n ∉ s.2 →
     ∀ x, x ∈ D →
       x = n ∨ ∀ p Dp, p ∈ pt n → s.1 !! p = Some Dp → x ∈ Dp) ∧
  (∀ n D d, s.1 !! n = Some D → d ∈ N → on_every_path seeds st d n → d ∈ D).

(** [t] is above [x] on the path [stack], whose head is its top. *)
Definition above (stack : list node) (t x : node) : Prop :=
  ∃ l1 l2, stack = l1 ++ x :: l2 ∧ t ∈ l1.

(** Every [R]-successor of an element of [l] is in [l] before it. *)
Definition decreasing (R : relation node) (l : list node) : Prop :=
  ∀ i x t, l !! i = Some x → R x t → ∃ j, j < i ∧ l !! j = Some t.

(** What the [while stack] loop of [_find_back_edges] keeps besides
    [be_inv], for the list [fin] of the checked nodes in the order in
    which they were checked: an edge that is no back edge leads from a
    checked node to a node checked before it, and from a node of the
    path to a checked node or to a node above it on the path; the path
    follows checked edges that are no back edges, and so does a path
    from the target of each back edge to its source. *)
Definition be_order g (st : be_state) (fin : list node) : Prop :=
  NoDup fin ∧
  (∀ x, x ∈ fin ↔ x ∈ be_checked st) ∧
  decreasing (forward_edge g (be_back_edges st)) fin ∧
  (∀ x t, x ∈ be_stack st → t ∈ succs_of g x → t ∉ be_pend g st x →
     (x, t) ∈ be_back_edges st ∨ t ∈ be_checked st ∨
     above (be_stack st) t x) ∧
  (∀ x y, above (be_stack st) y x → rtc (be_tree g st) x y) ∧
  (∀ s t, (s, t) ∈ be_back_edges st → rtc (be_tree g st) t s).

(** The path [stack] of [_find_back_edges], whose head is its top, starts
    at [e] and follows edges of the graph. *)
Fixpoint chain g (e : node) (stack : list node) : Prop :=
  match stack with
  | [] => True
  | y :: rest =>
      match rest with
      | [] => y = e
      | x :: _ => edge g x y ∧ chain g e rest
      end
  end.

(** What the loop of [_find_back_edges] keeps about dominance: a checked
    edge whose target dominates its source is among the back edges. *)
Definition be_dom g (e : node) (st : be_state) : Prop :=
  chain g e (be_stack st) ∧
  ∀ x t, x ∈ be_stack st ∨ x ∈ be_checked st →
    t ∈ succs_of g x → t ∉ be_pend g st x → dominates g e t x →
    (x, t) ∈ be_back_edges st.

(** [u] comes before [v] in the list [l]. *)
Definition before (l : list node) (u v : node) : Prop :=
  ∃ i j, i < j ∧ l !! i = Some u ∧ l !! j = Some v.

(** The node that an entry of the work stack of [_find_postorder] is
    about. *)
Definition cb_node (c : @callback node) : node :=
  match c with dfs_rec n | post_order_append n => n end.

(** The entry [c] is above the entry [a] on [stack], whose head is its
    top. *)
Definition over {A} (stack : list A) (c a : A) : Prop :=
  ∃ l1 l2, stack = l1 ++ a :: l2 ∧ c ∈ l1.

(** The invariant of the [while stack] loop of [_find_postorder], on the
    stack, [seen] and [post_order]: the seen nodes are the appended ones
    and those whose [post_order.append] is on the stack; every edge that
    is no back edge leads from an appended node to a node appended
    before it, and from a node whose [post_order.append] is on the stack
    to an appended node or to the node of an entry above it; the entries
    above the [post_order.append] of a node are about nodes that it
    reaches by edges that are no back edges. *)
Definition po_inv g (be : gset (node * node)) (e : node)
    (st : list (@callback node) * gset node * list node) : Prop :=
  NoDup st.2 ∧
  (∀ x, x ∈ st.1.2 ↔ x ∈ st.2 ∨ post_order_append x ∈ st.1.1) ∧
  (∀ x, x ∈ st.2 → post_order_append x ∉ st.1.1) ∧
  (∀ c, c ∈ st.1.1 → cb_node c ∈ _nodes g) ∧
  (∀ x, x ∈ st.2 → x ∈ _nodes g) ∧
  decreasing (forward_edge g be) st.2 ∧
  (∀ n t, post_order_append n ∈ st.1.1 → forward_edge g be n t →
     t ∈ st.2 ∨ ∃ c, over st.1.1 c (post_order_append n) ∧ cb_node c = t) ∧
  (∀ n c, over st.1.1 c (post_order_append n) →
     tc (forward_edge g be) n (cb_node c)) ∧
  (e ∈ st.1.2 ∨ st.1.1 = [dfs_rec e]).

Definition po_measure g
    (st : list (@callback node) * gset node * list node) : nat :=
  length st.1.1 + node_weight g (_nodes g ∖ st.1.2).

End CFG_more.

(** * Concrete graphs *)

(** ** All iteration orders of a finite family of sets *)

(** [patch T it] iterates over a set with at most one element in the only
    possible way, over a set of the table [T] as [T] says, and over any
    other set as [it] does. *)
Definition patch {A} `{Countable A} (T : list (gset A * list A))
    (it : iter_order A) : iter_order A := λ s,
  if decide (size s ≤ 1) then elements s
  else match odict.get s T with
       | Some l => l
       | None => it s
       end.

(** One iteration order: by the position of the elements in the set's
    representation. *)
Definition elements_order {A} `{Countable A} : iter_order A := elements.

(** One recursion limit, for the runs below: the 1000 nested calls of
    CPython's default [sys.getrecursionlimit()], the frames of the
    callers left out of account. *)
Definition default_limit : recursion_limit := 1000.

(** The tables that give every set of [ss] one of its enumerations. *)
Fixpoint tables {A} `{Countable A} (ss : list (gset A))
    : list (list (gset A * list A)) :=
  match ss with
  | [] => [[]]
  | s :: ss =>
      l ← permutations (elements s); T ← tables ss; [(s, l) :: T]
  end.

(** ** Graphs on strings *)

Open Scope string_scope.

(** The graph that [add_node] for each of [ns], [add_edge] for each of
    [es] and [set_entry_point entry] build. *)
Definition graph_of (ns : list string) (es : list (string * string))
    (entry : string) : CFGraph string unit :=
  let g := foldl (λ g n, add_node n g) __init__ ns in
  let g := foldl (λ g e, (add_edge e.1 e.2 None g).1) g es in
  (set_entry_point entry g).1.

(** The diamond: [entry] branches to [A] and [B], which join in [C]. *)
Definition diamond : CFGraph string unit :=
  graph_of ["entry"; "A"; "B"; "C"]
    [("entry", "A"); ("entry", "B"); ("A", "C"); ("B", "C")] "entry".

(** The loop of the two nodes [A] and [B], entered from [entry]. *)
Definition two_node_loop : CFGraph string unit :=
  graph_of ["entry"; "A"; "B"] [("entry", "A"); ("A", "B"); ("B", "A")]
    "entry".

(** The loop of [A] and [B] with a loop of [B] alone inside it. *)
Definition nested_loops : CFGraph string unit :=
  graph_of ["entry"; "A"; "B"]
    [("entry", "A"); ("A", "B"); ("B", "B"); ("B", "A")] "entry".

(** One node that loops on itself: a graph without exit point. *)
Definition self_loop : CFGraph string unit :=
  graph_of ["entry"] [("entry", "entry")] "entry".

(** A graph with the block [dead], which the entry point does not reach. *)
Definition with_dead_block : CFGraph string unit :=
  graph_of ["entry"; "A"; "dead"] [("entry", "A"); ("dead", "A")] "entry".

Close Scope string_scope.

(** * Properties *)

Section properties.
Context `{Countable node} {data : Type}.
Context {node_iter : iter_order node} {edge_iter : iter_order (node * node)}.
Implicit Types (g : CFGraph node data).

Lemma loop_rule {S A} (step : S → res (S + A)) (I : S → Prop) (μ : S → nat)
    (Q : A → Prop) :
  (∀ s, I s →
     match step s with
     | Ok (inl s') => I s' ∧ μ s' < μ s
     | Ok (inr a) => Q a
     | _ => False
     end) →
  ∀ fuel s, I s → μ s < fuel → ∃ a, loop fuel step s = Ok a ∧ Q a.
Proof.
  intros Hstep fuel. induction fuel as [|fuel IH]; intros s HI Hμ; [lia|].
  specialize (Hstep s HI). simpl.
  destruct (step s) as [[s'|a]| |]; try done.
  - destruct Hstep as [HI' Hlt]. apply IH; [done|lia].
  - eauto.
Qed.

Lemma for_each_rule {A} (body : A → CFGraph node data → CFGraph node data * res unit)
    (I : list A → CFGraph node data → Prop) (l : list A) (g : CFGraph node data) :
  I [] g →
  (∀ l1 x l2 g, l = l1 ++ x :: l2 → I l1 g →
     ∃ g', body x g = (g', Ok ()) ∧ I (l1 ++ [x]) g') →
  ∃ g', for_each body l g = (g', Ok ()) ∧ I l g'.
Proof.
  intros H0 Hstep.
  cut (∀ l2 l1 g, l = l1 ++ l2 → I l1 g →
         ∃ g', for_each body l2 g = (g', Ok ()) ∧ I l g').
  { intros Hc. by apply (Hc l [] g). }
  induction l2 as [|x l2 IH]; intros l1 g1 -> HI; simpl.
  - rewrite app_nil_r. eauto.
  - destruct (Hstep l1 x l2 g1 eq_refl HI) as (g' & -> & HI').
    apply (IH (l1 ++ [x])); [by rewrite <-app_assoc|done].
Qed.

(** ** Iteration over sets *)

Lemma foldl_cons {A} (l acc : list A) :
  foldl (λ acc x, x :: acc) acc l = reverse l ++ acc.
Proof.
  revert acc. induction l as [|x l IH]; intros acc; simpl; [done|].
  by rewrite IH, reverse_cons, <-app_assoc.
Qed.

Lemma foldl_union_singleton (l : list node) (acc : gset node) :
  foldl (λ acc x, acc ∪ {[x]}) acc l = acc ∪ list_to_set l.
Proof.
  revert acc. induction l as [|x l IH]; intros acc; simpl.
  - set_solver.
  - rewrite IH. set_solver.
Qed.

(** ** Reading the tables after an update *)

Lemma lookup_total_gset_insert (m : gmap node (gset node)) k v n :
  <[k := v]> m !!! n = if decide (n = k) then v else m !!! n.
Proof.
  case_decide as Hn.
  - subst. by rewrite lookup_total_insert_eq.
  - by rewrite lookup_total_insert_ne.
Qed.

Lemma lookup_total_gset_delete (m : gmap node (gset node)) k n :
  delete k m !!! n = if decide (n = k) then ∅ else m !!! n.
Proof.
  case_decide as Hn.
  - subst. by rewrite lookup_total_delete_eq.
  - by rewrite lookup_total_delete_ne.
Qed.

Lemma lookup_total_gset_None (m : gmap node (gset node)) n :
  m !! n = None → m !!! n = ∅.
Proof. intros Hn. by rewrite lookup_total_alt, Hn. Qed.

(** ** The construction interface *)

Lemma succs_of_add_edge src dest d g s :
  succs_of (_add_edge src dest d g) s =
    if decide (s = src) then succs_of g src ∪ {[dest]} else succs_of g s.
Proof.
  unfold succs_of, _add_edge; simpl. rewrite lookup_total_gset_insert.
  by case_decide; subst.
Qed.

Lemma preds_of_add_edge src dest d g t :
  preds_of (_add_edge src dest d g) t =
    if decide (t = dest) then preds_of g dest ∪ {[src]} else preds_of g t.
Proof.
  unfold preds_of, _add_edge; simpl. rewrite lookup_total_gset_insert.
  by case_decide; subst.
Qed.

Lemma edge_add_edge src dest d g s t :
  edge (_add_edge src dest d g) s t ↔ edge g s t ∨ (s = src ∧ t = dest).
Proof.
  unfold edge. rewrite succs_of_add_edge. case_decide; set_solver.
Qed.

Lemma init_wf : wf (__init__ : CFGraph node data).
Proof.
  unfold wf, consistent, succs_of, preds_of; simpl.
  setoid_rewrite lookup_total_empty. setoid_rewrite lookup_empty.
  repeat split; try set_solver; by intros [? ?].
Qed.

Lemma add_node_wf n g : wf g → wf (add_node n g).
Proof.
  intros (Hc & Hn & He). split; [done|]. split; simpl.
  - intros s t Hst. destruct (Hn s t Hst). unfold add_node; simpl. set_solver.
  - intros e Hentry. specialize (He e Hentry). set_solver.
Qed.

Lemma _add_edge_consistent src dest d g :
  consistent g → consistent (_add_edge src dest d g).
Proof.
  intros [Hsp Hsd]. split; intros s t.
  - rewrite succs_of_add_edge, preds_of_add_edge.
    specialize (Hsp s t). repeat case_decide; set_solver.
  - rewrite succs_of_add_edge. simpl.
    destruct (decide ((src, dest) = (s, t))) as [[= -> ->]|Hne].
    + rewrite lookup_insert_eq, decide_True by done. split; [eauto|set_solver].
    + rewrite lookup_insert_ne by done. rewrite <-Hsd.
      case_decide; [|done]. subst. set_solver.
Qed.

Lemma add_edge_wf src dest d g : wf g → wf (add_edge src dest d g).1.
Proof.
  intros Hwf. unfold add_edge.
  destruct (decide (src ∉ _nodes g)) as [|Hsrc]; [done|].
  destruct (decide (dest ∉ _nodes g)) as [|Hdest]; [done|]. simpl.
  apply dec_stable in Hsrc, Hdest. destruct Hwf as (Hc & Hn & He).
  split; [by apply _add_edge_consistent|]. split; [|done].
  intros s t [Hst|[-> ->]]%edge_add_edge; [by apply Hn|done].
Qed.

Lemma set_entry_point_wf n g : wf g → wf (set_entry_point n g).1.
Proof.
  intros Hwf. unfold set_entry_point.
  destruct (decide (n ∈ _nodes g)) as [Hin|]; [|done].
  destruct Hwf as (Hc & Hn & He). split; [done|]. split; [done|].
  simpl. by intros ? [= <-].
Qed.

(** C8.  On a node [u] that was never added, [add_edge] fails in either
    direction with [ValueError] and [set_entry_point] fails with the
    [AssertionError] of its [assert] (the two exceptions that the
    specification calls UnknownNodeError), and the graph is left as it
    was.  When both endpoints were added, [add_edge] succeeds: it binds
    the payload to the edge, replacing an earlier one, adds the
    destination to the successors of the source and the source to the
    predecessors of the destination, and changes nothing else. *)
Theorem add_edge_checks_endpoints (g : CFGraph node data) :
  (∀ u v d, u ∉ _nodes g →
     add_edge u v d g = (g, Raise ValueError) ∧
     add_edge v u d g = (g, Raise ValueError) ∧
     set_entry_point u g = (g, Raise AssertionError)) ∧
  (∀ src dest d, src ∈ _nodes g → dest ∈ _nodes g →
     ∃ g', add_edge src dest d g = (g', Ok ()) ∧
       _edge_data g' = <[(src, dest) := d]> (_edge_data g) ∧
       (∀ s, succs_of g' s =
          if decide (s = src) then succs_of g src ∪ {[dest]}
          else succs_of g s) ∧
       (∀ t, preds_of g' t =
          if decide (t = dest) then preds_of g dest ∪ {[src]}
          else preds_of g t) ∧
       _nodes g' = _nodes g ∧
       _entry_point g' = _entry_point g ∧
       _dead_nodes g' = _dead_nodes g).
Proof.
  split.
  - intros u v d Hu. unfold add_edge, set_entry_point.
    repeat split; repeat case_decide; done.
  - intros src dest d Hsrc Hdest. exists (_add_edge src dest d g).
    unfold add_edge. repeat case_decide; try done.
    split; [done|]. split; [done|].
    split; [intros s; apply succs_of_add_edge|].
    split; [intros t; apply preds_of_add_edge|done].
Qed.

(** ** Depth-first traversal *)

Lemma succs_of_unbound g n : n ∉ dom (_succs g) → succs_of g n = ∅.
Proof.
  intros Hn. apply lookup_total_gset_None. by apply not_elem_of_dom.
Qed.

Lemma dfs_pending_add g seen n :
  n ∉ seen →
  dfs_pending g (seen ∪ {[n]}) + size (succs_of g n) = dfs_pending g seen.
Proof.
  intros Hn. unfold dfs_pending.
  destruct (decide (n ∈ dom (_succs g))) as [Hd|Hd].
  - assert (dom (_succs g) ∖ seen
            = {[n]} ∪ dom (_succs g) ∖ (seen ∪ {[n]})) as ->.
    { apply set_eq. intros x. destruct (decide (x = n)); set_solver. }
    rewrite elements_union_singleton by set_solver. simpl. lia.
  - rewrite succs_of_unbound, size_empty by done.
    replace (dom (_succs g) ∖ (seen ∪ {[n]})) with (dom (_succs g) ∖ seen)
      by set_solver.
    lia.
Qed.

Lemma reachable_closed g e (X : gset node) n :
  e ∈ X → (∀ s t, s ∈ X → t ∈ succs_of g s → t ∈ X) →
  reachable g e n → n ∈ X.
Proof.
  intros He Hcl. revert n. apply (rtc_ind_r (λ n, n ∈ X)); [done|].
  intros s t _ Hst Hs. by apply (Hcl s t).
Qed.

(** ** Removal of the edges of a node *)

Lemma restricted_empty g : restricted ∅ g g.
Proof.
  split; [|split; [|split]]; try done.
  all: intros s; rewrite decide_False by set_solver; set_solver.
Qed.

Lemma restricted_trans D1 D2 g g1 g2 :
  restricted D1 g g1 → restricted D2 g1 g2 → restricted (D1 ∪ D2) g g2.
Proof.
  intros (Hs1 & Hp1 & Hd1 & Hn1 & He1 & Hdn1)
         (Hs2 & Hp2 & Hd2 & Hn2 & He2 & Hdn2).
  split; [|split; [|split; [|split; [|split]]]]; try congruence.
  - intros s. rewrite Hs2, Hs1. clear. repeat case_decide; set_solver.
  - intros t. rewrite Hp2, Hp1. clear. repeat case_decide; set_solver.
  - intros s t. rewrite Hd2, Hd1. clear.
    repeat case_decide; try done; exfalso; set_solver.
Qed.

Lemma restricted_consistent D g g' :
  consistent g → restricted D g g' → consistent g'.
Proof.
  intros [Hsp Hsd] (Hs & Hp & Hd & _). split; intros s t.
  - rewrite Hs, Hp. specialize (Hsp s t). clear -Hsp.
    repeat case_decide; set_solver.
  - rewrite Hs, Hd. specialize (Hsd s t). clear -Hsd.
    repeat case_decide; rewrite ?elem_of_difference, ?Hsd.
    + split; [set_solver|]. by intros [? ?].
    + naive_solver.
    + split; [naive_solver|]. by intros [? ?].
    + naive_solver.
Qed.

(** ** Back edges *)

Lemma sum_list_with_ext_in {A} (f f' : A → nat) (l : list A) :
  (∀ x, x ∈ l → f x = f' x) → sum_list_with f l = sum_list_with f' l.
Proof.
  induction l as [|x l IH]; intros Hf; simpl; [done|].
  rewrite (Hf x), IH; [done| |set_solver]. intros y Hy. apply Hf. set_solver.
Qed.

Lemma node_weight_remove g (X : gset node) x :
  x ∈ X →
  node_weight g X = S (size (succs_of g x)) + node_weight g (X ∖ {[x]}).
Proof.
  intros Hx. unfold node_weight.
  assert (X = {[x]} ∪ X ∖ {[x]}) as HX.
  { apply set_eq. intros y. destruct (decide (y = x)); set_solver. }
  rewrite HX at 1. rewrite elements_union_singleton by set_solver. done.
Qed.

Lemma be_pend_pop g tos rest m ck be x :
  NoDup (tos :: rest) → m !! tos = Some [] →
  be_pend g (mkBE rest m (ck ∪ {[tos]}) be) x
  = be_pend g (mkBE (tos :: rest) m ck be) x.
Proof.
  intros [Htos _]%NoDup_cons Hm. unfold be_pend; simpl.
  destruct (decide (x = tos)) as [->|Hx].
  - rewrite decide_False, decide_True, decide_True, Hm by set_solver. done.
  - destruct (decide (x ∈ rest)).
    + by rewrite decide_True by set_solver.
    + rewrite (decide_False (P := x ∈ tos :: rest)) by set_solver.
      destruct (decide (x ∈ ck)).
      * by rewrite decide_True by set_solver.
      * by rewrite decide_False by set_solver.
Qed.

Lemma be_pend_next g tos rest m ck be be' cur more x :
  m !! tos = Some (cur :: more) →
  be_pend g (mkBE (tos :: rest) (<[tos := more]> m) ck be') x
  = if decide (x = tos) then more
    else be_pend g (mkBE (tos :: rest) m ck be) x.
Proof.
  intros Hm. unfold be_pend; simpl. destruct (decide (x = tos)) as [->|Hx].
  - rewrite decide_True, lookup_insert_eq by set_solver. done.
  - by rewrite lookup_insert_ne.
Qed.

Lemma be_pend_push g tos rest m ck be cur more x :
  m !! tos = Some (cur :: more) → cur ∉ tos :: rest → cur ∉ ck →
  be_pend g (push_state g cur
               (mkBE (tos :: rest) (<[tos := more]> m) ck be)) x
  = if decide (x = cur) then reverse (node_iter (succs_of g cur))
    else if decide (x = tos) then more
    else be_pend g (mkBE (tos :: rest) m ck be) x.
Proof.
  intros Hm Hcur Hck. unfold be_pend, push_state; simpl.
  destruct (decide (x = cur)) as [->|Hx].
  - rewrite decide_True, lookup_insert_eq by set_solver. simpl.
    by rewrite foldl_cons, app_nil_r.
  - rewrite lookup_insert_ne by done.
    assert (cur ≠ tos) by set_solver.
    destruct (decide (x = tos)) as [->|Hx'].
    + rewrite decide_True, lookup_insert_eq by set_solver. done.
    + rewrite lookup_insert_ne by done.
      destruct (decide (x ∈ tos :: rest)).
      * by rewrite decide_True by set_solver.
      * by rewrite decide_False by set_solver.
Qed.

Lemma be_step_pop g e tos rest m ck be :
  be_inv g e (mkBE (tos :: rest) m ck be) → m !! tos = Some [] →
  be_inv g e (mkBE rest m (ck ∪ {[tos]}) be) ∧
  be_measure g (mkBE rest m (ck ∪ {[tos]}) be)
  < be_measure g (mkBE (tos :: rest) m ck be).
Proof.
  intros (Hnd & Hst & Hreach & Hpend & Hcl & He & Hbe & Htl) Hm.
  simpl in *.
  pose proof (λ x, be_pend_pop g tos rest m ck be x Hnd Hm) as Hpe.
  assert (∀ s t, be_tree g (mkBE (tos :: rest) m ck be) s t →
            be_tree g (mkBE rest m (ck ∪ {[tos]}) be) s t) as Htree.
  { intros s t (? & ? & ?). split; [done|]. split; [done|]. by rewrite Hpe. }
  apply NoDup_cons in Hnd as [Htos Hnd]. split.
  - split; [done|]. simpl. split; [|split; [|split; [|split; [|split; [|split]]]]].
    + intros x Hx. destruct (Hst x) as [Hxc Hxs]; [set_solver|].
      split; [|done]. set_solver.
    + intros x Hx. destruct (Hreach x) as [? Hr]; [set_solver|].
      split; [done|]. eapply rtc_subrel; [|exact Hr]. done.
    + intros x. rewrite Hpe. apply Hpend.
    + intros x t Hx Ht. rewrite Hpe.
      destruct (Hcl x t) as [?|[?|?]]; [set_solver|done|auto|set_solver|set_solver].
    + set_solver.
    + intros s t Hin. destruct (Hbe s t Hin) as (? & ? & ?).
      split; [done|]. split; [|done]. by rewrite Hpe.
    + intros x Hx. apply Htl. destruct rest; set_solver.
  - unfold be_measure; simpl.
    erewrite sum_list_with_ext_in; [|intros x _; rewrite Hpe; reflexivity].
    replace (list_to_set rest ∪ (ck ∪ {[tos]}))
      with ({[tos]} ∪ list_to_set rest ∪ ck) by set_solver.
    lia.
Qed.

Lemma be_pend_tos g tos rest m ck be l :
  m !! tos = Some l → be_pend g (mkBE (tos :: rest) m ck be) tos = l.
Proof.
  intros Hm. unfold be_pend; simpl. by rewrite decide_True, Hm by set_solver.
Qed.

Lemma be_step_next g e tos rest m ck be cur more be' :
  be_inv g e (mkBE (tos :: rest) m ck be) → m !! tos = Some (cur :: more) →
  (cur ∈ tos :: rest ∧ be' = be ∪ {[(tos, cur)]}) ∨ (cur ∈ ck ∧ be' = be) →
  be_inv g e (mkBE (tos :: rest) (<[tos := more]> m) ck be') ∧
  be_measure g (mkBE (tos :: rest) (<[tos := more]> m) ck be')
  < be_measure g (mkBE (tos :: rest) m ck be).
Proof.
  intros (Hnd & Hst & Hreach & Hpend & Hcl & He & Hbe & Htl) Hm Hcur.
  simpl in *.
  pose proof (λ x, be_pend_next g tos rest m ck be be' cur more x Hm) as Hpe.
  pose proof (be_pend_tos g tos rest m ck be _ Hm) as Htos.
  destruct (Hpend tos) as [Hndl Hsub]. rewrite Htos in Hndl, Hsub.
  apply NoDup_cons in Hndl as [Hcm Hndm].
  assert (∀ s t, t ∉ be_pend g (mkBE (tos :: rest) m ck be) s →
                 t ∉ be_pend g (mkBE (tos :: rest) (<[tos := more]> m) ck be') s)
    as Hshrink.
  { intros s t Ht. rewrite Hpe. case_decide as Hs; [|done].
    subst s. rewrite Htos in Ht. set_solver. }
  assert (∀ s t, (s, t) ∈ be' → (s, t) ∈ be ∨ (s = tos ∧ t = cur ∧ cur ∈ tos :: rest))
    as Hbe'.
  { intros s t Hin. destruct Hcur as [[? ->]|[? ->]]; [|by left].
    apply elem_of_union in Hin as [?|[= -> ->]%elem_of_singleton]; auto. }
  assert (∀ s t, be_tree g (mkBE (tos :: rest) m ck be) s t →
            be_tree g (mkBE (tos :: rest) (<[tos := more]> m) ck be') s t)
    as Htree.
  { intros s t (Hst' & Hnb & Hnp). split; [done|]. simpl in *.
    split; [|by apply Hshrink].
    intros [?|(-> & -> & _)]%Hbe'; [done|]. apply Hnp. rewrite Htos. set_solver. }
  split.
  - split; [done|]. simpl.
    split; [|split; [|split; [|split; [|split; [|split]]]]].
    + intros x Hx. destruct (Hst x Hx) as [Hxc Hxs]. split; [done|].
      destruct (decide (x = tos)) as [->|].
      * rewrite lookup_insert_eq. eauto.
      * by rewrite lookup_insert_ne.
    + intros x Hx. destruct (Hreach x Hx) as [? Hr].
      split; [done|]. eapply rtc_subrel; [|exact Hr]. done.
    + intros x. rewrite Hpe. case_decide as Hx; [|apply Hpend].
      subst x. split; [done|]. intros t Ht. apply Hsub. set_solver.
    + intros x t Hx Ht. rewrite Hpe.
      destruct (Hcl x t Hx Ht) as [Hp|?]; [|auto].
      case_decide as Hx'; [|auto]. subst x. rewrite Htos in Hp.
      apply elem_of_cons in Hp as [->|?]; [|auto].
      destruct Hcur as [[? _]|[? _]]; auto.
    + done.
    + intros s t [Hin|(-> & -> & Hc)]%Hbe'.
      * destruct (Hbe s t Hin) as (? & ? & ?). auto.
      * split; [apply Hsub; set_solver|]. split.
        -- rewrite Hpe. by rewrite decide_True.
        -- apply elem_of_cons in Hc as [->|Hc]; [|by apply Htl].
           assert (tos ∈ succs_of g tos) by (apply Hsub; set_solver).
           set_solver.
    + done.
  - unfold be_measure; simpl. rewrite Hpe, decide_True, Htos by done.
    apply NoDup_cons in Hnd as [Hnt _].
    rewrite (sum_list_with_ext_in
               (λ x, S (length (be_pend g
                  (mkBE (tos :: rest) (<[tos := more]> m) ck be') x)))
               (λ x, S (length (be_pend g
                  (mkBE (tos :: rest) m ck be) x))) rest); [simpl; lia|].
    intros x Hx. simpl. rewrite Hpe, decide_False by set_solver. done.
Qed.

(** ** Topological order *)

Lemma fold_res_rule {A B} (body : B → A → res B) (I : list A → B → Prop)
    (l : list A) (acc : B) :
  I [] acc →
  (∀ l1 x l2 acc, l = l1 ++ x :: l2 → I l1 acc →
     ∃ acc', body acc x = Ok acc' ∧ I (l1 ++ [x]) acc') →
  ∃ acc', fold_res body acc l = Ok acc' ∧ I l acc'.
Proof.
  intros H0 Hstep.
  cut (∀ l2 l1 acc, l = l1 ++ l2 → I l1 acc →
         ∃ acc', fold_res body acc l2 = Ok acc' ∧ I l acc').
  { intros Hc. by apply (Hc l [] acc). }
  induction l2 as [|x l2 IH]; intros l1 acc1 -> HI; simpl.
  - rewrite app_nil_r. eauto.
  - destruct (Hstep l1 x l2 acc1 eq_refl HI) as (acc' & -> & HI'). simpl.
    apply (IH (l1 ++ [x])); [by rewrite <-app_assoc|done].
Qed.

(** The outcomes of a [for] loop whose body returns or raises. *)
Lemma fold_res_cases {A B} (body : B → A → res B) (I : list A → B → Prop)
    (E : exception → Prop) (l : list A) (acc : B) :
  I [] acc →
  (∀ l1 x l2 acc, l = l1 ++ x :: l2 → I l1 acc →
     match body acc x with
     | Ok acc' => I (l1 ++ [x]) acc'
     | Raise e => E e
     | OutOfFuel => False
     end) →
  match fold_res body acc l with
  | Ok acc' => I l acc'
  | Raise e => E e
  | OutOfFuel => False
  end.
Proof.
  intros H0 Hstep.
  cut (∀ l2 l1 acc, l = l1 ++ l2 → I l1 acc →
         match fold_res body acc l2 with
         | Ok acc' => I l acc'
         | Raise e => E e
         | OutOfFuel => False
         end).
  { intros Hc. by apply (Hc l [] acc). }
  induction l2 as [|x l2 IH]; intros l1 acc1 -> HI; simpl.
  - by rewrite app_nil_r.
  - specialize (Hstep l1 x l2 acc1 eq_refl HI).
    destruct (body acc1 x) as [acc'|e|]; simpl; [|done..].
    apply (IH (l1 ++ [x])); [by rewrite <-app_assoc|done].
Qed.

Lemma rtc_closed {A} (R : relation A) (P : A → Prop) x y :
  P x → (∀ s t, P s → R s t → P t) → rtc R x y → P y.
Proof. intros Hx Hcl Hr. induction Hr; eauto. Qed.

Lemma dfs_rec_post_trans g be s0 p0 s1 p1 st2 :
  dfs_rec_post g be s0 p0 (s1, p1) → dfs_rec_post g be s1 p1 st2 →
  dfs_rec_post g be s0 p0 st2.
Proof.
  intros (Hs1 & Hn1 & Hc1 & new1 & Hp1 & Hnd1 & He1)
         (Hs2 & Hn2 & Hc2 & new2 & Hp2 & Hnd2 & He2).
  simpl in *. split; [set_solver|]. split; [done|]. split.
  - intros u t Hu Hu0 Hut. destruct (decide (u ∈ s1)) as [Hu1|Hu1].
    + apply Hs2. by apply (Hc1 u t).
    + by apply (Hc2 u t).
  - exists (new1 ++ new2). rewrite Hp2, Hp1, app_assoc. split; [done|]. split.
    + apply NoDup_app. split; [done|]. split; [|done].
      intros x Hx1 Hx2. apply He1 in Hx1 as [Hx1 _]. apply He2 in Hx2 as [_ Hx2].
      done.
    + intros x. rewrite elem_of_app, He1, He2. clear -Hs1 Hs2.
      destruct (decide (x ∈ s1)); set_solver.
Qed.

(** ** Loops *)

Lemma preds_pending_add g body n :
  n ∉ body →
  preds_pending g (body ∪ {[n]}) + size (preds_of g n) = preds_pending g body.
Proof.
  intros Hn. unfold preds_pending.
  destruct (decide (n ∈ dom (_preds g))) as [Hd|Hd].
  - assert (dom (_preds g) ∖ body
            = {[n]} ∪ dom (_preds g) ∖ (body ∪ {[n]})) as ->.
    { apply set_eq. intros x. destruct (decide (x = n)); set_solver. }
    rewrite elements_union_singleton by set_solver. simpl. lia.
  - assert (preds_of g n = ∅) as ->.
    { apply lookup_total_gset_None. by apply not_elem_of_dom. }
    rewrite size_empty.
    replace (dom (_preds g) ∖ (body ∪ {[n]})) with (dom (_preds g) ∖ body)
      by set_solver.
    lia.
Qed.

Lemma preds_pending_le g body : preds_pending g body ≤ pred_count g.
Proof.
  unfold preds_pending, pred_count.
  assert (dom (_preds g) = (dom (_preds g) ∖ body) ∪ (dom (_preds g) ∩ body))
    as Hd.
  { apply set_eq. intros x. destruct (decide (x ∈ body)); set_solver. }
  rewrite Hd at 2. rewrite elements_disj_union by set_solver.
  rewrite sum_list_with_app. lia.
Qed.

Lemma odict_get_None {K V} `{EqDecision K} (k : K) (d : list (K * V)) :
  odict.get k d = None ↔ k ∉ d.*1.
Proof.
  induction d as [|[k' v] d IH]; simpl.
  - split; [intros _; apply not_elem_of_nil|done].
  - rewrite not_elem_of_cons. case_decide; naive_solver.
Qed.

Lemma odict_get_Some {K V} `{EqDecision K} (k : K) (v : V) (d : list (K * V)) :
  odict.get k d = Some v → (k, v) ∈ d.
Proof.
  induction d as [|[k' v'] d IH]; simpl; [done|].
  case_decide; [intros [= ->]; subst; left|intros ?; right; auto].
Qed.

Lemma odict_get_elem {K V} `{EqDecision K} (k : K) (v : V) (d : list (K * V)) :
  NoDup d.*1 → (k, v) ∈ d → odict.get k d = Some v.
Proof.
  induction d as [|[k' v'] d IH]; simpl; [by intros _ ?%elem_of_nil|].
  intros [Hk Hnd]%NoDup_cons [[= -> ->]|Hin]%elem_of_cons.
  - by rewrite decide_True.
  - rewrite decide_False; [auto|]. intros ->. apply Hk.
    apply list_elem_of_fmap. by exists (k', v).
Qed.

Lemma odict_set_fresh {K V} `{EqDecision K} (k : K) (v : V) (d : list (K * V)) :
  k ∉ d.*1 → odict.set k v d = d ++ [(k, v)].
Proof.
  induction d as [|[k' v'] d IH]; simpl; [done|].
  intros [Hne Hk]%not_elem_of_cons. by rewrite decide_False, IH.
Qed.

Lemma odict_set_keys {K V} `{EqDecision K} (k : K) (v : V) (d : list (K * V)) :
  k ∈ d.*1 → (odict.set k v d).*1 = d.*1.
Proof.
  induction d as [|[k' v'] d IH]; simpl; [by intros ?%elem_of_nil|].
  intros Hk. case_decide; simpl; [by subst|].
  f_equal. apply IH. apply elem_of_cons in Hk as [?|?]; done.
Qed.

Lemma odict_set_Forall {K V} `{EqDecision K} (P : K * V → Prop) (k : K) (v : V)
    (d : list (K * V)) :
  Forall P d → P (k, v) → Forall P (odict.set k v d).
Proof.
  intros Hd Hkv. induction Hd as [|[k' v'] d Hx Hd IH]; simpl.
  - by apply Forall_singleton.
  - case_decide; constructor; auto.
Qed.

Lemma foldl_odict_set_fresh {K V W} `{EqDecision K} (f : K * V → W)
    (l : list (K * V)) (acc : list (K * W)) :
  NoDup l.*1 → (∀ k, k ∈ l.*1 → k ∉ acc.*1) →
  foldl (λ acc x, odict.set x.1 (f x) acc) acc l
  = acc ++ ((λ x, (x.1, f x)) <$> l).
Proof.
  revert acc. induction l as [|[k v] l IH]; intros acc Hnd Hfresh.
  - simpl. by rewrite app_nil_r.
  - rewrite fmap_cons in Hnd. apply NoDup_cons in Hnd as [Hk Hnd].
    cbn [foldl fst].
    rewrite odict_set_fresh by (apply Hfresh; rewrite fmap_cons; left).
    rewrite IH; [by rewrite fmap_cons, <-app_assoc|done|].
    intros k' Hk'. rewrite fmap_app, elem_of_app. intros [Hin|Hin].
    + by apply (Hfresh k'); [rewrite fmap_cons; right|].
    + apply list_elem_of_singleton in Hin. simpl in Hin. by subst.
Qed.

Lemma foldl_ext {A B} (f f' : B → A → B) (acc : B) (l : list A) :
  (∀ acc x, f acc x = f' acc x) → foldl f acc l = foldl f' acc l.
Proof.
  intros Hf. revert acc. induction l as [|x l IH]; intros acc; simpl; [done|].
  by rewrite Hf, IH.
Qed.

Lemma body_ok_union g B1 B2 : body_ok g B1 → body_ok g B2 → body_ok g (B1 ∪ B2).
Proof.
  intros [Hs1 Hn1] [Hs2 Hn2]. split; [set_solver|].
  intros x [?|?]%elem_of_union; auto.
Qed.

(** ** Loops of a node *)

Lemma insert_by_perm {A} (key : A → nat) (x : A) (l : list A) :
  insert_by key x l ≡ₚ x :: l.
Proof.
  induction l as [|y l IH]; simpl; [done|].
  case_decide; [done|]. by rewrite IH, Permutation_swap.
Qed.

Lemma insert_by_sorted {A} (key : A → nat) (x : A) (l : list A) :
  StronglySorted (λ a b, key a ≤ key b) l →
  StronglySorted (λ a b, key a ≤ key b) (insert_by key x l).
Proof.
  induction 1 as [|y l Hs IH Hy]; simpl.
  - repeat constructor.
  - case_decide as Hlt.
    + constructor; [by constructor|]. constructor; [lia|].
      eapply Forall_impl; [exact Hy|]. simpl. lia.
    + constructor; [done|]. rewrite insert_by_perm. constructor; [lia|done].
Qed.

Lemma sorted_spec {A} (key : A → nat) (l : list A) :
  sorted key l ≡ₚ l ∧ StronglySorted (λ a b, key a ≤ key b) (sorted key l).
Proof.
  unfold sorted.
  cut (∀ acc, StronglySorted (λ a b, key a ≤ key b) acc →
         foldl (λ acc x, insert_by key x acc) acc l ≡ₚ acc ++ l ∧
         StronglySorted (λ a b, key a ≤ key b)
           (foldl (λ acc x, insert_by key x acc) acc l)).
  { intros Hc. apply (Hc []). constructor. }
  induction l as [|x l IH]; intros acc Hacc; simpl.
  - by rewrite app_nil_r.
  - destruct (IH (insert_by key x acc)) as [Hp Hs].
    { by apply insert_by_sorted. }
    split; [|done]. rewrite Hp, insert_by_perm. simpl. apply Permutation_middle.
Qed.

Lemma StronglySorted_filter {A} (R : relation A) (P : A → Prop)
    `{∀ x, Decision (P x)} (l : list A) :
  StronglySorted R l → StronglySorted R (filter P l).
Proof.
  induction 1 as [|x l Hs IH Hx]; [constructor|].
  rewrite filter_cons. case_decide; [|done].
  constructor; [done|]. rewrite Forall_forall in Hx |- *.
  intros y [_ Hy]%list_elem_of_filter. auto.
Qed.

Lemma foldl_insert_const {V} (v : V) (l : list node) (m : gmap node V) n :
  foldl (λ m n, <[n := v]> m) m l !! n
  = if decide (n ∈ l) then Some v else m !! n.
Proof.
  revert m. induction l as [|x l IH]; intros m; simpl.
  - done.
  - rewrite IH. destruct (decide (n = x)) as [->|Hne].
    + rewrite lookup_insert_eq, (decide_True (P := x ∈ x :: l)) by left.
      by case_decide.
    + rewrite lookup_insert_ne by done.
      destruct (decide (n ∈ l)).
      * by rewrite decide_True by (by right).
      * rewrite decide_False; [done|]. by intros [?|?]%elem_of_cons.
Qed.

Lemma map_res_lookup {A B} (f : A → res B) (h : B → A) (l : list B) :
  (∀ x, x ∈ l → f (h x) = Ok x) → map_res f (h <$> l) = Ok l.
Proof.
  induction l as [|x l IH]; intros Hf; [done|].
  rewrite fmap_cons. cbn [map_res]. rewrite (Hf x) by left.
  rewrite IH; [done|]. intros y Hy. apply Hf. by right.
Qed.

Lemma make_loop_elem g (bodies : list (node * gset node)) h L :
  (h, L) ∈ make_loop g <$> bodies → header L = h ∧ (h, body L) ∈ bodies.
Proof.
  intros ([h' B] & [= -> ->] & Hin)%list_elem_of_fmap. simpl. done.
Qed.

Lemma make_loop_keys g (bodies : list (node * gset node)) :
  (make_loop g <$> bodies).*1 = bodies.*1.
Proof. rewrite <-list_fmap_compose. by apply list_fmap_ext. Qed.

(** ** Dominators *)

Lemma map_res_getitem {V} (m : gmap node V) (l : list node) :
  (∀ p, p ∈ l → is_Some (m !! p)) →
  ∃ vs, map_res (λ p, getitem (m !! p)) l = Ok vs ∧
    Forall2 (λ p v, m !! p = Some v) l vs.
Proof.
  induction l as [|p l IH]; intros Hl; simpl.
  - exists []. split; [done|constructor].
  - destruct (Hl p) as [v Hv]; [left|]. rewrite Hv. simpl.
    destruct IH as (vs & -> & Hvs); [intros q Hq; apply Hl; by right|].
    simpl. exists (v :: vs). split; [done|]. by constructor.
Qed.

Lemma fold_inter (ds : list (gset node)) (D : gset node) :
  ∃ R, fold_res (λ a b, Ok (a ∩ b)) D ds = Ok R ∧
    ∀ x, x ∈ R ↔ x ∈ D ∧ Forall (λ D', x ∈ D') ds.
Proof.
  revert D. induction ds as [|D' ds IH]; intros D; simpl.
  - exists D. split; [done|]. intros x. split; [by split|by intros []].
  - destruct (IH (D ∩ D')) as (R & -> & HR). exists R. split; [done|].
    intros x. rewrite HR, Forall_cons, elem_of_intersection. naive_solver.
Qed.

Lemma sum_elements_update (f f' : node → nat) (X : gset node) n :
  n ∈ X → (∀ m, m ≠ n → f' m = f m) →
  sum_list_with f' (elements X) + f n = sum_list_with f (elements X) + f' n.
Proof.
  intros Hn Hf.
  assert (X = {[n]} ∪ X ∖ {[n]}) as HX.
  { apply set_eq. intros y. destruct (decide (y = n)); set_solver. }
  rewrite HX. rewrite elements_union_singleton by set_solver. simpl.
  rewrite (sum_list_with_ext_in f' f (elements (X ∖ {[n]}))); [lia|].
  intros m Hm. apply Hf. set_solver.
Qed.

Lemma foldl_insert_fn {V} (f : node → V) (l : list node) (m : gmap node V) n :
  foldl (λ m n, <[n := f n]> m) m l !! n
  = if decide (n ∈ l) then Some (f n) else m !! n.
Proof.
  revert m. induction l as [|x l IH]; intros m; simpl; [done|].
  rewrite IH. destruct (decide (n = x)) as [->|Hne].
  - rewrite lookup_insert_eq, (decide_True (P := x ∈ x :: l)) by left.
    by case_decide.
  - rewrite lookup_insert_ne by done.
    destruct (decide (n ∈ l)).
    + by rewrite decide_True by (by right).
    + rewrite decide_False; [done|]. by intros [?|?]%elem_of_cons.
Qed.

Lemma dom_init_fold (N seeds : gset node) (l : list node)
    (doms : gmap node (gset node)) (todo : list node) :
  ∃ doms' todo',
    foldl (λ '(doms, todo) n,
             if decide (n ∉ seeds) then (<[n := N]> doms, n :: todo)
             else (doms, todo)) (doms, todo) l = (doms', todo') ∧
    (∀ k, doms' !! k =
       if decide (k ∈ l ∧ k ∉ seeds) then Some N else doms !! k) ∧
    (∀ x, x ∈ todo' → x ∈ todo ∨ x ∈ l) ∧
    length todo' ≤ length todo + length l.
Proof.
  revert doms todo. induction l as [|x l IH]; intros doms todo; simpl.
  { exists doms, todo. split; [done|]. split; [done|split; [auto|lia]]. }
  destruct (decide (x ∉ seeds)) as [Hx|Hx].
  - destruct (IH (<[x := N]> doms) (x :: todo))
      as (doms' & todo' & -> & Hd & Ht & Hl).
    exists doms', todo'. split; [done|]. split; [|split].
    + intros k. rewrite Hd. destruct (decide (k = x)) as [->|Hkx].
      * rewrite lookup_insert_eq.
        rewrite (decide_True (P := x ∈ x :: l ∧ x ∉ seeds));
          [by case_decide|]. split; [by left|done].
      * rewrite lookup_insert_ne by done.
        destruct (decide (k ∈ l ∧ k ∉ seeds)) as [[? ?]|Hn].
        -- rewrite decide_True; [done|]. split; [by right|done].
        -- rewrite decide_False; [done|].
           intros [[?|?]%elem_of_cons ?]; [done|]. by apply Hn.
    + intros y Hy. destruct (Ht y Hy) as [[->|?]%elem_of_cons|?].
      * right. by left.
      * by left.
      * right. by right.
    + simpl in Hl. lia.
  - destruct (IH doms todo) as (doms' & todo' & -> & Hd & Ht & Hl).
    exists doms', todo'. split; [done|]. split; [|split].
    + intros k. rewrite Hd.
      destruct (decide (k ∈ l ∧ k ∉ seeds)) as [[? ?]|Hn].
      * rewrite decide_True; [done|]. split; [by right|done].
      * rewrite decide_False; [done|].
        intros [[->|?]%elem_of_cons ?]; [done|]. by apply Hn.
    + intros y Hy. destruct (Ht y Hy) as [?|?]; [by left|right; by right].
    + lia.
Qed.

Lemma sum_list_with_le {A} (f : A → nat) (c : nat) (l : list A) :
  (∀ x, x ∈ l → f x ≤ c) → sum_list_with f l ≤ length l * c.
Proof.
  induction l as [|x l IH]; intros Hf; simpl; [lia|].
  specialize (Hf x (list_elem_of_here _ _)) as Hx.
  specialize (IH (λ y Hy, Hf y (list_elem_of_further _ _ _ Hy))). lia.
Qed.

(** ** Post-dominators *)

Lemma linked_refl d g : linked d ∅ g g.
Proof.
  split; [|split; [|split]]; try done.
  - intros s. rewrite decide_False by set_solver. set_solver.
  - intros t. case_decide; set_solver.
  - intros s t. rewrite decide_False; [done|]. set_solver.
Qed.

Lemma linked_add d W g g1 b :
  linked d W g g1 → linked d (W ∪ {[b]}) g (_add_edge b d None g1).
Proof.
  intros (Hs & Hp & Hd & Hn & He & Hdn).
  split; [|split; [|split]]; try done.
  - intros s. rewrite succs_of_add_edge, !Hs. clear.
    repeat case_decide; set_solver.
  - intros t. rewrite preds_of_add_edge, !Hp. clear.
    repeat case_decide; set_solver.
  - intros s t. simpl. rewrite lookup_insert, Hd. clear.
    repeat case_decide; try done; exfalso; set_solver.
Qed.

Lemma link_sink_linked d Ls g : ∃ W, linked d W g (link_sink d Ls g).
Proof.
  unfold link_sink.
  cut (∀ g1 W, linked d W g g1 →
         ∃ W', linked d W' g
           (foldl (λ g loop,
                     if decide (exits loop = ∅) then
                       foldl (λ g b, _add_edge b d None g) g
                         (node_iter (body loop))
                     else g) g1 Ls)).
  { intros Hc. apply (Hc g ∅), linked_refl. }
  induction Ls as [|L Ls IH]; intros g1 W Hl; simpl; [eauto|].
  destruct (decide (exits L = ∅)); [|eauto].
  cut (∀ l g1 W, linked d W g g1 →
         ∃ W', linked d W' g (foldl (λ g b, _add_edge b d None g) g1 l)).
  { intros Hc. destruct (Hc (node_iter (body L)) g1 W Hl) as [W' HW']. eauto. }
  clear. induction l as [|b l IH]; intros g1 W Hl; simpl; [eauto|].
  eapply IH. by apply linked_add.
Qed.

Lemma linked_consistent d W g g1 :
  consistent g → linked d W g g1 → consistent g1.
Proof.
  intros [Hsp Hsd] (Hs & Hp & Hd & _). split; intros s t.
  - rewrite Hs, Hp. specialize (Hsp s t). clear -Hsp.
    repeat case_decide; set_solver.
  - rewrite Hs, Hd. specialize (Hsd s t). clear -Hsd.
    repeat case_decide.
    + split; [eauto|]. set_solver.
    + rewrite elem_of_union, Hsd. split; [intros [?|?]; [done|]|auto].
      exfalso. set_solver.
    + split; [eauto|]. naive_solver.
    + rewrite elem_of_union, Hsd. split; [intros [?|?]; [done|]|auto].
      exfalso. set_solver.
Qed.

Lemma fresh_node g d :
  wf g → d ∉ _nodes g →
  (∀ s, d ∉ succs_of g s) ∧ succs_of g d = ∅ ∧
  (∀ t, d ∉ preds_of g t) ∧ preds_of g d = ∅ ∧
  (∀ s t, s = d ∨ t = d → _edge_data g !! (s, t) = None).
Proof.
  intros ([Hsp Hsd] & Hw & _) Hd.
  assert (∀ s t, s = d ∨ t = d → t ∉ succs_of g s) as Hno.
  { intros s t Hst Hin. destruct (Hw s t Hin). by destruct Hst as [->| ->]. }
  split; [intros s; apply Hno; by right|].
  split; [apply set_eq; intros t; split; [intros ?|by intros ?%elem_of_empty];
          exfalso; by apply (Hno d t); [left|]|].
  split; [intros t Hin; apply Hsp in Hin; revert Hin; apply Hno; by left|].
  split; [apply set_eq; intros s; split; [intros Hin|by intros ?%elem_of_empty];
          exfalso; apply Hsp in Hin; revert Hin; apply Hno; by right|].
  intros s t Hst. destruct (_edge_data g !! (s, t)) eqn:Heq; [|done].
  exfalso. apply (Hno s t Hst), Hsd. by rewrite Heq.
Qed.

Lemma unlink_sink g g1 g2 d W :
  wf g → d ∉ _nodes g →
  linked d W g g1 → restricted {[d]} g1 g2 → same_graph g g2.
Proof.
  intros Hwf Hd (Hs1 & Hp1 & Hd1 & Hn1 & He1 & Hdn1)
    (Hs2 & Hp2 & Hd2 & Hn2 & He2 & Hdn2).
  destruct (fresh_node g d Hwf Hd) as (Hfs & Hfsd & Hfp & Hfpd & Hfd).
  split; [congruence|]. split; [|split; [|split; [|split; congruence]]].
  - intros n. change (succs_of g2 n = succs_of g n).
    rewrite Hs2, Hs1. specialize (Hfs n). clear -Hfs Hfsd.
    repeat case_decide; set_solver.
  - intros n. change (preds_of g2 n = preds_of g n).
    rewrite Hp2, Hp1. specialize (Hfp n). clear -Hfp Hfpd.
    repeat case_decide; set_solver.
  - apply map_eq. intros [s t]. rewrite Hd2, Hd1.
    specialize (Hfd s t). clear -Hfd.
    repeat case_decide; try done;
      first [exfalso; set_solver|symmetry; apply Hfd; set_solver].
Qed.

(** * Properties under every iteration order of node sets *)

Section node_order.
Hypothesis node_iter_perm : enumerates node_iter.

(** ** Iteration over sets *)

Lemma node_iter_elem (s : gset node) x : x ∈ node_iter s ↔ x ∈ s.
Proof. by rewrite (node_iter_perm s), elem_of_elements. Qed.

Lemma node_iter_NoDup (s : gset node) : NoDup (node_iter s).
Proof. rewrite (node_iter_perm s). apply NoDup_elements. Qed.

Lemma node_iter_length (s : gset node) : length (node_iter s) = size s.
Proof. by rewrite (node_iter_perm s). Qed.

Lemma node_iter_empty : node_iter ∅ = [].
Proof.
  apply Permutation_nil_r. by rewrite (node_iter_perm ∅), elements_empty.
Qed.

(** ** Depth-first traversal *)

Lemma _dfs_spec g e :
  ∃ out, _dfs g [e] = Ok out ∧ NoDup out ∧ ∀ n, n ∈ out ↔ reachable g e n.
Proof.
  unfold _dfs.
  apply (loop_rule _ (dfs_inv g e)
           (λ st, length st.1.1 + dfs_pending g st.1.2)).
  - intros [[stack seen] out] (Hseen & Hnd & He & Hcl & Hr). simpl.
    destruct stack as [|n stack]; simpl.
    + split; [done|]. intros n. split.
      * intros Hn. apply Hr. left. rewrite Hseen. by apply elem_of_list_to_set.
      * intros Hn. apply (elem_of_list_to_set (C := gset node)).
        rewrite <-Hseen. apply (reachable_closed g e); [set_solver| |done].
        intros s t Hs Ht. destruct (Hcl s t Hs Ht); set_solver.
    + destruct (decide (n ∈ seen)) as [Hn|Hn]; simpl.
      * split; [|lia]. repeat split; try done.
        -- set_solver.
        -- intros s t Hs Ht. destruct (Hcl s t Hs Ht); set_solver.
        -- intros m Hm. apply Hr. set_solver.
      * rewrite foldl_cons. split.
        -- repeat split.
           ++ rewrite list_to_set_app_L. set_solver.
           ++ apply NoDup_app. repeat split; [done| |apply NoDup_singleton].
              intros x Hx ->%list_elem_of_singleton. apply Hn.
              rewrite Hseen. by apply elem_of_list_to_set.
           ++ set_solver.
           ++ intros s t [Hs| ->%elem_of_singleton]%elem_of_union Ht.
              ** destruct (Hcl s t Hs Ht) as [?|[->|?]%elem_of_cons];
                   set_solver.
              ** right. apply elem_of_app. left.
                 by apply elem_of_reverse, node_iter_elem.
           ++ intros m [[Hm| ->%elem_of_singleton]%elem_of_union
                       |[Hm%elem_of_reverse%node_iter_elem|Hm]%elem_of_app].
              ** apply Hr. by left.
              ** apply Hr. set_solver.
              ** eapply rtc_r; [apply Hr|apply Hm]. set_solver.
              ** apply Hr. set_solver.
        -- rewrite length_app, length_reverse, node_iter_length.
           pose proof (dfs_pending_add g seen n Hn). lia.
  - repeat split; try set_solver; [apply NoDup_nil_2|].
    intros n [Hn|Hn]; [set_solver|].
    apply list_elem_of_singleton in Hn as ->. apply rtc_refl.
  - simpl. unfold dfs_pending, edge_count. rewrite difference_empty_L. lia.
Qed.

(** ** Removal of the edges of a node *)

Ltac iter_elem :=
  repeat match goal with
  | H : context [_ ∈ node_iter _] |- _ => setoid_rewrite node_iter_elem in H
  end.

Ltac solve_cases := repeat case_decide; iter_elem; try done; try set_solver.


Lemma _remove_node_edges_spec d g :
  consistent g →
  ∃ g', _remove_node_edges d g = (g', Ok ()) ∧
    (∀ s, succs_of g' s =
       if decide (s = d) then ∅ else succs_of g s ∖ {[d]}) ∧
    (∀ t, preds_of g' t =
       if decide (t = d) then ∅ else preds_of g t ∖ {[d]}) ∧
    (∀ s t, _edge_data g' !! (s, t) =
       if decide (s = d ∨ t = d) then None else _edge_data g !! (s, t)) ∧
    _nodes g' = _nodes g ∧
    _entry_point g' = _entry_point g ∧
    _dead_nodes g' = _dead_nodes g.
Proof.
  intros [Hsp Hsd]. unfold _remove_node_edges.
  match goal with |- context [for_each ?b ?l ?g0] =>
    destruct (for_each_rule b (λ l1 gi,
      (∀ s, succs_of gi s = if decide (s = d) then ∅ else succs_of g s) ∧
      (∀ t, preds_of gi t =
         if decide (t ∈ l1) then preds_of g t ∖ {[d]} else preds_of g t) ∧
      (∀ s t, _edge_data gi !! (s, t) =
         if decide (s = d ∧ t ∈ l1) then None else _edge_data g !! (s, t)) ∧
      _nodes gi = _nodes g ∧ _entry_point gi = _entry_point g ∧
      _dead_nodes gi = _dead_nodes g) l g0)
      as (g1 & -> & Hs1 & Hp1 & Hd1 & Hn1 & He1 & Hdn1)
  end.
  { split; [|split; [|split]]; try done.
    - intros s. unfold succs_of; simpl. apply lookup_total_gset_delete.
    - intros s t; simpl. case_decide as Hc; [|done].
      destruct Hc as [_ []%elem_of_nil]. }
  { intros l1 x l2 gi Hl (Hs & Hp & Hd & Hn & He & Hdn).
    assert (x ∈ succs_of g d) as Hx.
    { apply node_iter_elem. rewrite Hl. set_solver. }
    assert (x ∉ l1) as Hx1.
    { pose proof (node_iter_NoDup (succs_of g d)) as Hnd. rewrite Hl in Hnd.
      apply NoDup_app in Hnd as (_ & Hnd & _). intros Hin.
      apply (Hnd x Hin). set_solver. }
    rewrite decide_True; last first.
    { rewrite Hp, decide_False by done. by apply Hsp. }
    simpl. rewrite Hd, decide_False by naive_solver.
    destruct (proj1 (Hsd d x) Hx) as [v ->]. eexists. split; [done|].
    split; [|split; [|split]]; try done.
    - intros t. unfold preds_of at 1; simpl.
      rewrite lookup_total_gset_insert. fold (preds_of gi t).
      rewrite !Hp. clear -Hx1. repeat case_decide; set_solver.
    - intros s t; simpl. rewrite lookup_delete, Hd.
      clear. repeat case_decide; set_solver. }
  assert (∀ t, preds_of g1 t = preds_of g t ∖ {[d]}) as Hp1'.
  { intros t. rewrite Hp1. pose proof (Hsp d t) as Ht.
    clear -Ht node_iter_perm. case_decide; iter_elem; set_solver. }
  assert (∀ s t, _edge_data g1 !! (s, t) =
            if decide (s = d) then None else _edge_data g !! (s, t)) as Hd1'.
  { intros s t. rewrite Hd1. pose proof (Hsd s t) as [_ Hst].
    clear -Hst node_iter_perm.
    repeat case_decide; iter_elem; try done; [naive_solver|].
    subst s. destruct (_edge_data g !! (d, t)); [|done].
    exfalso. naive_solver. }
  clear Hp1 Hd1. rewrite Hp1'.
  match goal with |- context [for_each ?b ?l ?g0] =>
    destruct (for_each_rule b (λ l1 gi,
      (∀ s, succs_of gi s =
         if decide (s = d) then ∅
         else if decide (s ∈ l1) then succs_of g s ∖ {[d]} else succs_of g s) ∧
      (∀ t, preds_of gi t =
         if decide (t = d) then ∅ else preds_of g t ∖ {[d]}) ∧
      (∀ s t, _edge_data gi !! (s, t) =
         if decide (s = d ∨ t = d ∧ s ∈ l1) then None
         else _edge_data g !! (s, t)) ∧
      _nodes gi = _nodes g ∧ _entry_point gi = _entry_point g ∧
      _dead_nodes gi = _dead_nodes g) l g0)
      as (g2 & -> & Hs2 & Hp2 & Hd2 & Hn2 & He2 & Hdn2)
  end.
  { split; [|split; [|split]]; try done.
    - intros t. unfold preds_of at 1; simpl.
      rewrite lookup_total_gset_delete. fold (preds_of g1 t). by rewrite Hp1'.
    - intros s t; simpl. rewrite Hd1'.
      clear. repeat case_decide; try done; exfalso; set_solver. }
  { intros l1 x l2 gi Hl (Hs & Hp & Hd & Hn & He & Hdn).
    assert (x ∈ preds_of g d ∖ {[d]}) as Hx.
    { apply node_iter_elem. rewrite Hl. set_solver. }
    assert (x ∉ l1) as Hx1.
    { pose proof (node_iter_NoDup (preds_of g d ∖ {[d]})) as Hnd.
      rewrite Hl in Hnd. apply NoDup_app in Hnd as (_ & Hnd & _).
      intros Hin. apply (Hnd x Hin). set_solver. }
    assert (x ≠ d ∧ d ∈ succs_of g x) as [Hxd Hdx].
    { pose proof (Hsp x d) as Hxd. clear -Hx Hxd. set_solver. }
    rewrite decide_True; last first.
    { rewrite Hs, decide_False, decide_False by done. done. }
    simpl. rewrite Hd, decide_False by naive_solver.
    destruct (proj1 (Hsd x d) Hdx) as [v ->]. eexists. split; [done|].
    split; [|split; [|split]]; try done.
    - intros s. unfold succs_of at 1; simpl.
      rewrite lookup_total_gset_insert. fold (succs_of gi s).
      rewrite !Hs. clear -Hx1 Hxd. repeat case_decide; set_solver.
    - intros s t; simpl. rewrite lookup_delete, Hd.
      clear -Hxd. repeat case_decide; set_solver. }
  exists g2. split; [done|]. split; [|split; [|split]]; try done.
  - intros s. rewrite Hs2. pose proof (Hsp s d) as Hsd'.
    clear -Hsd' node_iter_perm. repeat case_decide; iter_elem; set_solver.
  - intros s t. rewrite Hd2.
    pose proof (Hsp s d) as Hsp1. pose proof (Hsd s t) as [_ Hsd1].
    clear -Hsp1 Hsd1 node_iter_perm.
    repeat case_decide; iter_elem; try done; try (exfalso; naive_solver).
    destruct (_edge_data g !! (s, t)); [|done].
    exfalso. assert (t ∈ succs_of g s) as Hts by (apply Hsd1; eauto).
    clear Hsd1. destruct H1 as [->| ->]; [naive_solver|].
    apply H0. right. split; [done|]. apply elem_of_difference.
    split; [by apply Hsp1|]. rewrite elem_of_singleton. naive_solver.
Qed.

Lemma _remove_node_edges_restricted d g :
  consistent g →
  ∃ g', _remove_node_edges d g = (g', Ok ()) ∧ restricted {[d]} g g'.
Proof.
  intros Hc.
  destruct (_remove_node_edges_spec d g Hc)
    as (g' & Heq & Hs & Hp & Hd & Hn & He & Hdn).
  exists g'. split; [done|].
  split; [|split; [|split]]; try done.
  - intros s. rewrite Hs. clear. repeat case_decide; set_solver.
  - intros t. rewrite Hp. clear. repeat case_decide; set_solver.
  - intros s t. rewrite Hd. clear.
    repeat case_decide; try done; exfalso; set_solver.
Qed.

Lemma remove_all_restricted (l : list node) g :
  consistent g →
  ∃ g', for_each _remove_node_edges l g = (g', Ok ()) ∧
    restricted (list_to_set l) g g'.
Proof.
  intros Hc.
  apply (for_each_rule _ (λ l1 gi, restricted (list_to_set l1) g gi)).
  - apply restricted_empty.
  - intros l1 x l2 gi _ Hr.
    destruct (_remove_node_edges_restricted x gi) as (g' & Heq & Hr').
    { by eapply restricted_consistent. }
    exists g'. split; [done|].
    rewrite list_to_set_app_L. simpl. rewrite union_empty_r_L.
    by eapply restricted_trans.
Qed.

(** ** [process] *)

Lemma process_spec g e :
  wf g → _entry_point g = Some e →
  ∃ g', process g = (g', Ok ()) ∧
    (∀ n, n ∈ _nodes g' ↔ reachable g e n) ∧
    _nodes g' ⊆ _nodes g ∧
    _dead_nodes g' = Some (_nodes g ∖ _nodes g') ∧
    _entry_point g' = Some e ∧
    restricted (_nodes g ∖ _nodes g')
      (with_nodes (_nodes g') (with_dead_nodes (_dead_nodes g') g)) g'.
Proof.
  intros (Hc & Hn & He) Hentry. unfold process, _eliminate_dead_blocks.
  rewrite Hentry. destruct (_dfs_spec g e) as (out & -> & Hnd & Hout).
  rewrite foldl_union_singleton, union_empty_l_L.
  set (live := list_to_set out : gset node).
  assert (∀ n, n ∈ live ↔ reachable g e n) as Hlive.
  { intros n. unfold live. by rewrite elem_of_list_to_set. }
  assert (live ⊆ _nodes g) as Hsub.
  { intros n Hr%Hlive. apply (reachable_closed g e); [by apply He| |done].
    intros s t _ Hst. by destruct (Hn s t Hst). }
  set (g1 := with_nodes live (with_dead_nodes (Some (_nodes g ∖ live)) g)).
  destruct (remove_all_restricted (node_iter (_nodes g ∖ live)) g1)
    as (g' & -> & Hs & Hp & Hd & Hn' & He' & Hdn').
  { done. }
  assert (list_to_set (node_iter (_nodes g ∖ live)) = _nodes g ∖ live) as Hl.
  { apply set_eq. intros x. by rewrite elem_of_list_to_set, node_iter_elem. }
  rewrite Hl in Hs, Hp, Hd. simpl in Hn', He', Hdn'.
  exists g'. rewrite Hn'. repeat split; try done.
  - by apply Hlive.
  - by apply Hlive.
  - congruence.
Qed.

Lemma process_frozen g g' :
  wf g → process g = (g', Ok ()) → frozen g'.
Proof.
  intros Hwf Hp. destruct (_entry_point g) as [e|] eqn:Hentry; last first.
  { unfold process in Hp. by rewrite Hentry in Hp. }
  destruct (process_spec g e Hwf Hentry)
    as (g'' & Hp' & Hlive & Hsub & Hdead & He & Hr).
  rewrite Hp in Hp'. injection Hp' as <-.
  destruct Hwf as (Hc & Hn & _).
  assert (consistent g') as Hc'.
  { eapply restricted_consistent; [|exact Hr]. exact Hc. }
  destruct Hr as (Hs & _).
  change (∀ s, succs_of g' s =
            if decide (s ∈ _nodes g ∖ _nodes g') then ∅
            else succs_of g s ∖ (_nodes g ∖ _nodes g')) in Hs.
  assert (∀ s t, s ∈ _nodes g' → t ∈ _nodes g' →
            t ∈ succs_of g s → t ∈ succs_of g' s) as Hkeep.
  { intros s t Hs' Ht' Hst. rewrite Hs. clear -Hs' Ht' Hst.
    case_decide; set_solver. }
  split; [split; [done|split]|].
  - intros s t. rewrite Hs. intros Hst.
    assert ((s ∉ _nodes g ∖ _nodes g') ∧ t ∈ succs_of g s ∧
            (t ∉ _nodes g ∖ _nodes g')) as (Hs' & Hst' & Ht').
    { clear -Hst. case_decide; set_solver. }
    destruct (Hn s t Hst'). clear -Hs' Ht' H0 H1.
    split; apply dec_stable; set_solver.
  - intros e' He'. rewrite He in He'. injection He' as <-.
    apply Hlive, rtc_refl.
  - exists e. split; [done|]. intros n Hn'%Hlive. revert n Hn'.
    apply (rtc_ind_r (λ n, reachable g' e n)); [apply rtc_refl|].
    intros y z Hy Hyz IH. eapply rtc_r; [done|].
    apply Hkeep; [by apply Hlive| |done].
    apply Hlive. by eapply rtc_r.
Qed.

(** C1.  For a graph built through the construction interface and with
    entry point [e], [process] succeeds; afterwards the live nodes are
    exactly the nodes reachable from [e] along successor edges, the dead
    nodes and the live nodes are disjoint and together are the nodes that
    were added, and no edge leaving or entering a dead node is left in the
    successor table, the predecessor table or the payload table. *)
Theorem process_eliminates_dead_blocks (g : CFGraph node data) (e : node) :
  wf g → _entry_point g = Some e →
  ∃ g' dead,
    process g = (g', Ok ()) ∧ dead_nodes g' = Ok dead ∧
    (∀ n, n ∈ nodes g' ↔ reachable g e n) ∧
    dead ## nodes g' ∧
    dead ∪ nodes g' = _nodes g ∧
    (∀ d n, d ∈ dead →
       (d ∉ succs_of g' n) ∧ (n ∉ succs_of g' d) ∧
       (d ∉ preds_of g' n) ∧ (n ∉ preds_of g' d) ∧
       _edge_data g' !! (d, n) = None ∧ _edge_data g' !! (n, d) = None).
Proof.
  intros Hwf Hentry.
  destruct (process_spec g e Hwf Hentry)
    as (g' & Hp & Hlive & Hsub & Hdead & He & Hs & Hpr & Hd & _).
  exists g', (_nodes g ∖ _nodes g'). unfold dead_nodes, nodes.
  rewrite Hdead. repeat split; try done.
  - by apply Hlive.
  - by apply Hlive.
  - set_solver.
  - apply set_eq. intros x. rewrite elem_of_union, elem_of_difference.
    destruct (decide (x ∈ _nodes g')); set_solver.
  - rewrite Hs. clear -H0. case_decide; set_solver.
  - rewrite Hs. rewrite decide_True by done. set_solver.
  - rewrite Hpr. clear -H0. case_decide; set_solver.
  - rewrite Hpr. rewrite decide_True by done. set_solver.
  - rewrite Hd. rewrite decide_True by auto. done.
  - rewrite Hd. rewrite decide_True by auto. done.
Qed.

(** ** Back edges *)

Lemma be_step_push g e tos rest m ck be cur more :
  wf g →
  be_inv g e (mkBE (tos :: rest) m ck be) → m !! tos = Some (cur :: more) →
  cur ∉ tos :: rest → cur ∉ ck →
  let st' := push_state g cur (mkBE (tos :: rest) (<[tos := more]> m) ck be) in
  be_inv g e st' ∧ be_measure g st' < be_measure g (mkBE (tos :: rest) m ck be).
Proof.
  intros (_ & Hwf & _) (Hnd & Hst & Hreach & Hpend & Hcl & He & Hbe & Htl)
    Hm Hcs Hcc st'.
  pose proof (λ x, be_pend_push g tos rest m ck be cur more x Hm Hcs Hcc)
    as Hpe. fold st' in Hpe. simpl in *.
  pose proof (be_pend_tos g tos rest m ck be _ Hm) as Htos.
  destruct (Hpend tos) as [Hndl Hsub]. rewrite Htos in Hndl, Hsub.
  apply NoDup_cons in Hndl as [Hcm Hndm].
  assert (cur ≠ tos) as Hne by set_solver.
  assert (be_pend g (mkBE (tos :: rest) m ck be) cur
          = node_iter (succs_of g cur)) as Hpc.
  { unfold be_pend; simpl. by rewrite decide_False, decide_False. }
  assert (∀ s t, t ∉ be_pend g (mkBE (tos :: rest) m ck be) s →
                 t ∉ be_pend g st' s) as Hshrink.
  { intros s t Ht. rewrite Hpe. repeat case_decide; subst; try done.
    - rewrite Hpc in Ht. by rewrite elem_of_reverse.
    - rewrite Htos in Ht. set_solver. }
  assert (∀ s t, be_tree g (mkBE (tos :: rest) m ck be) s t →
            be_tree g st' s t) as Htree.
  { intros s t (Hst' & Hnb & Hnp). split; [done|].
    split; [done|by apply Hshrink]. }
  assert (cur ∈ succs_of g tos) as Hct by (apply Hsub; set_solver).
  assert (be_tree g st' tos cur) as Htc.
  { split; [done|]. split.
    - simpl. intros Hin. destruct (Hbe _ _ Hin) as (_ & Hn & _).
      apply Hn. rewrite Htos. set_solver.
    - by rewrite Hpe, decide_False, decide_True. }
  split.
  - split; [apply NoDup_cons; by split|]. simpl.
    split; [|split; [|split; [|split; [|split; [|split]]]]].
    + intros x [->|Hx]%elem_of_cons.
      * split; [done|]. rewrite lookup_insert_eq. eauto.
      * destruct (Hst x Hx) as [Hxc Hxs]. split; [done|].
        rewrite lookup_insert_ne by set_solver.
        destruct (decide (x = tos)) as [->|].
        -- rewrite lookup_insert_eq. eauto.
        -- by rewrite lookup_insert_ne.
    + intros x Hx.
      assert (x = cur ∨ (x ∈ tos :: rest ∨ x ∈ ck)) as [->|Hx'] by set_solver.
      * split; [by destruct (Hwf tos cur Hct)|].
        eapply rtc_r; [|exact Htc].
        destruct (Hreach tos) as [_ Hr]; [set_solver|].
        eapply rtc_subrel; [|exact Hr]. done.
      * destruct (Hreach x Hx') as [? Hr].
        split; [done|]. eapply rtc_subrel; [|exact Hr]. done.
    + intros x. rewrite Hpe. case_decide as Hx; [|case_decide as Hx'].
      * subst x. split; [rewrite reverse_Permutation; apply node_iter_NoDup|].
        intros t Ht. by apply elem_of_reverse, node_iter_elem in Ht.
      * subst x. split; [done|]. intros t Ht. apply Hsub. set_solver.
      * apply Hpend.
    + intros x t Hx Ht. rewrite Hpe. case_decide as Hx1.
      { left. subst x. by apply elem_of_reverse, node_iter_elem. }
      assert (x ∈ tos :: rest ∨ x ∈ ck) as Hx' by set_solver.
      destruct (Hcl x t Hx' Ht) as [Hp|[?|?]]; [|auto|set_solver].
      case_decide as Hx2; [|auto]. subst x. rewrite Htos in Hp.
      apply elem_of_cons in Hp as [->|?]; [|auto]. set_solver.
    + set_solver.
    + intros s t Hin. destruct (Hbe s t Hin) as (? & ? & ?). auto.
    + intros x [->|Hx]%elem_of_cons; [set_solver|by apply Htl].
  - unfold be_measure; simpl.
    rewrite !Hpe, decide_True, (decide_False (P := tos = cur)),
      decide_True by done.
    apply NoDup_cons in Hnd as [Hnt _].
    rewrite (sum_list_with_ext_in
               (λ x, S (length (be_pend g st' x)))
               (λ x, S (length (be_pend g
                  (mkBE (tos :: rest) m ck be) x))) rest); last first.
    { intros x Hx. simpl.
      rewrite Hpe, decide_False, decide_False by set_solver. done. }
    rewrite Htos, length_reverse, node_iter_length. simpl.
    rewrite (node_weight_remove g (_ ∖ ({[tos]} ∪ list_to_set rest ∪ ck)) cur).
    2:{ destruct (Hwf tos cur Hct). set_solver. }
    replace (_nodes g ∖ ({[cur]} ∪ ({[tos]} ∪ list_to_set rest) ∪ ck))
      with (_nodes g ∖ ({[tos]} ∪ list_to_set rest ∪ ck) ∖ {[cur]})
      by set_solver.
    lia.
Qed.

Lemma be_inv_init g e :
  e ∈ _nodes g →
  let st := push_state g e (mkBE [] ∅ ∅ ∅) in
  be_inv g e st ∧ be_measure g st = node_weight g (_nodes g).
Proof.
  intros He st.
  assert (∀ x, be_pend g st x =
            if decide (x = e) then reverse (node_iter (succs_of g e))
            else node_iter (succs_of g x)) as Hpe.
  { intros x. unfold be_pend, st, push_state; simpl.
    destruct (decide (x = e)) as [->|Hx].
    - rewrite decide_True, lookup_insert_eq by set_solver. simpl.
      by rewrite foldl_cons, app_nil_r.
    - by rewrite decide_False, decide_False by set_solver. }
  split.
  - split; [apply NoDup_singleton|]. simpl.
    split; [|split; [|split; [|split; [|split; [|split]]]]].
    + intros x ->%list_elem_of_singleton. split; [set_solver|].
      rewrite lookup_insert_eq. eauto.
    + intros x [->%list_elem_of_singleton|Hx]; [|set_solver].
      split; [done|apply rtc_refl].
    + intros x. rewrite Hpe. case_decide.
      * subst x. split; [rewrite reverse_Permutation; apply node_iter_NoDup|].
        intros t Ht. by apply elem_of_reverse, node_iter_elem in Ht.
      * split; [apply node_iter_NoDup|]. intros t. apply node_iter_elem.
    + intros x t [->%list_elem_of_singleton|Hx] Ht; [|set_solver].
      left. rewrite Hpe, decide_True by done.
      by apply elem_of_reverse, node_iter_elem.
    + left. set_solver.
    + set_solver.
    + set_solver.
  - unfold be_measure; simpl. rewrite Hpe, decide_True by done.
    rewrite length_reverse, node_iter_length.
    rewrite (node_weight_remove g (_nodes g) e He).
    replace (_nodes g ∖ ({[e]} ∪ ∅ ∪ ∅)) with (_nodes g ∖ {[e]}) by set_solver.
    lia.
Qed.

Lemma _find_back_edges_spec g :
  frozen g →
  ∃ e back_edges,
    _entry_point g = Some e ∧ _find_back_edges g = Ok back_edges ∧
    be_post g e back_edges.
Proof.
  intros (Hwf & e & Hentry & Hreach). exists e.
  cut (∃ back_edges, _find_back_edges g = Ok back_edges ∧ be_post g e back_edges).
  { intros (be & ? & ?). eauto. }
  unfold _find_back_edges, entry_point. rewrite Hentry.
  unfold mbind, res_bind. cbv beta iota.
  assert (e ∈ _nodes g) as He by (by apply Hwf).
  destruct (be_inv_init g e He) as [Hinit Hmeas].
  apply (loop_rule _ (be_inv g e) (be_measure g)); [|done|lia].
  intros [stack m ck be] Hinv. unfold _find_back_edges_step; simpl.
  destruct stack as [|tos rest].
  - destruct Hinv as (_ & _ & Hr & Hpend & Hcl & He' & Hbe & _). simpl in *.
    assert (∀ x, x ∈ ck → be_pend g (mkBE [] m ck be) x = []) as Hpe.
    { intros x Hx. unfold be_pend; simpl.
      destruct (decide (x ∈ [])) as [Hn|_]; [by apply elem_of_nil in Hn|].
      by rewrite decide_True. }
    split.
    + intros n Hn. assert (n ∈ ck) as Hck.
      { apply (reachable_closed g e); [| |by apply Hreach].
        - destruct He' as [[]%elem_of_nil|?]; done.
        - intros s t Hs Ht.
          destruct (Hcl s t) as [Hp|[?|[]%elem_of_nil]]; [auto|done| |done].
          rewrite Hpe in Hp by done. by apply elem_of_nil in Hp. }
      destruct (Hr n) as [_ Hrn]; [auto|].
      eapply rtc_subrel; [|exact Hrn]. by intros s t (? & ? & _).
    + intros s t Hin. destruct (Hbe s t Hin) as (? & _ & ?). done.
  - destruct Hinv as (Hnd & Hst & Hrest). destruct (Hst tos) as [_ [l Hl]].
    { apply elem_of_cons; auto. }
    simpl in Hl. rewrite Hl. destruct l as [|cur more].
    + apply be_step_pop; [|done]. by split.
    + simpl. destruct (decide (cur ∈ tos :: rest)) as [Hcs|Hcs].
      * apply (be_step_next g e tos rest m ck be cur more); [by split|done|auto].
      * destruct (decide (cur ∉ ck)) as [Hcc|Hcc].
        -- apply (be_step_push g e tos rest m ck be cur more);
             [done|by split|done..].
        -- apply dec_stable in Hcc.
           apply (be_step_next g e tos rest m ck be cur more);
             [by split|done|auto].
Qed.

(** ** Topological order *)

Section recursion.
Context {limit : recursion_limit}.

(** A call of [_dfs_rec] returns, or it raises [RecursionError], and
    this only when no more depth is left than nodes are unseen. *)
Lemma _dfs_rec_cases g be depth n seen post :
  wf g → n ∈ _nodes g → seen ⊆ _nodes g →
  match _dfs_rec g be depth n (seen, post) with
  | Ok st' => n ∈ st'.1 ∧ dfs_rec_post g be seen post st'
  | Raise e => e = RecursionError ∧ depth ≤ size (_nodes g ∖ seen)
  | OutOfFuel => False
  end.
Proof.
  intros Hwf. revert n seen post.
  induction depth as [|depth IH]; intros n seen post Hn Hseen; simpl.
  { split; [done|lia]. }
  destruct (decide (n ∈ seen)) as [Hin|Hin].
  { split; [done|]. split; [done|]. split; [done|]. split; [done|].
    exists []. rewrite app_nil_r. split; [done|]. split; [apply NoDup_nil_2|].
    intros x. rewrite elem_of_nil. simpl. naive_solver. }
  assert (size (_nodes g ∖ (seen ∪ {[n]})) < size (_nodes g ∖ seen)) as Hlt.
  { apply subset_size. clear -Hn Hin. set_solver. }
  match goal with |- context [fold_res ?b ?a ?l] =>
    pose proof (fold_res_cases b
      (λ l1 st, dfs_rec_post g be (seen ∪ {[n]}) post st ∧
                ∀ d, d ∈ l1 → (n, d) ∉ be → d ∈ st.1)
      (λ e, e = RecursionError ∧ S depth ≤ size (_nodes g ∖ seen)) l a)
      as Hfold
  end.
  lapply Hfold; clear Hfold; [intros Hfold; lapply Hfold; clear Hfold|].
  - intros Hfold. destruct (fold_res _ _ _) as [[sf pf]|e|]; simpl; [|done..].
    destruct Hfold as [Hpost Hdone].
    destruct Hpost as (Hs & Hn' & Hc & new & Hp & Hnd & He). simpl in *.
    split; [clear -Hs; set_solver|].
    split; [clear -Hs; set_solver|]. split; [done|]. split.
    + intros u t Hu Hu0 Hut. destruct (decide (u = n)) as [->|Hun].
      * destruct Hut as [Ht Hnb]. apply Hdone; [|done]. by apply node_iter_elem.
      * apply (Hc u t); [done| |done]. clear -Hu0 Hun. set_solver.
    + exists (new ++ [n]). rewrite Hp, app_assoc. split; [done|]. split.
      * apply NoDup_app. split; [done|]. split; [|apply NoDup_singleton].
        intros x Hx ->%list_elem_of_singleton. apply He in Hx as [_ Hx].
        clear -Hx. set_solver.
      * intros x. rewrite elem_of_app, He, list_elem_of_singleton.
        clear -Hs Hin. destruct (decide (x = n)); set_solver.
  - intros l1 dest l2 [si pi] Hl [Hpost Hdone].
    assert (dest ∈ succs_of g n) as Hdest.
    { apply node_iter_elem. rewrite Hl. apply elem_of_app. right.
      apply elem_of_cons. by left. }
    destruct (decide ((n, dest) ∈ be)) as [Hbe|Hbe].
    + split; [done|].
      intros d [Hd| ->%list_elem_of_singleton]%elem_of_app Hnb; [auto|done].
    + assert (dest ∈ _nodes g) as Hdn.
      { destruct Hwf as (_ & Hw & _). by destruct (Hw n dest Hdest). }
      assert (si ⊆ _nodes g) as Hsi by (by destruct Hpost as (_ & ? & _)).
      specialize (IH dest si pi Hdn Hsi).
      destruct (_dfs_rec g be depth dest (si, pi)) as [st'|e|]; [| |done].
      * destruct IH as [Hd' Hpost']. split.
        -- by eapply dfs_rec_post_trans.
        -- intros d [Hd| ->%list_elem_of_singleton]%elem_of_app Hnb; [|done].
           destruct Hpost' as (Hsub' & _). apply Hsub'. simpl. auto.
      * destruct IH as [-> Hle]. split; [done|].
        destruct Hpost as (Hsub & _). simpl in Hsub.
        assert (size (_nodes g ∖ si) ≤ size (_nodes g ∖ (seen ∪ {[n]}))).
        { apply subseteq_size. clear -Hsub. set_solver. }
        lia.
  - split; [|by intros d []%elem_of_nil].
    split; [done|]. split; [clear -Hn Hseen; set_solver|]. split; [done|].
    exists []. rewrite app_nil_r. split; [done|]. split; [apply NoDup_nil_2|].
    intros x. rewrite elem_of_nil. simpl. naive_solver.
Qed.

(** [_find_topo_order] on a processed graph returns every live node
    once, or it raises [RecursionError], and this only when the
    interpreter allows no more nested calls than the graph has live
    nodes. *)
Lemma _find_topo_order_cases g :
  frozen g →
  match _find_topo_order g with
  | Ok order => NoDup order ∧ ∀ n, n ∈ order ↔ n ∈ _nodes g
  | Raise e => e = RecursionError ∧ max_depth ≤ size (_nodes g)
  | OutOfFuel => False
  end.
Proof.
  intros Hfr. destruct (_find_back_edges_spec g Hfr)
    as (e & be & Hentry & Hbe & Hreach & _).
  destruct Hfr as (Hwf & _). unfold _find_topo_order. rewrite Hbe, Hentry.
  unfold mbind at 1, res_bind at 1. cbv beta iota.
  pose proof (_dfs_rec_cases g be max_depth e ∅ [] Hwf) as Hrec.
  lapply Hrec; clear Hrec; [intros Hrec; lapply Hrec; clear Hrec|].
  - intros Hrec.
    destruct (_dfs_rec g be max_depth e (∅, [])) as [[sf pf]|x|]; simpl;
      [| |done].
    + destruct Hrec as (He & _ & Hsub & Hcl & new & Hp & Hnd & Hel).
      simpl in *. subst pf.
      split; [by rewrite reverse_Permutation|].
      intros n. rewrite elem_of_reverse, Hel. split; [intros [? _]; auto|].
      intros Hn. split; [|set_solver].
      apply (rtc_closed (forward_edge g be) (λ x, x ∈ sf) e); [done| |auto].
      intros s t Hs Hst. apply (Hcl s t); [done|set_solver|done].
    + destruct Hrec as [-> Hle]. split; [done|].
      by rewrite difference_empty_L in Hle.
  - set_solver.
  - destruct Hwf as (_ & _ & Hw). by apply Hw.
Qed.

Lemma _find_topo_order_spec g :
  frozen g → size (_nodes g) < max_depth →
  ∃ order, _find_topo_order g = Ok order ∧ NoDup order ∧
    ∀ n, n ∈ order ↔ n ∈ _nodes g.
Proof.
  intros Hfr Hlt. pose proof (_find_topo_order_cases g Hfr) as Hc.
  destruct (_find_topo_order g) as [order|e|]; [|destruct Hc; lia|done].
  by exists order.
Qed.


(** C7.  On a processed graph, whenever [topo_order] returns a sequence
    [order], for every set [ns] of nodes [topo_sort] with [reverse=True]
    yields the members of [ns] in [order], reversed, and with
    [reverse=False] the members of [ns] in [order]; what it yields is a
    subsequence of [order].  And [topo_order] returns when the graph has
    fewer live nodes than the interpreter allows nested calls. *)
Theorem topo_sort_filters_topo_order (g0 g : CFGraph node data) (ns : gset node) :
  wf g0 → process g0 = (g, Ok ()) →
  (size (nodes g) < max_depth → ∃ order, topo_order g = Ok order) ∧
  ∀ order, topo_order g = Ok order →
    topo_sort g ns true = Ok (reverse (filter (λ n, n ∈ ns) order)) ∧
    topo_sort g ns false = Ok (filter (λ n, n ∈ ns) order) ∧
    filter (λ n, n ∈ ns) order `sublist_of` order.
Proof.
  intros Hwf Hp. pose proof (process_frozen g0 g Hwf Hp) as Hfr. split.
  - intros Hlt.
    destruct (_find_topo_order_spec g Hfr Hlt) as (order & Ho & _).
    by exists order.
  - intros order Ho. unfold topo_sort. rewrite Ho. simpl.
    split; [by rewrite filter_reverse|].
    split; [done|]. apply sublist_filter.
Qed.

End recursion.

(** ** Loops *)

Lemma _find_loops_body_spec g src h :
  wf g → src ∈ _nodes g → h ∈ _nodes g →
  succs_of g src ≠ ∅ → succs_of g h ≠ ∅ →
  ∃ B, loop (S (S (pred_count g))) (_find_loops_body_step g) ({[h]}, [src])
       = Ok B ∧ h ∈ B ∧ body_ok g B.
Proof.
  intros ([Hsp _] & Hw & _) Hsrc Hh Hss Hsh.
  apply (loop_rule _
    (λ st, h ∈ st.1 ∧ ∀ x, x ∈ st.1 ∨ x ∈ st.2 →
                           x ∈ _nodes g ∧ succs_of g x ≠ ∅)
    (λ st, length st.2 + preds_pending g st.1)).
  - intros [B queue] [HhB Hok]. simpl in *.
    destruct queue as [|n queue].
    + split; [done|]. split.
      * intros x Hx. by destruct (Hok x (or_introl Hx)).
      * intros x Hx. by destruct (Hok x (or_introl Hx)).
    + destruct (decide (n ∉ B)) as [Hn|Hn]; simpl.
      * rewrite foldl_cons. split.
        -- split; [set_solver|]. intros x Hx.
           assert (x ∈ B ∨ x ∈ n :: queue ∨ x ∈ preds_of g n) as Hx'.
           { rewrite elem_of_app, elem_of_reverse, node_iter_elem in Hx.
             clear -Hx. set_solver. }
           destruct Hx' as [?|[?|Hp]]; [auto..|].
           apply Hsp in Hp. destruct (Hw x n Hp). split; [done|].
           clear -Hp. set_solver.
        -- rewrite length_app, length_reverse, node_iter_length.
           pose proof (preds_pending_add g B n Hn). lia.
      * split; [|lia]. split; [done|]. intros x Hx. apply Hok.
        clear -Hx. set_solver.
  - simpl. split; [set_solver|].
    intros x [->%elem_of_singleton| ->%list_elem_of_singleton]; done.
  - simpl. pose proof (preds_pending_le g {[h]}). lia.
Qed.

(** ** Loops of a node *)

Lemma in_loops_fold (N : gset node) (Ls : list (Loop node))
    (T0 : gmap node (list node)) :
  (∀ L, L ∈ Ls → body L ⊆ N) →
  (∀ n, T0 !! n = if decide (n ∈ N) then Some [] else None) →
  ∃ T,
    fold_res (λ in_loops loop,
        fold_res (λ in_loops n,
            l ← getitem (in_loops !! n);
            Ok (<[n := l ++ [header loop]]> in_loops))
          in_loops (node_iter (body loop))) T0 Ls = Ok T ∧
    ∀ n, T !! n = if decide (n ∈ N)
                  then Some (header <$> filter (λ L, n ∈ body L) Ls)
                  else None.
Proof.
  intros Hsub HT0.
  apply (fold_res_rule _ (λ l1 T, ∀ n, T !! n =
           if decide (n ∈ N)
           then Some (header <$> filter (λ L, n ∈ body L) l1) else None)).
  { done. }
  intros l1 L l2 T Hl HT.
  assert (body L ⊆ N) as HL.
  { apply Hsub. rewrite Hl. apply elem_of_app. right. by left. }
  match goal with |- context [fold_res ?b ?a ?l] =>
    destruct (fold_res_rule b (λ d T', ∀ n, T' !! n =
      if decide (n ∈ N)
      then Some ((header <$> filter (λ L, n ∈ body L) l1) ++
                 if decide (n ∈ d) then [header L] else [])
      else None) l a) as (T' & -> & HT')
  end.
  - intros n. rewrite HT. case_decide; [|done].
    rewrite (decide_False (P := n ∈ [])) by apply not_elem_of_nil.
    by rewrite app_nil_r.
  - intros d1 x d2 Ti Hd HTi.
    assert (x ∈ N) as Hx.
    { apply HL, node_iter_elem. rewrite Hd. apply elem_of_app. right. by left. }
    assert (x ∉ d1) as Hx1.
    { pose proof (node_iter_NoDup (body L)) as Hnd. rewrite Hd in Hnd.
      apply NoDup_app in Hnd as (_ & Hnd & _). intros Hin.
      apply (Hnd x Hin). by left. }
    rewrite HTi, decide_True by done. simpl. eexists. split; [done|].
    intros n. destruct (decide (n = x)) as [->|Hne].
    + rewrite lookup_insert_eq, (decide_True (P := x ∈ N)) by done.
      rewrite (decide_False (P := x ∈ d1)) by done.
      rewrite (decide_True (P := x ∈ d1 ++ [x])); [by rewrite app_nil_r|].
      apply elem_of_app. right. by left.
    + rewrite lookup_insert_ne, HTi by done. case_decide; [|done].
      do 2 f_equal. destruct (decide (n ∈ d1)).
      * rewrite decide_True; [done|]. apply elem_of_app. by left.
      * rewrite decide_False; [done|].
        intros [?| ?%list_elem_of_singleton]%elem_of_app; done.
  - exists T'. split; [done|]. intros n. rewrite HT'. case_decide; [|done].
    f_equal. rewrite filter_app, fmap_app. f_equal.
    rewrite filter_cons, filter_nil.
    destruct (decide (n ∈ body L)).
    + rewrite decide_True; [done|]. by apply node_iter_elem.
    + rewrite decide_False; [done|]. by rewrite node_iter_elem.
Qed.

(** ** Dominators *)

Lemma new_doms_spec (doms : gmap node (gset node)) (preds : gset node) n :
  preds ≠ ∅ → (∀ p, p ∈ preds → is_Some (doms !! p)) →
  ∃ R, (ds ← map_res (λ p, getitem (doms !! p)) (node_iter preds);
        r ← reduce (λ a b, Ok (a ∩ b)) ds;
        Ok ({[n]} ∪ r)) = Ok R ∧
    ∀ x, x ∈ R ↔
      x = n ∨ ∀ p Dp, p ∈ preds → doms !! p = Some Dp → x ∈ Dp.
Proof.
  intros Hne Hdef.
  destruct (map_res_getitem doms (node_iter preds)) as (ds & -> & Hds).
  { intros p Hp. by apply Hdef, node_iter_elem. }
  simpl. remember (node_iter preds) as lp eqn:H0.
  destruct Hds as [|p D l ds' HpD Hds]; simpl.
  { exfalso. apply Hne. apply set_eq. intros x.
    rewrite <-node_iter_elem, <-H0. set_solver. }
  destruct (fold_inter ds' D) as (R & -> & HR). simpl.
  exists ({[n]} ∪ R). split; [done|]. intros x.
  rewrite elem_of_union, elem_of_singleton, HR.
  assert (∀ q, q ∈ preds ↔ q = p ∨ q ∈ l) as Hq.
  { intros q. by rewrite <-node_iter_elem, <-H0, elem_of_cons. }
  split; (intros [?|Hx]; [by left|right]).
  - intros q Dq [->|Hql]%Hq Hlookup; [by destruct Hx; congruence|].
    destruct Hx as [_ Hx].
    clear -Hds Hx Hql Hlookup. induction Hds as [|q' D' l ds' Hq' Hds IH];
      [by apply elem_of_nil in Hql|].
    apply Forall_cons in Hx as [Hx1 Hx2].
    apply elem_of_cons in Hql as [->|Hql]; [congruence|auto].
  - split; [apply (Hx p D); [apply Hq; by left|done]|].
    assert (∀ q Dq, q ∈ l → doms !! q = Some Dq → x ∈ Dq) as Hx'.
    { intros q Dq Hql. apply Hx, Hq. by right. }
    clear -Hds Hx'. induction Hds as [|q' D' l ds' Hq' Hds IH]; [constructor|].
    constructor; [apply (Hx' q'); [by left|done]|].
    apply IH. intros q Dq Hql. apply Hx'. by right.
Qed.

Lemma dom_step_ok (N seeds : gset node) (pt st : node → gset node) s :
  (∀ n p, n ∈ N → n ∉ seeds → p ∈ pt n → p ∈ N ∨ p ∈ seeds) →
  (∀ n, n ∈ N → n ∉ seeds → st n ⊆ N) →
  dom_inv N seeds pt s →
  match _find_dominators_internal_step seeds pt st s with
  | Ok (inl s') =>
      dom_inv N seeds pt s' ∧ dom_measure N seeds s' < dom_measure N seeds s
  | Ok (inr doms) => dom_post N seeds doms
  | _ => False
  end.
Proof.
  intros A1 A3. destruct s as [doms todo].
  intros (Hkeys & Hseeds & Hdoms & Htodo). simpl in *.
  destruct todo as [|n todo].
  { split; [done|]. split; [done|]. intros n Hn.
    destruct (Hdoms n Hn) as (D & ? & ? & ? & _). eauto. }
  destruct (decide (n ∈ seeds)) as [Hns|Hns].
  { split; [|unfold dom_measure; simpl; lia].
    split; [done|]. split; [done|]. split; [done|].
    intros m Hm. apply Htodo. by right. }
  assert (n ∈ N) as HnN by (apply Htodo; by left).
  destruct (Hdoms n HnN) as (D & HD & HnD & HDN & HF).
  assert (∃ R, (if decide (pt n ≠ ∅)
                then ds ← map_res (λ p, getitem (doms !! p)) (node_iter (pt n));
                     r ← reduce (λ a b, Ok (a ∩ b)) ds;
                     Ok ({[n]} ∪ r)
                else Ok {[n]}) = Ok R ∧ n ∈ R ∧ R ⊆ D ∧
            ∀ x, x ∈ R ↔ x = n ∨ (pt n ≠ ∅ ∧
              ∀ p Dp, p ∈ pt n → doms !! p = Some Dp → x ∈ Dp))
    as (R & -> & HnR & HRD & HR).
  { destruct (decide (pt n ≠ ∅)) as [Hne|He].
    - destruct (new_doms_spec doms (pt n) n Hne) as (R & -> & HR).
      { intros p Hp. apply Hkeys. by apply (A1 n). }
      exists R. split; [done|]. split; [apply HR; by left|]. split.
      + intros x [->|Hx]%HR; [done|]. by apply HF.
      + intros x. rewrite HR. naive_solver.
    - exists {[n]}. split; [done|]. split; [set_solver|].
      split; [set_solver|]. intros x. rewrite elem_of_singleton. naive_solver. }
  simpl. rewrite HD. simpl.
  destruct (decide (R ≠ D)) as [Hne|Heq]; last first.
  { split; [|unfold dom_measure; simpl; lia].
    split; [done|]. split; [done|]. split; [done|].
    intros m Hm. apply Htodo. by right. }
  assert (size R < size D) as Hlt.
  { apply subset_size. split; [done|]. intros HDR. apply Hne.
    by apply set_eq; split; [apply HRD|apply HDR]. }
  rewrite decide_True by done. rewrite foldl_cons.
  assert (∀ p Dp', <[n := R]> doms !! p = Some Dp' →
            ∃ Dp, doms !! p = Some Dp ∧ Dp' ⊆ Dp) as Hdec.
  { intros p Dp'. destruct (decide (p = n)) as [->|Hpn].
    - rewrite lookup_insert_eq. intros [= <-]. eauto.
    - rewrite lookup_insert_ne by done. eauto. }
  assert (∀ p Dp, doms !! p = Some Dp →
            ∃ Dp', <[n := R]> doms !! p = Some Dp' ∧ Dp' ⊆ Dp) as Hdec'.
  { intros p Dp. destruct (decide (p = n)) as [->|Hpn].
    - rewrite lookup_insert_eq, HD. intros [= <-]. exists R. by split.
    - rewrite lookup_insert_ne by done. eauto. }
  split.
  - split; [|split; [|split]]; simpl.
    + intros k. rewrite <-Hkeys. destruct (decide (k = n)) as [->|Hkn].
      * rewrite lookup_insert_eq, HD. split; eauto.
      * by rewrite lookup_insert_ne.
    + intros s Hs. rewrite lookup_insert_ne; [auto|]. by intros <-.
    + intros m Hm. destruct (decide (m = n)) as [->|Hmn].
      * exists R. rewrite lookup_insert_eq. split; [done|]. split; [done|].
        split; [set_solver|]. intros _ x Hpt Hx. apply HR. right.
        split; [done|]. intros p Dp Hp HDp.
        destruct (Hdec' p Dp HDp) as (Dp' & HDp' & Hsub).
        apply Hsub. by apply (Hx p).
      * destruct (Hdoms m Hm) as (Dm & HDm & HmD & HDmN & HFm).
        exists Dm. rewrite lookup_insert_ne by done. split; [done|].
        split; [done|]. split; [done|]. intros Hms x Hpt Hx.
        apply HFm; [done..|]. intros p Dp Hp HDp.
        destruct (Hdec' p Dp HDp) as (Dp' & HDp' & Hsub).
        apply Hsub. by apply (Hx p).
    + intros m [Hm%elem_of_reverse%node_iter_elem|Hm]%elem_of_app.
      * by apply (A3 n).
      * apply Htodo. by right.
  - unfold dom_measure. simpl.
    rewrite length_app, length_reverse, node_iter_length.
    pose proof (sum_elements_update
      (λ m, size (default ∅ (doms !! m)))
      (λ m, size (default ∅ (<[n := R]> doms !! m))) (N ∖ seeds) n) as Hsum.
    simpl in Hsum. rewrite HD, lookup_insert_eq in Hsum. simpl in Hsum.
    specialize (Hsum ltac:(set_solver)).
    specialize (Hsum ltac:(intros m Hm; by rewrite lookup_insert_ne)).
    assert (size (st n) ≤ size N) by (by apply subseteq_size, A3).
    nia.
Qed.

Lemma _find_dominators_internal_post g (seeds : gset node) :
  seeds ≠ ∅ →
  (∀ n p, n ∈ _nodes g → n ∉ seeds → p ∈ succs_of g n →
     p ∈ _nodes g ∨ p ∈ seeds) →
  (∀ n, n ∈ _nodes g → n ∉ seeds → ∃ p, p ∈ succs_of g n ∧ p ∈ _nodes g) →
  (∀ n, n ∈ _nodes g → n ∉ seeds → preds_of g n ⊆ _nodes g) →
  ∃ doms, _find_dominators_internal g seeds true = Ok doms ∧
    dom_post (_nodes g) seeds doms.
Proof.
  intros Hne A1 A2 A3. unfold _find_dominators_internal.
  unfold mbind, res_bind. cbv beta iota.
  rewrite decide_False by done.
  destruct (dom_init_fold (_nodes g) seeds (node_iter (_nodes g))
              (foldl (λ doms e, <[e := {[e]}]> doms) ∅ (node_iter seeds)) [])
    as (doms0 & todo0 & -> & Hd & Ht & Hl).
  assert (∀ k, doms0 !! k =
            if decide (k ∈ _nodes g ∧ k ∉ seeds) then Some (_nodes g)
            else if decide (k ∈ seeds) then Some {[k]} else None) as Hd0.
  { intros k. rewrite Hd, (foldl_insert_fn (λ e, {[e]})), lookup_empty.
    destruct (decide (k ∈ _nodes g ∧ k ∉ seeds)) as [[? ?]|Hn].
    - rewrite decide_True; [done|]. by rewrite node_iter_elem.
    - rewrite decide_False by (by rewrite node_iter_elem).
      destruct (decide (k ∈ seeds)).
      + rewrite decide_True; [done|]. by apply node_iter_elem.
      + rewrite decide_False; [done|]. by rewrite node_iter_elem. }
  clear Hd.
  apply (loop_rule _ (dom_inv (_nodes g) seeds (succs_of g))
           (dom_measure (_nodes g) seeds)).
  - intros s. by apply dom_step_ok.
  - split; [|split; [|split]]; simpl.
    + intros k. rewrite Hd0. repeat case_decide; split;
        intros; naive_solver.
    + intros s Hs. rewrite Hd0, decide_False, decide_True by naive_solver.
      done.
    + intros n Hn. rewrite Hd0. destruct (decide (n ∈ seeds)) as [Hs|Hs].
      * rewrite decide_False by naive_solver.
        exists {[n]}. split; [done|]. split; [set_solver|].
        split; [set_solver|done].
      * rewrite decide_True by done. exists (_nodes g).
        split; [done|]. split; [done|]. split; [done|].
        intros _ x _ Hx. destruct (A2 n Hn Hs) as (p & Hp & HpN).
        destruct (decide (p ∈ seeds)) as [Hps|Hps].
        -- assert (x ∈ ({[p]} : gset node)) as ->%elem_of_singleton; [|done].
           apply (Hx p); [done|].
           by rewrite Hd0, decide_False, decide_True by naive_solver.
        -- apply (Hx p); [done|]. by rewrite Hd0, decide_True.
    + intros n Hn. destruct (Ht n Hn) as [[]%elem_of_nil|?%node_iter_elem].
      done.
  - unfold dom_measure. simpl. rewrite node_iter_length in Hl.
    set (sz := size (_nodes g)) in *. simpl in Hl.
    assert (sum_list_with (λ n, size (default ∅ (doms0 !! n)))
              (elements (_nodes g ∖ seeds)) ≤ sz * sz) as Hsum.
    { etrans; [apply (sum_list_with_le _ sz)|].
      - intros x Hx%elem_of_elements.
        rewrite Hd0, decide_True by set_solver. done.
      - apply Nat.mul_le_mono_r.
        change (size (_nodes g ∖ seeds) ≤ sz).
        apply subseteq_size. set_solver. }
    nia.
Qed.

(** ** Post-dominators *)

Lemma _find_exit_points_elem g n :
  n ∈ _find_exit_points g ↔ n ∈ _nodes g ∧ succs_of g n = ∅.
Proof.
  unfold _find_exit_points.
  cut (∀ l (acc : gset node),
         n ∈ foldl (λ exit_points n,
               if decide (succs_of g n = ∅) then exit_points ∪ {[n]}
               else exit_points) acc l
         ↔ n ∈ acc ∨ (n ∈ l ∧ succs_of g n = ∅)).
  { intros Hc. rewrite Hc, node_iter_elem. set_solver. }
  induction l as [|x l IH]; intros acc; simpl.
  - rewrite elem_of_nil. naive_solver.
  - rewrite IH, elem_of_cons. case_decide; set_solver.
Qed.

Lemma process_nodes_subset g0 g :
  wf g0 → process g0 = (g, Ok ()) → _nodes g ⊆ _nodes g0.
Proof.
  intros Hwf Hp. destruct (_entry_point g0) as [e|] eqn:Hentry; last first.
  { unfold process in Hp. by rewrite Hentry in Hp. }
  destruct (process_spec g0 e Hwf Hentry) as (g' & Hp' & _ & Hsub & _).
  rewrite Hp in Hp'. by injection Hp' as <-.
Qed.

(** * Properties under every iteration order of node and edge sets *)

Section edge_order.
Hypothesis edge_iter_perm : enumerates edge_iter.

(** ** Iteration over sets *)

Lemma edge_iter_elem (s : gset (node * node)) x : x ∈ edge_iter s ↔ x ∈ s.
Proof. by rewrite (edge_iter_perm s), elem_of_elements. Qed.

(** ** Loops *)

Lemma _find_loops_bodies_spec g e be :
  wf g → be_post g e be →
  ∃ bodies, _find_loops_bodies g be = Ok bodies ∧ NoDup bodies.*1 ∧
    Forall (λ hb, hb.1 ∈ hb.2 ∧ body_ok g hb.2) bodies.
Proof.
  intros Hwf [_ Hbe]. unfold _find_loops_bodies.
  match goal with |- context [fold_res ?b ?a ?l] =>
    destruct (fold_res_rule b (λ _ bodies,
      NoDup bodies.*1 ∧ Forall (λ hb, hb.1 ∈ hb.2 ∧ body_ok g hb.2) bodies) l a)
      as (bodies & Heq & Hnd & Hok)
  end.
  - split; [apply NoDup_nil_2|apply Forall_nil_2].
  - intros l1 [src h] l2 bodies Hl [Hnd Hok].
    assert ((src, h) ∈ be) as Hin.
    { apply edge_iter_elem. rewrite Hl. apply elem_of_app. right. by left. }
    destruct (Hbe src h Hin) as [Hsh Hh].
    destruct Hwf as (Hc & Hw & He). destruct (Hw src h Hsh) as [Hsn Hhn].
    destruct (_find_loops_body_spec g src h) as (B & -> & HhB & HB);
      [done..|clear -Hsh; set_solver|done|].
    unfold mbind, res_bind. cbv beta iota.
    destruct (odict.get h bodies) as [B0|] eqn:Hget.
    + eexists. split; [done|]. split.
      * rewrite odict_set_keys; [done|].
        apply odict_get_Some in Hget. apply list_elem_of_fmap.
        by exists (h, B0).
      * apply odict_set_Forall; [done|]. simpl.
        apply odict_get_Some in Hget.
        rewrite Forall_forall in Hok. destruct (Hok _ Hget) as [? ?].
        split; [set_solver|]. by apply body_ok_union.
    + eexists. split; [done|]. apply odict_get_None in Hget. split.
      * rewrite odict_set_fresh, fmap_app by done.
        apply NoDup_app. split; [done|]. split; [|apply NoDup_singleton].
        intros x Hx ->%list_elem_of_singleton. done.
      * apply odict_set_Forall; [done|]. by split.
  - eauto.
Qed.

Lemma _find_loops_spec g :
  frozen g →
  ∃ bodies, _find_loops g = Ok (make_loop g <$> bodies) ∧ NoDup bodies.*1 ∧
    Forall (λ hb, hb.1 ∈ hb.2 ∧ body_ok g hb.2) bodies.
Proof.
  intros Hfr. destruct (_find_back_edges_spec g Hfr)
    as (e & be & Hentry & Hbe & Hpost).
  destruct Hfr as [Hwf _].
  destruct (_find_loops_bodies_spec g e be Hwf Hpost)
    as (bodies & Hb & Hnd & Hok).
  exists bodies. split; [|done]. unfold _find_loops. rewrite Hbe.
  unfold mbind at 1, res_bind at 1. cbv beta iota. rewrite Hb.
  unfold mbind, res_bind. cbv beta iota. f_equal.
  etrans; [|apply (foldl_odict_set_fresh (λ hb, (make_loop g hb).2) bodies []);
              [done|by intros k _ ?%elem_of_nil]].
  apply foldl_ext. intros acc [h B]. unfold make_loop. simpl.
  by destruct (foldl _ _ _).
Qed.

(** ** Loops of a node *)

Lemma _find_in_loops_spec g :
  frozen g →
  ∃ loops table,
    _find_loops g = Ok loops ∧ _find_in_loops g = Ok table ∧
    NoDup loops.*1 ∧
    (∀ h L, (h, L) ∈ loops → header L = h ∧ body L ⊆ _nodes g) ∧
    ∀ n, table !! n =
      if decide (n ∈ _nodes g)
      then Some (header <$> filter (λ L, n ∈ body L)
                   (sorted (λ L, size (body L)) (odict.values loops)))
      else None.
Proof.
  intros Hfr. destruct (_find_loops_spec g Hfr) as (bodies & Hl & Hnd & Hok).
  set (loops := make_loop g <$> bodies) in *.
  assert (∀ h L, (h, L) ∈ loops → header L = h ∧ body L ⊆ _nodes g) as Hloops.
  { intros h L [Hh HB]%make_loop_elem. split; [done|].
    rewrite Forall_forall in Hok. by destruct (Hok _ HB) as (_ & ? & _). }
  unfold _find_in_loops. rewrite Hl. unfold mbind, res_bind. cbv beta iota.
  destruct (in_loops_fold (_nodes g)
              (sorted (λ L, size (body L)) (odict.values loops))
              (foldl (λ in_loops n, <[n := []]> in_loops) ∅
                 (node_iter (_nodes g)))) as (T & HT & HTn).
  - intros L HL. destruct (sorted_spec (λ L, size (body L)) (odict.values loops))
      as [Hp _].
    rewrite Hp in HL. apply list_elem_of_fmap in HL as ([h L'] & -> & Hin).
    by destruct (Hloops h L' Hin).
  - intros n. rewrite foldl_insert_const, lookup_empty.
    destruct (decide (n ∈ _nodes g)).
    + rewrite decide_True; [done|]. by apply node_iter_elem.
    + rewrite decide_False; [done|]. by rewrite node_iter_elem.
  - exists loops, T. repeat split; try done.
    + unfold loops. by rewrite make_loop_keys.
    + by apply Hloops in H0 as [? ?].
    + by apply Hloops in H0 as [? ?].
Qed.

(** C6, as the code has it.  On a processed graph and for a live node
    [n], the node-to-loop-headers table binds [n] to the headers of the
    loops whose body holds [n], each once, by ascending body size, so that
    an inner (smaller) loop comes before an outer (larger) one; and
    [in_loops n] returns exactly these loops in the stored order, without
    reversing it, that is from innermost to outermost. *)
Theorem in_loops_ascending_body_size (g0 g : CFGraph node data) (n : node) :
  wf g0 → process g0 = (g, Ok ()) → n ∈ nodes g →
  ∃ all_loops table ls,
    loops g = Ok all_loops ∧ _find_in_loops g = Ok table ∧
    in_loops g n = Ok ls ∧
    table !! n = Some (header <$> ls) ∧
    NoDup ls ∧
    (∀ L, L ∈ ls ↔ L ∈ odict.values all_loops ∧ n ∈ body L) ∧
    StronglySorted (λ a b, size (body a) ≤ size (body b)) ls.
Proof.
  intros Hwf Hp Hn. pose proof (process_frozen g0 g Hwf Hp) as Hfr.
  destruct (_find_in_loops_spec g Hfr)
    as (lps & table & Hl & Ht & Hnd & Hlps & Htn).
  destruct (sorted_spec (λ L, size (body L)) (odict.values lps)) as [Hperm Hs].
  set (Ls := sorted (λ L, size (body L)) (odict.values lps)) in *.
  exists lps, table, (filter (λ L, n ∈ body L) Ls).
  assert (∀ L, L ∈ odict.values lps → (header L, L) ∈ lps) as Hval.
  { intros L ([h L'] & -> & Hin)%list_elem_of_fmap. simpl.
    by destruct (Hlps h L' Hin) as [-> _]. }
  assert (NoDup (odict.values lps)) as Hndv.
  { apply (NoDup_fmap_1 header).
    replace (header <$> odict.values lps) with lps.*1; [done|].
    unfold odict.values. rewrite <-list_fmap_compose.
    apply Forall_fmap_ext_1, Forall_forall. intros [h L] Hin. simpl.
    by destruct (Hlps h L Hin) as [-> _]. }
  unfold loops, in_loops. rewrite Hl, Ht. unfold mbind, res_bind.
  cbv beta iota. rewrite Htn, decide_True by done. simpl.
  split; [done|]. split; [done|]. split.
  { apply map_res_lookup. intros L [_ HL]%list_elem_of_filter.
    rewrite Hperm in HL. by rewrite (odict_get_elem _ L lps Hnd (Hval L HL)). }
  split; [done|]. split.
  { apply NoDup_filter. by rewrite Hperm. }
  split.
  { intros L. rewrite list_elem_of_filter, Hperm. naive_solver. }
  by apply StronglySorted_filter.
Qed.

(** ** Post-dominators *)

Lemma _find_post_dominators_spec g d :
  frozen g → d ∉ _nodes g →
  ∃ g' pdoms,
    _find_post_dominators d g = (g', _find_exit_points g, Ok pdoms) ∧
    same_graph g g' ∧
    (∀ k, is_Some (pdoms !! k) ↔ k ∈ _nodes g) ∧
    (∀ n D, pdoms !! n = Some D → n ∈ D ∧ D ⊆ _nodes g).
Proof.
  intros Hfr Hd. destruct (_find_loops_spec g Hfr) as (bodies & Hl & _).
  destruct Hfr as [Hwf _]. pose proof Hwf as ([Hsp Hsd] & Hw & _).
  unfold _find_post_dominators. rewrite Hl.
  set (Ls := odict.values (make_loop g <$> bodies)).
  change (foldl _ g Ls) with (link_sink d Ls g).
  destruct (link_sink_linked d Ls g) as [W Hlk].
  set (g1 := link_sink d Ls g) in *.
  pose proof Hlk as (Hs1 & Hp1 & Hd1 & Hn1 & He1 & Hdn1).
  set (X := _find_exit_points g).
  assert (d ∉ X) as HdX.
  { unfold X. rewrite _find_exit_points_elem. by intros [? _]. }
  destruct (_find_dominators_internal_post g1 (X ∪ {[d]}))
    as (doms & -> & Hkeys & Hseeds & Hdoms).
  { apply (non_empty_inhabited_L d), elem_of_union. right.
    by apply elem_of_singleton. }
  { intros n p Hn Hns. rewrite Hs1, Hn1. intros [Hp|Hp]%elem_of_union.
    - left. by destruct (Hw n p Hp).
    - right. clear -Hp. case_decide; set_solver. }
  { intros n Hn Hns. rewrite Hn1 in Hn |- *.
    assert (succs_of g n ≠ ∅) as Hne.
    { intros He. apply Hns, elem_of_union. left.
      by apply _find_exit_points_elem. }
    apply set_choose_L in Hne as [p Hp]. exists p.
    split; [rewrite Hs1; apply elem_of_union; by left|].
    by destruct (Hw n p Hp). }
  { intros n Hn Hns p. rewrite Hn1 in Hn |- *. rewrite Hp1.
    rewrite decide_False by (by intros ->). rewrite union_empty_r_L.
    intros Hp. apply Hsp in Hp. by destruct (Hw p n Hp). }
  rewrite Hn1 in Hkeys, Hdoms.
  assert (d ∈ X ∪ {[d]}) as HdXd.
  { apply elem_of_union. right. by apply elem_of_singleton. }
  assert ((X ∪ {[d]}) ∖ {[d]} = X) as HXd by (clear -HdX; set_solver).
  assert (X ⊆ _nodes g) as HXN.
  { intros x Hx. unfold X in Hx. by apply _find_exit_points_elem in Hx as [? _]. }
  rewrite (Hseeds d) by done.
  destruct (_remove_node_edges_restricted d g1) as (g2 & -> & Hr).
  { by eapply linked_consistent. }
  rewrite decide_True by done.
  exists g2, ((λ doms, doms ∖ {[d]}) <$> delete d doms).
  split; [by rewrite HXd|].
  split; [by eapply unlink_sink|]. split.
  - intros k. rewrite lookup_fmap, fmap_is_Some, lookup_delete.
    case_decide as Hk; [subst; split; [by intros []|done]|].
    rewrite Hkeys. clear -Hk HXN. set_solver.
  - intros n D. rewrite lookup_fmap, lookup_delete.
    case_decide as Hk; [done|]. intros HD.
    apply fmap_Some in HD as (D0 & HD0 & ->).
    assert (n ∈ _nodes g) as Hn.
    { assert (is_Some (doms !! n)) as Hsome by eauto.
      apply Hkeys in Hsome. clear -Hsome Hk HXN. set_solver. }
    destruct (Hdoms n Hn) as (D' & HD' & HnD & HDN).
    rewrite HD0 in HD'. injection HD' as <-. clear -HnD HDN Hk. set_solver.
Qed.

(** C3.  On a processed graph, and for a sink [d] that is no node of
    the graph, [_find_post_dominators] returns normally.  The sink is no
    key of the returned table and in none of its sets, it is not in the
    exit-point set that the call leaves nor among the live nodes, no edge
    from it or to it is left in the adjacency tables or in the payload
    table, and the nodes, the adjacency tables, the payloads and the
    exit-point set are after the call what they were before. *)
Theorem post_dominators_scopes_sink (g0 g : CFGraph node data) (d : node) :
  wf g0 → process g0 = (g, Ok ()) → d ∉ _nodes g0 →
  ∃ g' pdoms,
    _find_post_dominators d g = (g', exit_points g, Ok pdoms) ∧
    pdoms !! d = None ∧
    (∀ n D, pdoms !! n = Some D → d ∉ D) ∧
    (d ∉ exit_points g) ∧
    (d ∉ nodes g') ∧
    (∀ n, (d ∉ succs_of g' n) ∧ (d ∉ preds_of g' n) ∧
          _edge_data g' !! (n, d) = None ∧ _edge_data g' !! (d, n) = None) ∧
    succs_of g' d = ∅ ∧ preds_of g' d = ∅ ∧
    same_graph g g'.
Proof.
  intros Hwf Hp Hd0. pose proof (process_frozen g0 g Hwf Hp) as Hfr.
  assert (d ∉ _nodes g) as Hd.
  { intros Hin. by apply Hd0, (process_nodes_subset g0 g). }
  destruct (_find_post_dominators_spec g d Hfr Hd)
    as (g' & pdoms & Heq & Hsame & Hkeys & Hsets).
  destruct Hfr as [Hwfg _].
  destruct (fresh_node g d Hwfg Hd) as (Hfs & Hfsd & Hfp & Hfpd & Hfd).
  pose proof Hsame as (Hn & Hs & Hpr & Hed & _).
  exists g', pdoms. unfold exit_points, nodes. split; [done|].
  split.
  { destruct (pdoms !! d) eqn:Hpd; [|done].
    exfalso. apply Hd, Hkeys. by rewrite Hpd. }
  split.
  { intros n D HD Hin. destruct (Hsets n D HD) as [_ Hsub]. by apply Hd, Hsub. }
  split; [rewrite _find_exit_points_elem; by intros [? _]|].
  split; [by rewrite Hn|].
  split.
  { intros n. unfold succs_of, preds_of. rewrite (Hs n), (Hpr n), Hed.
    split; [apply Hfs|]. split; [apply Hfp|]. split; apply Hfd; auto. }
  unfold succs_of, preds_of. by rewrite (Hs d), (Hpr d).
Qed.

(** C5.  On a processed graph [backbone] returns a set, and the entry
    point is in it; so it is on a graph of one node and on a graph with
    loops that have no exit. *)
Theorem backbone_contains_entry (g0 g : CFGraph node data) (d : node) :
  wf g0 → process g0 = (g, Ok ()) → d ∉ _nodes g0 →
  ∃ e B, _entry_point g = Some e ∧ backbone d g = Ok B ∧ e ∈ B.
Proof.
  intros Hwf Hp Hd0. pose proof (process_frozen g0 g Hwf Hp) as Hfr.
  assert (d ∉ _nodes g) as Hd.
  { intros Hin. by apply Hd0, (process_nodes_subset g0 g). }
  destruct (_find_post_dominators_spec g d Hfr Hd)
    as (g' & pdoms & Heq & _ & Hkeys & Hsets).
  destruct Hfr as [(_ & _ & He) (e & Hentry & _)].
  destruct (proj2 (Hkeys e) (He e Hentry)) as [B HB].
  exists e, B. split; [done|]. split; [|by destruct (Hsets e B HB)].
  unfold backbone, post_dominators. rewrite Heq, Hentry. simpl.
  by rewrite HB.
Qed.

(** C9, as the code has it.  On a processed graph whose exit-point set
    is empty [post_dominators] does not fail: the sink is added to the
    exit points before the backward analysis looks at its seeds, and the
    call returns a table with one key for each live node.  The
    [RuntimeError] is what [_find_dominators_internal] raises on an empty
    set of seeds. *)
Theorem post_dominators_without_exit_points (g0 g : CFGraph node data) (d : node) :
  wf g0 → process g0 = (g, Ok ()) → d ∉ _nodes g0 → exit_points g = ∅ →
  (∃ pdoms, post_dominators d g = Ok pdoms ∧
     ∀ k, is_Some (pdoms !! k) ↔ k ∈ nodes g) ∧
  _find_dominators_internal g (exit_points g) true = Raise RuntimeError.
Proof.
  intros Hwf Hp Hd0 Hx. pose proof (process_frozen g0 g Hwf Hp) as Hfr.
  assert (d ∉ _nodes g) as Hd.
  { intros Hin. by apply Hd0, (process_nodes_subset g0 g). }
  destruct (_find_post_dominators_spec g d Hfr Hd)
    as (g' & pdoms & Heq & _ & Hkeys & _).
  split.
  - exists pdoms. unfold post_dominators. by rewrite Heq.
  - unfold _find_dominators_internal. rewrite Hx. simpl.
    by rewrite decide_True.
Qed.

End edge_order.
End node_order.

End properties.

(** * Further properties *)

Section more_properties.
Context `{Countable node} {data : Type}.
Context {node_iter : iter_order node} {edge_iter : iter_order (node * node)}.
Implicit Types g : CFGraph node data.

Lemma map_res_Ok {A B} (f : A → res B) (h : A → B) (l : list A) :
  (∀ x, x ∈ l → f x = Ok (h x)) → map_res f l = Ok (h <$> l).
Proof.
  induction l as [|x l IH]; intros Hf; [done|].
  simpl. rewrite (Hf x) by left. simpl.
  rewrite IH by (intros y Hy; apply Hf; by right). done.
Qed.

Lemma loop_partial {S A} (step : S → res (S + A)) (I : S → Prop)
    (Q : A → Prop) :
  (∀ s, I s →
     match step s with
     | Ok (inl s') => I s'
     | Ok (inr a) => Q a
     | _ => True
     end) →
  ∀ fuel s a, I s → loop fuel step s = Ok a → Q a.
Proof.
  intros Hstep. induction fuel as [|fuel IH]; intros s a HI; [done|].
  simpl. specialize (Hstep s HI).
  destruct (step s) as [[s'|a']| |]; try done.
  - by apply IH.
  - by intros [= <-].
Qed.

Lemma fold_res_partial {A B} (body : B → A → res B) (I : list A → B → Prop)
    (l : list A) (acc acc' : B) :
  I [] acc →
  (∀ l1 x l2 acc acc', l = l1 ++ x :: l2 → I l1 acc →
     body acc x = Ok acc' → I (l1 ++ [x]) acc') →
  fold_res body acc l = Ok acc' → I l acc'.
Proof.
  intros H0 Hstep.
  cut (∀ l2 l1 acc, l = l1 ++ l2 → I l1 acc →
         fold_res body acc l2 = Ok acc' → I l acc').
  { intros Hc. by apply (Hc l [] acc). }
  induction l2 as [|x l2 IH]; intros l1 a -> HI; simpl.
  - rewrite app_nil_r. by intros [= <-].
  - destruct (body a x) as [a'| |] eqn:Hb; try done. simpl.
    apply (IH (l1 ++ [x])); [by rewrite <-app_assoc|].
    by eapply Hstep.
Qed.

Lemma odict_set_elem {K V} `{EqDecision K} (k : K) (v : V) (d : list (K * V))
    (k' : K) (v' : V) :
  NoDup d.*1 →
  (k', v') ∈ odict.set k v d ↔
    (k' = k ∧ v' = v) ∨ (k' ≠ k ∧ (k', v') ∈ d).
Proof.
  induction d as [|[k0 v0] d IH]; simpl; intros Hnd.
  - rewrite list_elem_of_singleton, elem_of_nil. naive_solver.
  - apply NoDup_cons in Hnd as [Hk0 Hnd]. specialize (IH Hnd).
    destruct (decide (k = k0)) as [->|Hne].
    + rewrite !elem_of_cons. split.
      * intros [[= -> ->]|Hin]; [by left|]. right. split; [|by right].
        intros ->. apply Hk0. apply list_elem_of_fmap. by exists (k0, v').
      * intros [[-> ->]|[Hne [[= ? ?]|Hin]]]; [by left|done|by right].
    + rewrite !elem_of_cons, IH. split.
      * intros [[= -> ->]|[[-> ->]|[? ?]]]; [right|left|right]; try done.
        -- split; [done|by left].
        -- split; [done|by right].
      * intros [[-> ->]|[? [[= -> ->]|?]]]; [right; by left|by left|].
        right. right. done.
Qed.

Lemma odict_set_NoDup {K V} `{EqDecision K} (k : K) (v : V) (d : list (K * V)) :
  NoDup d.*1 → NoDup (odict.set k v d).*1 ∧
  ∀ k', k' ∈ (odict.set k v d).*1 ↔ k' = k ∨ k' ∈ d.*1.
Proof.
  intros Hnd. destruct (decide (k ∈ d.*1)) as [Hk|Hk].
  - rewrite odict_set_keys by done. split; [done|]. intros k'. naive_solver.
  - rewrite odict_set_fresh by done. rewrite fmap_app. simpl. split.
    + apply NoDup_app. split; [done|]. split; [|apply NoDup_singleton].
      by intros x Hx ->%list_elem_of_singleton.
    + intros k'. rewrite elem_of_app, list_elem_of_singleton. naive_solver.
Qed.

Lemma entries_exits_fold g (B : gset node) (l : list node)
    (E0 X0 : gset node) :
  let r := foldl (λ '(entries, exits) n,
                    (entries ∪ (preds_of g n ∖ B),
                     exits ∪ (succs_of g n ∖ B))) (E0, X0) l in
  (∀ p, p ∈ r.1 ↔ p ∈ E0 ∨ ∃ n, n ∈ l ∧ p ∈ preds_of g n ∧ p ∉ B) ∧
  (∀ x, x ∈ r.2 ↔ x ∈ X0 ∨ ∃ n, n ∈ l ∧ x ∈ succs_of g n ∧ x ∉ B).
Proof.
  revert E0 X0. induction l as [|n l IH]; intros E0 X0; simpl.
  - split; intros x; rewrite ?elem_of_nil; split; try (by left);
      intros [?|(? & []%elem_of_nil & _)]; done.
  - destruct (IH (E0 ∪ (preds_of g n ∖ B)) (X0 ∪ (succs_of g n ∖ B)))
      as [HE HX].
    split; intros x; [rewrite HE|rewrite HX];
      rewrite elem_of_union, elem_of_difference; split.
    + intros [[?|[? ?]]|(m & ? & ? & ?)]; [by left|right..].
      * exists n. split; [by left|done].
      * exists m. split; [by right|done].
    + intros [?|(m & [->|?]%elem_of_cons & ? & ?)]; [by left; left| |].
      * left. by right.
      * right. by exists m.
    + intros [[?|[? ?]]|(m & ? & ? & ?)]; [by left|right..].
      * exists n. split; [by left|done].
      * exists m. split; [by right|done].
    + intros [?|(m & [->|?]%elem_of_cons & ? & ?)]; [by left; left| |].
      * left. by right.
      * right. by exists m.
Qed.

(** ** The order in which [_find_back_edges] checks the nodes *)

Lemma above_cons (stack : list node) (a t x : node) :
  above stack t x → above (a :: stack) t x.
Proof.
  intros (l1 & l2 & -> & Ht). exists (a :: l1), l2. split; [done|].
  by right.
Qed.

Lemma above_top (stack : list node) (a x : node) :
  x ∈ stack → above (a :: stack) a x.
Proof.
  intros (l1 & l2 & ->)%list_elem_of_split. exists (a :: l1), l2.
  split; [done|]. by left.
Qed.

Lemma above_inv (stack : list node) (a t x : node) :
  NoDup (a :: stack) → above (a :: stack) t x →
  x ∈ stack ∧ (t = a ∨ above stack t x).
Proof.
  intros [Ha Hnd]%NoDup_cons (l1 & l2 & Heq & Ht).
  destruct l1 as [|b l1]; [by apply elem_of_nil in Ht|].
  simpl in Heq. injection Heq as <- ->. split.
  - apply elem_of_app. right. by left.
  - apply elem_of_cons in Ht as [->|Ht]; [by left|]. right.
    by exists l1, l2.
Qed.

Lemma decreasing_mono (R R' : relation node) (l : list node) :
  (∀ x t, R' x t → R x t) → decreasing R l → decreasing R' l.
Proof. intros HR Hd i x t Hi Hxt. apply (Hd i x t Hi). by apply HR. Qed.

Lemma decreasing_snoc (R : relation node) (l : list node) (x : node) :
  decreasing R l → (∀ t, R x t → t ∈ l) → decreasing R (l ++ [x]).
Proof.
  intros Hd Hx i y t Hi Hyt.
  destruct (decide (i < length l)) as [Hlt|Hge].
  - rewrite lookup_app_l in Hi by done.
    destruct (Hd i y t Hi Hyt) as (j & Hj & Hjt). exists j.
    split; [done|]. rewrite lookup_app_l by lia. done.
  - rewrite lookup_app_r in Hi by lia.
    apply list_lookup_singleton_Some in Hi as [Hi ->].
    apply Hx, list_elem_of_lookup in Hyt as [j Hj]. exists j.
    pose proof (lookup_lt_Some _ _ _ Hj). split; [lia|].
    by rewrite lookup_app_l.
Qed.

(** A relation that decreases along a list without repetition has no
    cycle through an element of the list. *)
Lemma decreasing_rtc (R : relation node) (l : list node) a b i :
  decreasing R l → l !! i = Some a → rtc R a b →
  ∃ j, j ≤ i ∧ l !! j = Some b.
Proof.
  intros Hd Hi Hr. revert i Hi. induction Hr as [a|a b c Hab Hbc IH].
  - intros i Hi. exists i. by split.
  - intros i Hi. destruct (Hd i a b Hi Hab) as (j & Hj & Hjb).
    destruct (IH j Hjb) as (k & Hk & Hkc). exists k. split; [lia|done].
Qed.

Lemma decreasing_acyclic (R : relation node) (l : list node) a b :
  NoDup l → decreasing R l → a ∈ l → R a b → rtc R b a → False.
Proof.
  intros Hnd Hd [i Hi]%list_elem_of_lookup Hab Hba.
  destruct (Hd i a b Hi Hab) as (j & Hj & Hjb).
  destruct (decreasing_rtc R l b a j Hd Hjb Hba) as (k & Hk & Hka).
  pose proof (NoDup_lookup l i k a Hnd Hi Hka). lia.
Qed.

Lemma be_order_pop g e tos rest m ck be fin :
  be_inv g e (mkBE (tos :: rest) m ck be) → m !! tos = Some [] →
  be_order g (mkBE (tos :: rest) m ck be) fin →
  be_order g (mkBE rest m (ck ∪ {[tos]}) be) (fin ++ [tos]).
Proof.
  intros (Hnd & Hst & _) Hm (Hfn & Hfe & Hdec & Hex & Hpath & Hbk).
  simpl in *.
  pose proof (λ x, be_pend_pop g tos rest m ck be x Hnd Hm) as Hpe.
  pose proof (be_pend_tos g tos rest m ck be _ Hm) as Htos.
  assert (∀ s t, be_tree g (mkBE (tos :: rest) m ck be) s t →
            be_tree g (mkBE rest m (ck ∪ {[tos]}) be) s t) as Htree.
  { intros s t (? & ? & ?). split; [done|]. split; [done|]. by rewrite Hpe. }
  assert (tos ∉ ck) as Htc.
  { destruct (Hst tos) as [? _]; [by left|done]. }
  split; [|split; [|split; [|split; [|split]]]]; simpl.
  - apply NoDup_app. split; [done|]. split; [|apply NoDup_singleton].
    intros x Hx ->%list_elem_of_singleton. by apply Htc, Hfe.
  - intros x. rewrite elem_of_app, list_elem_of_singleton, elem_of_union,
      elem_of_singleton, Hfe. done.
  - apply decreasing_snoc; [done|]. intros t [Ht Hnb].
    destruct (Hex tos t) as [?|[?|Hab]]; [by left|done| |done|by apply Hfe|].
    { rewrite Htos. apply not_elem_of_nil. }
    by destruct (above_inv rest tos t tos Hnd Hab) as [? _];
      apply NoDup_cons in Hnd as [? _].
  - intros x t Hx Ht Hpend. rewrite Hpe in Hpend.
    destruct (Hex x t) as [?|[?|Hab]]; [by right|done|done|by left| |].
    { right. left. by apply elem_of_union_l. }
    apply above_inv in Hab as [_ [->|?]]; [| |done].
    + right. left. apply elem_of_union_r. by apply elem_of_singleton.
    + by right; right.
  - intros x y Hab. eapply rtc_subrel; [exact Htree|].
    by apply Hpath, above_cons.
  - intros s t Hin. eapply rtc_subrel; [exact Htree|]. by apply Hbk.
Qed.

Lemma be_order_next g e tos rest m ck be cur more be' fin :
  be_inv g e (mkBE (tos :: rest) m ck be) → m !! tos = Some (cur :: more) →
  (cur ∈ tos :: rest ∧ be' = be ∪ {[(tos, cur)]}) ∨ (cur ∈ ck ∧ be' = be) →
  be_order g (mkBE (tos :: rest) m ck be) fin →
  be_order g (mkBE (tos :: rest) (<[tos := more]> m) ck be') fin.
Proof.
  intros (Hnd & Hst & _ & Hpend & _ & _ & Hbe & _) Hm Hcur
    (Hfn & Hfe & Hdec & Hex & Hpath & Hbk). simpl in *.
  pose proof (λ x, be_pend_next g tos rest m ck be be' cur more x Hm) as Hpe.
  pose proof (be_pend_tos g tos rest m ck be _ Hm) as Htos.
  destruct (Hpend tos) as [Hndl Hsub]. rewrite Htos in Hndl, Hsub.
  apply NoDup_cons in Hndl as [Hcm Hndm].
  assert (be ⊆ be') as Hsub'.
  { destruct Hcur as [[_ ->]|[_ ->]]; [apply union_subseteq_l|done]. }
  assert (∀ s t, be_tree g (mkBE (tos :: rest) m ck be) s t →
            be_tree g (mkBE (tos :: rest) (<[tos := more]> m) ck be') s t)
    as Htree.
  { intros s t (Hs & Hnb & Hnp). split; [done|]. split; simpl.
    - destruct Hcur as [[_ ->]|[_ ->]]; [|done].
      intros [?|[= -> ->]%elem_of_singleton]%elem_of_union; [done|].
      apply Hnp. rewrite Htos. by left.
    - rewrite Hpe. case_decide; [|done]. subst s. rewrite Htos in Hnp.
      intros ?. apply Hnp. by right. }
  split; [done|]. split; [done|].
  split; [|split; [|split]]; simpl.
  - eapply decreasing_mono; [|exact Hdec]. intros x t [? Hn]. split; [done|].
    intros ?. by apply Hn, Hsub'.
  - intros x t Hx Ht Hnp. rewrite Hpe in Hnp.
    destruct (decide (x = tos)) as [->|Hxt].
    + destruct (decide (t = cur)) as [->|Htc].
      * destruct Hcur as [[_ ->]|[? ->]]; [left|by right; left].
        apply elem_of_union_r. by apply elem_of_singleton.
      * destruct (Hex tos t) as [?|[?|?]]; [done..| |by left;
          apply Hsub'|by right; left|by right; right].
        rewrite Htos. by intros [?|?]%elem_of_cons.
    + destruct (Hex x t) as [?|[?|?]]; [done..|by left;
        apply Hsub'|by right; left|by right; right].
  - intros x y Hab. eapply rtc_subrel; [exact Htree|]. by apply Hpath.
  - intros s t Hin.
    assert ((s, t) ∈ be ∨ (s = tos ∧ t = cur ∧ cur ∈ tos :: rest)) as [?|Hn].
    { destruct Hcur as [[? ->]|[_ ->]]; [|by left].
      apply elem_of_union in Hin as [?|[= -> ->]%elem_of_singleton];
        [by left|by right]. }
    + eapply rtc_subrel; [exact Htree|]. by apply Hbk.
    + destruct Hn as (-> & -> & [->|Hc]%elem_of_cons); [done|].
      eapply rtc_subrel; [exact Htree|]. by apply Hpath, above_top.
Qed.

(** ** The construction interface *)

(** X3.  In a graph that the construction interface has built, the two
    adjacency tables and the payload table hold the same edges, every
    edge joins two added nodes, and the entry point, when it is set, is
    an added node. *)
Theorem constructed_graph_is_consistent g :
  constructed g →
  (∀ s t, t ∈ succs_of g s ↔ s ∈ preds_of g t) ∧
  (∀ s t, t ∈ succs_of g s ↔ is_Some (_edge_data g !! (s, t))) ∧
  (∀ s t, t ∈ succs_of g s → s ∈ _nodes g ∧ t ∈ _nodes g) ∧
  (∀ e, _entry_point g = Some e → e ∈ _nodes g).
Proof.
  intros Hc. cut (wf g).
  { intros ([? ?] & ? & ?). done. }
  induction Hc.
  - apply init_wf.
  - by apply add_node_wf.
  - by apply add_edge_wf.
  - by apply set_entry_point_wf.
Qed.

(** ** The dominator tree *)

(** X16.  [dominator_tree()] turns the table of immediate dominators
    around: the children of [v] are the nodes other than [v] whose
    immediate dominator is [v], and every key of the table of immediate
    dominators is a key of the tree. *)
Theorem dominator_tree_inverts_idom g idom :
  immediate_dominators g = Ok idom →
  ∃ tree, dominator_tree g = Ok tree ∧
    (∀ v u, u ∈ tree !!! v ↔ (u, v) ∈ idom ∧ u ≠ v) ∧
    (∀ k, is_Some (tree !! k) ↔
       k ∈ idom.*1 ∨ ∃ u, (u, k) ∈ idom ∧ u ≠ k).
Proof.
  unfold immediate_dominators, dominator_tree, _find_dominator_tree.
  intros ->. simpl. eexists. split; [done|].
  induction idom as [|[u v] idom IH] using rev_ind.
  { simpl. split.
    - intros v u. rewrite lookup_total_gset_None by apply lookup_empty.
      rewrite elem_of_empty, elem_of_nil. naive_solver.
    - intros k. rewrite lookup_empty, elem_of_nil. split; [by intros [? ?]|].
      by intros [?|(? & []%elem_of_nil & _)]. }
  rewrite foldl_app. simpl. destruct IH as [Hch Hk].
  set (T := foldl _ ∅ idom) in *.
  set (T1 := if decide (is_Some (T !! u)) then T else <[u := ∅]> T).
  assert (∀ w, T1 !!! w = T !!! w) as HT1.
  { intros w. unfold T1. case_decide as Hu; [done|].
    destruct (decide (w = u)) as [->|Hwu].
    - rewrite lookup_total_gset_insert, decide_True by done.
      symmetry. apply lookup_total_gset_None.
      destruct (T !! u) eqn:E; [by destruct Hu; eauto|done].
    - by rewrite lookup_total_gset_insert, decide_False. }
  assert (∀ k, is_Some (T1 !! k) ↔ is_Some (T !! k) ∨ k = u) as HT1k.
  { intros k. unfold T1. case_decide as Hu.
    - split; [by left|]. by intros [?| ->].
    - destruct (decide (k = u)) as [->|Hku].
      + rewrite lookup_insert_eq. split; [by right|eauto].
      + rewrite lookup_insert_ne by done. split; [by left|by intros [?|?]]. }
  split.
  - intros w x. rewrite elem_of_app, list_elem_of_singleton.
    destruct (decide (u ≠ v)) as [Huv|Huv].
    + destruct (decide (w = v)) as [->|Hwv].
      * rewrite lookup_total_gset_insert, decide_True by done.
        rewrite elem_of_union, elem_of_singleton, HT1, Hch. naive_solver.
      * rewrite lookup_total_gset_insert, decide_False by done.
        rewrite HT1, Hch. naive_solver.
    + apply dec_stable in Huv. subst v. rewrite HT1, Hch. naive_solver.
  - intros k. rewrite fmap_app, elem_of_app. simpl.
    rewrite list_elem_of_singleton.
    setoid_rewrite elem_of_app. setoid_rewrite list_elem_of_singleton.
    destruct (decide (u ≠ v)) as [Huv|Huv].
    + destruct (decide (k = v)) as [->|Hkv].
      * rewrite lookup_insert_eq. split; [|eauto].
        intros _. right. exists u. split; [by right|done].
      * rewrite lookup_insert_ne, HT1k, Hk by done. naive_solver.
    + apply dec_stable in Huv. subst v. rewrite HT1k, Hk. naive_solver.
Qed.

Lemma over_cons {A} (stack : list A) (a0 c a : A) :
  over (a0 :: stack) c a ↔ over stack c a ∨ (c = a0 ∧ a ∈ stack).
Proof.
  split.
  - intros (l1 & l2 & Heq & Hc). destruct l1 as [|b l1].
    { by apply elem_of_nil in Hc. }
    simpl in Heq. injection Heq as <- ->.
    apply elem_of_cons in Hc as [->|Hc].
    + right. split; [done|]. apply elem_of_app. right. by left.
    + left. by exists l1, l2.
  - intros [(l1 & l2 & -> & Hc)|[-> Ha]].
    + exists (a0 :: l1), l2. split; [done|]. by right.
    + apply list_elem_of_split in Ha as (l1 & l2 & ->).
      exists (a0 :: l1), l2. split; [done|]. by left.
Qed.

Lemma over_app {A} (l stack : list A) (c a : A) :
  over (l ++ stack) c a ↔ over l c a ∨ (c ∈ l ∧ a ∈ stack) ∨ over stack c a.
Proof.
  induction l as [|b l IH]; simpl.
  - split; [by auto|]. intros [(l1 & l2 & Heq & _)|[[Hc _]|Ho]].
    + by destruct l1.
    + by apply elem_of_nil in Hc.
    + done.
  - rewrite !over_cons, IH, elem_of_cons, elem_of_app. clear IH. naive_solver.
Qed.

Lemma over_elem {A} (stack : list A) (c a : A) :
  over stack c a → c ∈ stack ∧ a ∈ stack.
Proof.
  intros (l1 & l2 & -> & Hc).
  split; apply elem_of_app; [by left|right; by left].
Qed.

(** Of two entries of a stack one is above the other, or they are equal. *)
Lemma over_total {A} (stack : list A) (c a : A) :
  c ∈ stack → a ∈ stack → c = a ∨ over stack c a ∨ over stack a c.
Proof.
  induction stack as [|b stack IH]; intros Hc Ha.
  { by apply elem_of_nil in Hc. }
  rewrite !over_cons.
  apply elem_of_cons in Hc as [->|Hc]; apply elem_of_cons in Ha as [->|Ha];
    auto.
  destruct (IH Hc Ha) as [?|[?|?]]; auto.
Qed.

(** The entries that [dfs_rec] pushes for the successors of [n]. *)
Lemma postorder_pushes (be : gset (node * node)) (n : node)
    (l : list node) (stack : list (@callback node)) :
  foldl (λ stack dest,
           if decide ((n, dest) ∉ be) then dfs_rec dest :: stack else stack)
    stack l
  = reverse (dfs_rec <$> filter (λ dest, (n, dest) ∉ be) l) ++ stack.
Proof.
  revert stack. induction l as [|d l IH]; intros stack; simpl; [done|].
  rewrite IH. rewrite filter_cons. destruct (decide ((n, d) ∉ be)).
  - by rewrite fmap_cons, reverse_cons, <-app_assoc.
  - done.
Qed.

Section more_node_order.
Hypothesis node_iter_perm : enumerates node_iter.

(** The body that the [while queue] loop of [_find_loops] builds for the
    back edge from [src] to [h] is the natural loop of the edge. *)
Lemma _find_loops_body_natural g src h fuel B :
  consistent g →
  loop fuel (_find_loops_body_step g) ({[h]}, [src]) = Ok B →
  ∀ x, x ∈ B ↔ in_natural_loop g h src x.
Proof.
  intros [Hsp _] Hloop.
  apply (loop_partial (_find_loops_body_step g)
    (λ st, h ∈ st.1 ∧
       (∀ x, x ∈ st.1 ∨ x ∈ st.2 → in_natural_loop g h src x) ∧
       (src ∈ st.1 ∨ src ∈ st.2) ∧
       (∀ x p, x ∈ st.1 → x ≠ h → p ∈ preds_of g x →
          p ∈ st.1 ∨ p ∈ st.2))
    (λ B, ∀ x, x ∈ B ↔ in_natural_loop g h src x)
    ) with (fuel := fuel) (s := ({[h]}, [src])); [| |exact Hloop].
  - intros [B0 queue] (Hh & Hsound & Hsrc & Hcl). simpl in *.
    destruct queue as [|n queue].
    + intros x. split; [by auto|].
      intros [->|[Hxh Hr]]; [done|].
      assert (src ∈ B0) as HsB.
      { destruct Hsrc as [?|[]%elem_of_nil]. done. }
      clear Hsrc. revert Hxh. induction Hr as [y|x y z [Hxy Hyh] Hr IH].
      * done.
      * intros Hxh. specialize (IH Hloop Hsound HsB Hyh).
        destruct (Hcl y x IH Hyh) as [?|[]%elem_of_nil]; [|done].
        by apply Hsp.
    + destruct (decide (n ∉ B0)) as [Hn|Hn]; simpl.
      * rewrite foldl_cons.
        assert (n ≠ h) as Hnh by (by intros ->).
        assert (in_natural_loop g h src n) as Hnat.
        { apply Hsound. right. by left. }
        split; [set_solver|]. split; [|split].
        -- intros x Hx.
           assert (x ∈ B0 ∨ x ∈ n :: queue ∨ x ∈ preds_of g n) as Hx'.
           { rewrite elem_of_app, elem_of_reverse,
               (node_iter_elem node_iter_perm) in Hx.
             clear -Hx. set_solver. }
           destruct Hx' as [?|[?|Hp]]; [auto..|].
           destruct (decide (x = h)) as [->|Hxh]; [by left|].
           right. split; [done|].
           destruct Hnat as [->|[_ Hr]]; [done|].
           eapply rtc_l; [|exact Hr]. split; [|done]. by apply Hsp.
        -- destruct Hsrc as [?|Hs]; [left; set_solver|].
           apply elem_of_cons in Hs as [->|?]; [left; set_solver|].
           right. apply elem_of_app. by right.
        -- intros x p [Hx| ->%elem_of_singleton]%elem_of_union Hxh Hp.
           ++ destruct (Hcl x p Hx Hxh Hp) as [?|Hq]; [left; set_solver|].
              apply elem_of_cons in Hq as [->|?]; [left; set_solver|].
              right. apply elem_of_app. by right.
           ++ right. apply elem_of_app. left.
              by apply elem_of_reverse, (node_iter_elem node_iter_perm).
      * apply dec_stable in Hn.
        split; [done|]. split; [|split].
        -- intros x [?|?]; apply Hsound; [by left|]. right. by right.
        -- destruct Hsrc as [?|Hs]; [by left|].
           apply elem_of_cons in Hs as [->|?]; auto.
        -- intros x p Hx Hxh Hp.
           destruct (Hcl x p Hx Hxh Hp) as [?|Hq]; [by left|].
           apply elem_of_cons in Hq as [->|?]; auto.
  - simpl. split; [set_solver|]. split; [|split].
    + intros x [->%elem_of_singleton| ->%list_elem_of_singleton].
      * by left.
      * destruct (decide (src = h)) as [->|?]; [by left|]. by right.
    + right. by left.
    + intros x p ->%elem_of_singleton Hxh. done.
Qed.

(** [successors] and [predecessors] find the payload of every edge of
    the adjacency tables. *)
Lemma successors_Ok g (n : node) :
  consistent g →
  successors g n
  = Ok ((λ t, (t, default None (_edge_data g !! (n, t))))
          <$> node_iter (succs_of g n)).
Proof.
  intros [Hsp Hsd].
  apply map_res_Ok. intros t Ht%(node_iter_elem node_iter_perm).
  apply Hsd in Ht as [d ->]. done.
Qed.

Lemma predecessors_Ok g (n : node) :
  consistent g →
  predecessors g n
  = Ok ((λ s, (s, default None (_edge_data g !! (s, n))))
          <$> node_iter (preds_of g n)).
Proof.
  intros [Hsp Hsd].
  apply map_res_Ok. intros s Hs%(node_iter_elem node_iter_perm).
  apply Hsp, Hsd in Hs as [d ->]. done.
Qed.

(** X1.  On a graph whose tables are consistent [successors] and
    [predecessors] do not fail, and yield each edge from (to) the node
    once, with its payload. *)
Theorem successors_predecessors_edges g (n : node) :
  consistent g →
  ∃ ls lp,
    successors g n = Ok ls ∧ predecessors g n = Ok lp ∧
    NoDup ls.*1 ∧ NoDup lp.*1 ∧
    (∀ t d, (t, d) ∈ ls ↔ _edge_data g !! (n, t) = Some d) ∧
    (∀ s d, (s, d) ∈ lp ↔ _edge_data g !! (s, n) = Some d).
Proof.
  intros Hc. pose proof Hc as [Hsp Hsd].
  exists ((λ t, (t, default None (_edge_data g !! (n, t))))
            <$> node_iter (succs_of g n)),
         ((λ s, (s, default None (_edge_data g !! (s, n))))
            <$> node_iter (preds_of g n)).
  split; [by apply successors_Ok|]. split; [by apply predecessors_Ok|].
  split; [|split; [|split]].
  - rewrite <-list_fmap_compose. rewrite (list_fmap_ext _ id) by done.
    rewrite list_fmap_id. apply (node_iter_NoDup node_iter_perm).
  - rewrite <-list_fmap_compose. rewrite (list_fmap_ext _ id) by done.
    rewrite list_fmap_id. apply (node_iter_NoDup node_iter_perm).
  - intros t d. rewrite list_elem_of_fmap. split.
    + intros (t' & [= -> ->] & Ht%(node_iter_elem node_iter_perm)).
      apply Hsd in Ht as [d ->]. done.
    + intros Hd. exists t. rewrite Hd. split; [done|].
      apply (node_iter_elem node_iter_perm), Hsd. eauto.
  - intros s d. rewrite list_elem_of_fmap. split.
    + intros (s' & [= -> ->] & Hs%(node_iter_elem node_iter_perm)).
      apply Hsp, Hsd in Hs as [d ->]. done.
    + intros Hd. exists s. rewrite Hd. split; [done|].
      apply (node_iter_elem node_iter_perm), Hsp, Hsd. eauto.
Qed.

(** ** Dominators *)

(** The turn of the [while todo] loop on a node [n] that is no seed. *)
Lemma dom_step_result (N seeds : gset node) (pt st : node → gset node)
    doms n todo :
  (∀ n p, n ∈ N → n ∉ seeds → p ∈ pt n → p ∈ N ∨ p ∈ seeds) →
  dom_inv N seeds pt (doms, n :: todo) → n ∉ seeds →
  ∃ D R, doms !! n = Some D ∧
    (∀ x, x ∈ R ↔ x = n ∨ (pt n ≠ ∅ ∧
        ∀ p Dp, p ∈ pt n → doms !! p = Some Dp → x ∈ Dp)) ∧
    _find_dominators_internal_step seeds pt st (doms, n :: todo)
    = Ok (inl (if decide (R ≠ D)
               then (<[n := R]> doms, reverse (node_iter (st n)) ++ todo)
               else (doms, todo))).
Proof.
  intros A1 (Hkeys & Hseeds & Hdoms & Htodo) Hns. simpl in *.
  assert (n ∈ N) as HnN by (apply Htodo; by left).
  destruct (Hdoms n HnN) as (D & HD & HnD & HDN & HF).
  assert (∃ R, (if decide (pt n ≠ ∅)
                then ds ← map_res (λ p, getitem (doms !! p)) (node_iter (pt n));
                     r ← reduce (λ a b, Ok (a ∩ b)) ds;
                     Ok ({[n]} ∪ r)
                else Ok {[n]}) = Ok R ∧ n ∈ R ∧ R ⊆ D ∧
            ∀ x, x ∈ R ↔ x = n ∨ (pt n ≠ ∅ ∧
              ∀ p Dp, p ∈ pt n → doms !! p = Some Dp → x ∈ Dp))
    as (R & HRe & HnR & HRD & HR).
  { destruct (decide (pt n ≠ ∅)) as [Hne|He].
    - destruct (new_doms_spec node_iter_perm doms (pt n) n Hne)
        as (R & -> & HR).
      { intros p Hp. apply Hkeys. by apply (A1 n). }
      exists R. split; [done|]. split; [apply HR; by left|]. split.
      + intros x [->|Hx]%HR; [done|]. by apply HF.
      + intros x. rewrite HR. naive_solver.
    - exists {[n]}. split; [done|]. split; [set_solver|].
      split; [set_solver|]. intros x. rewrite elem_of_singleton. naive_solver. }
  exists D, R. split; [done|]. split; [done|].
  rewrite decide_False by done. rewrite HRe. simpl. rewrite HD. simpl.
  destruct (decide (R ≠ D)) as [Hne|Heq]; [|done].
  assert (size R < size D) as Hlt.
  { apply subset_size. split; [done|]. intros HDR. apply Hne.
    by apply set_eq; split; [apply HRD|apply HDR]. }
  rewrite decide_True by done. by rewrite foldl_cons.
Qed.

Lemma on_every_path_pred (seeds : gset node) (st : node → gset node) d p n :
  n ∈ st p → d ≠ n → on_every_path seeds st d n → on_every_path seeds st d p.
Proof.
  intros Hpn Hdn Hd (s & Hs & Hsd & Hr). apply Hd. exists s.
  split; [done|]. split; [done|]. eapply rtc_r; [exact Hr|]. done.
Qed.

Lemma dom_step_sem (N seeds : gset node) (pt st : node → gset node) s :
  (∀ n p, p ∈ pt n ↔ n ∈ st p) →
  (∀ n p, n ∈ N → n ∉ seeds → p ∈ pt n → p ∈ N ∨ p ∈ seeds) →
  (∀ n, n ∈ N → n ∉ seeds → pt n ≠ ∅) →
  dom_inv N seeds pt s → dom_sem N seeds pt st s →
  match _find_dominators_internal_step seeds pt st s with
  | Ok (inl s') => dom_sem N seeds pt st s'
  | Ok (inr doms) => dom_sem N seeds pt st (doms, [])
  | _ => True
  end.
Proof.
  intros Hinv A1 A2 Hdi [Hst Hco]. destruct s as [doms todo].
  destruct todo as [|n todo]; [done|].
  destruct (decide (n ∈ seeds)) as [Hns|Hns].
  { simpl. rewrite decide_True by done. split; [|done].
    intros m D HD Hms Hmt. apply (Hst m D HD Hms).
    simpl in *. intros [->|?]%elem_of_cons; done. }
  destruct (dom_step_result N seeds pt st doms n todo A1 Hdi Hns)
    as (D & R & HD & HR & ->).
  assert (n ∈ N) as HnN.
  { destruct Hdi as (_ & _ & _ & Htodo). apply Htodo. by left. }
  simpl in *. destruct (decide (R ≠ D)) as [Hne|Heq].
  - split; simpl.
    + intros m Dm HDm Hms Hmt x Hx.
      assert (n ∉ pt m) as Hnm.
      { intros Hin. apply Hmt, elem_of_app. left.
        apply elem_of_reverse, (node_iter_elem node_iter_perm).
        by apply Hinv. }
      assert (∀ p Dp, p ∈ pt m → <[n := R]> doms !! p = Some Dp →
                doms !! p = Some Dp) as Hsame.
      { intros p Dp Hp. rewrite lookup_insert_ne; [done|]. by intros <-. }
      destruct (decide (m = n)) as [->|Hmn].
      * rewrite lookup_insert_eq in HDm. injection HDm as <-.
        apply HR in Hx as [?|[_ Hx]]; [by left|]. right.
        intros p Dp Hp HDp. apply (Hx p Dp Hp). by apply Hsame.
      * rewrite lookup_insert_ne in HDm by done.
        destruct (Hst m Dm HDm Hms) with (x := x) as [?|Hx']; [|done|by left|].
        { intros [->|?]%elem_of_cons; [done|]. apply Hmt, elem_of_app.
          by right. }
        right. intros p Dp Hp HDp. apply (Hx' p Dp Hp). by apply Hsame.
    + intros m Dm d HDm Hd Hon. destruct (decide (m = n)) as [->|Hmn].
      * rewrite lookup_insert_eq in HDm. injection HDm as <-.
        apply HR. destruct (decide (d = n)) as [?|Hdn]; [by left|]. right.
        split; [by apply A2|]. intros p Dp Hp HDp.
        apply (Hco p Dp d HDp Hd).
        apply (on_every_path_pred seeds st d p n); [by apply Hinv|done..].
      * rewrite lookup_insert_ne in HDm by done. by apply (Hco m Dm).
  - apply dec_stable in Heq. subst D. split; simpl; [|done].
    intros m Dm HDm Hms Hmt x Hx. destruct (decide (m = n)) as [->|Hmn].
    + assert (Dm = R) as -> by congruence.
      apply HR in Hx as [?|[_ Hx]]; [by left|by right].
    + apply (Hst m Dm HDm Hms); [|done].
      intros [->|?]%elem_of_cons; done.
Qed.

Lemma on_every_path_refl (seeds : gset node) (st : node → gset node) d :
  on_every_path seeds st d d.
Proof.
  intros (s & _ & Hsd & Hr). apply rtc_inv_r in Hr as [->|(y & _ & _ & ?)];
    done.
Qed.

Lemma dom_init_todo (N seeds : gset node) (l : list node)
    (doms : gmap node (gset node)) (todo : list node) k :
  k ∈ todo ∨ (k ∈ l ∧ k ∉ seeds) →
  k ∈ (foldl (λ '(doms, todo) n,
               if decide (n ∉ seeds) then (<[n := N]> doms, n :: todo)
               else (doms, todo)) (doms, todo) l).2.
Proof.
  revert doms todo. induction l as [|x l IH]; intros doms todo; simpl.
  - intros [?|[[]%elem_of_nil _]]. done.
  - intros Hk. destruct (decide (x ∉ seeds)) as [Hx|Hx]; apply IH.
    + destruct Hk as [?|[[->|?]%elem_of_cons ?]].
      * left. by right.
      * left. by left.
      * by right.
    + destruct Hk as [?|[[->|?]%elem_of_cons ?]]; [by left|done|by right].
Qed.

(** The analysis of [_find_dominators_internal] on the live nodes [N]
    from the seeds [seeds], along the edges from [a] to [st a] ([pt]
    gives the edges backwards): it returns a table that binds each node
    to the live nodes that are on every path from a seed to it. *)
Lemma dom_loop_sem (N seeds : gset node) (pt st : node → gset node) :
  seeds ≠ ∅ →
  (∀ n p, p ∈ pt n ↔ n ∈ st p) →
  (∀ n p, n ∈ N → n ∉ seeds → p ∈ pt n → p ∈ N ∨ p ∈ seeds) →
  (∀ n, n ∈ N → n ∉ seeds → ∃ p, p ∈ pt n ∧ p ∈ N) →
  (∀ n, n ∈ N → n ∉ seeds → st n ⊆ N) →
  (∀ s m, s ∈ seeds → m ∈ st s → m ∈ N ∨ m ∈ seeds) →
  ∃ doms,
    (let doms0 := foldl (λ doms e, <[e := {[e]}]> doms) ∅ (node_iter seeds) in
     let '(doms, todo) :=
       foldl (λ '(doms, todo) n,
                if decide (n ∉ seeds) then (<[n := N]> doms, n :: todo)
                else (doms, todo))
             (doms0, []) (node_iter N) in
     let sz := size N in
     loop (S (sz + sz * sz * S sz))
       (_find_dominators_internal_step seeds pt st) (doms, todo)) = Ok doms ∧
    dom_post N seeds doms ∧
    ∀ n D, doms !! n = Some D →
      ∀ d, d ∈ N → d ∈ D ↔ on_every_path seeds st d n.
Proof.
  intros Hne Hinv A1 A2 A3 A4. cbv zeta.
  pose proof (dom_init_todo N seeds (node_iter N)
    (foldl (λ doms e, <[e := {[e]}]> doms) ∅ (node_iter seeds)) []) as Hall.
  destruct (dom_init_fold N seeds (node_iter N)
              (foldl (λ doms e, <[e := {[e]}]> doms) ∅ (node_iter seeds)) [])
    as (doms0 & todo0 & Heq & Hd & Ht & Hl).
  rewrite Heq in Hall |- *. simpl in Hall.
  assert (∀ k, doms0 !! k =
            if decide (k ∈ N ∧ k ∉ seeds) then Some N
            else if decide (k ∈ seeds) then Some {[k]} else None) as Hd0.
  { intros k. rewrite Hd, (foldl_insert_fn (λ e, {[e]})), lookup_empty.
    destruct (decide (k ∈ N ∧ k ∉ seeds)) as [[? ?]|Hn].
    - rewrite decide_True; [done|].
      by rewrite (node_iter_elem node_iter_perm).
    - rewrite decide_False by (by rewrite (node_iter_elem node_iter_perm)).
      destruct (decide (k ∈ seeds)).
      + rewrite decide_True; [done|]. by apply (node_iter_elem node_iter_perm).
      + rewrite decide_False; [done|].
        by rewrite (node_iter_elem node_iter_perm). }
  clear Hd Heq.
  assert (dom_inv N seeds pt (doms0, todo0)) as Hinit.
  { split; [|split; [|split]]; simpl.
    + intros k. rewrite Hd0. repeat case_decide; split;
        intros; naive_solver.
    + intros s Hs. rewrite Hd0, decide_False, decide_True by naive_solver.
      done.
    + intros n Hn. rewrite Hd0. destruct (decide (n ∈ seeds)) as [Hs|Hs].
      * rewrite decide_False by naive_solver.
        exists {[n]}. split; [done|]. split; [set_solver|].
        split; [set_solver|done].
      * rewrite decide_True by done. exists N.
        split; [done|]. split; [done|]. split; [done|].
        intros _ x _ Hx. destruct (A2 n Hn Hs) as (p & Hp & HpN).
        destruct (decide (p ∈ seeds)) as [Hps|Hps].
        -- assert (x ∈ ({[p]} : gset node)) as ->%elem_of_singleton; [|done].
           apply (Hx p); [done|].
           by rewrite Hd0, decide_False, decide_True by naive_solver.
        -- apply (Hx p); [done|]. by rewrite Hd0, decide_True.
    + intros n Hn. destruct (Ht n Hn) as [[]%elem_of_nil|Hn'].
      by apply (node_iter_elem node_iter_perm) in Hn'. }
  assert (dom_sem N seeds pt st (doms0, todo0)) as Hsem0.
  { split; simpl.
    - intros n D HD Hns Hnt. destruct Hnt. apply Hall. right.
      split; [|done]. apply (node_iter_elem node_iter_perm).
      rewrite Hd0 in HD. repeat case_decide; naive_solver.
    - intros n D d HD HdN Hon. rewrite Hd0 in HD.
      destruct (decide (n ∈ N ∧ n ∉ seeds)); [by injection HD as <-|].
      destruct (decide (n ∈ seeds)) as [Hs|]; [|done]. injection HD as <-.
      apply elem_of_singleton. destruct (decide (d = n)) as [|Hdn]; [done|].
      destruct Hon. exists n. split; [done|]. split; [done|]. done. }
  destruct (loop_rule (_find_dominators_internal_step seeds pt st)
              (dom_inv N seeds pt) (dom_measure N seeds) (dom_post N seeds))
    with (fuel := S (size N + size N * size N * S (size N)))
         (s := (doms0, todo0)) as (doms & Hloop & Hpost).
  { intros s. by apply (dom_step_ok node_iter_perm). }
  { done. }
  { unfold dom_measure. simpl.
    rewrite (node_iter_length node_iter_perm) in Hl.
    set (sz := size N) in *. simpl in Hl.
    assert (sum_list_with (λ n, size (default ∅ (doms0 !! n)))
              (elements (N ∖ seeds)) ≤ sz * sz) as Hsum.
    { etrans; [apply (sum_list_with_le _ sz)|].
      - intros x Hx%elem_of_elements.
        rewrite Hd0, decide_True by set_solver. done.
      - apply Nat.mul_le_mono_r.
        change (size (N ∖ seeds) ≤ sz).
        apply subseteq_size. set_solver. }
    nia. }
  exists doms. split; [done|]. split; [done|].
  assert (dom_sem N seeds pt st (doms, [])) as [Hst Hco].
  { revert Hloop.
    apply (loop_partial (_find_dominators_internal_step seeds pt st)
      (λ s, dom_inv N seeds pt s ∧ dom_sem N seeds pt st s)
      (λ doms, dom_sem N seeds pt st (doms, []))); [|done].
    intros s [Hi Hs].
    pose proof (dom_step_ok node_iter_perm N seeds pt st s A1 A3 Hi) as H1.
    pose proof (dom_step_sem N seeds pt st s Hinv A1) as H2.
    destruct (_find_dominators_internal_step seeds pt st s) as [[s'|d']| |];
      try done.
    - split; [by destruct H1|]. apply H2; [|done..].
      intros n Hn Hns. destruct (A2 n Hn Hns) as (p & Hp & _).
      intros Hempty. rewrite Hempty in Hp. by apply elem_of_empty in Hp.
    - apply H2; [|done..].
      intros n Hn Hns. destruct (A2 n Hn Hns) as (p & Hp & _).
      intros Hempty. rewrite Hempty in Hp. by apply elem_of_empty in Hp. }
  simpl in *. destruct Hpost as (Hkeys & Hseeds & Hdoms).
  intros n D HD d HdN. split; [|by apply (Hco n D)].
  intros HdD (s & Hs & Hsd & Hr).
  cut (∀ y, rtc (λ a b, b ∈ st a ∧ b ≠ d) s y →
         (y ∈ N ∨ y ∈ seeds) ∧ ∀ Dy, doms !! y = Some Dy → d ∉ Dy).
  { intros Hc. destruct (Hc n Hr) as [_ Hn]. by apply (Hn D). }
  clear n D HD HdD Hr.
  apply (rtc_ind_r (λ y, (y ∈ N ∨ y ∈ seeds) ∧
                         ∀ Dy, doms !! y = Some Dy → d ∉ Dy)).
  - split; [by right|]. intros Dy. rewrite (Hseeds s Hs). intros [= <-].
    by intros ->%elem_of_singleton.
  - intros y z Hsy [Hyz Hzd] [Hy IH].
    assert (z ∈ N ∨ z ∈ seeds) as Hz.
    { destruct (decide (y ∈ seeds)) as [Hys|Hys]; [by apply (A4 y)|].
      destruct Hy as [Hy|?]; [|done]. left. by apply (A3 y). }
    split; [done|]. intros Dz HDz HdDz.
    destruct (decide (z ∈ seeds)) as [Hzs|Hzs].
    { rewrite (Hseeds z Hzs) in HDz. injection HDz as <-.
      by apply elem_of_singleton in HdDz. }
    destruct (Hst z Dz HDz Hzs) with (x := d) as [?|Hp];
      [by intros []%elem_of_nil|done|done|].
    destruct (proj2 (Hkeys y) Hy) as [Dy HDy].
    apply (IH Dy HDy). apply (Hp y Dy); [by apply Hinv|done].
Qed.

(** X6.  On a processed graph [dominators()] returns a table with one
    key for each live node, and the set of a node [n] holds exactly the
    live nodes that are on every path from the entry point to [n]. *)
Theorem dominators_are_dominators g0 g :
  wf g0 → process g0 = (g, Ok ()) →
  ∃ e doms,
    _entry_point g = Some e ∧ dominators g = Ok doms ∧
    (∀ k, is_Some (doms !! k) ↔ k ∈ nodes g) ∧
    ∀ n D, doms !! n = Some D →
      ∀ d, d ∈ D ↔ d ∈ nodes g ∧ dominates g e d n.
Proof.
  intros Hwf0 Hp.
  destruct (process_frozen node_iter_perm g0 g Hwf0 Hp)
    as (Hwf & e & He & Hreach).
  pose proof Hwf as ([Hsp Hsd] & Hw & Hen). specialize (Hen e He).
  destruct (dom_loop_sem (_nodes g) {[e]} (preds_of g) (succs_of g))
    as (doms & Hdoms & (Hkeys & _ & HD) & Hsem).
  - apply (non_empty_inhabited_L e). by apply elem_of_singleton.
  - intros n p. by rewrite Hsp.
  - intros n p _ _ Hp'. left. apply Hsp in Hp'. by destruct (Hw p n Hp').
  - intros n Hn Hne. rewrite elem_of_singleton in Hne.
    specialize (Hreach n Hn). apply rtc_inv_r in Hreach as [->|(y & _ & Hy)];
      [done|].
    exists y. split; [by apply Hsp|]. by destruct (Hw y n Hy).
  - intros n _ _ m Hm. by destruct (Hw n m Hm).
  - intros s m _ Hm. left. by destruct (Hw s m Hm).
  - exists e, doms. split; [done|]. split.
    { unfold dominators, _find_dominators, _find_dominators_internal.
      rewrite He. unfold mbind, res_bind. cbv beta iota.
      rewrite decide_False; [exact Hdoms|].
      apply (non_empty_inhabited_L e). by apply elem_of_singleton. }
    split.
    { intros k. rewrite Hkeys, elem_of_singleton. unfold nodes.
      split; [by intros [?| ->]|by left]. }
    intros n D HDn d. unfold nodes, dominates. split.
    + intros Hd.
      assert (d ∈ _nodes g) as HdN.
      { assert (n ∈ _nodes g) as Hn.
        { destruct (proj1 (Hkeys n)) as [?| ->%elem_of_singleton]; eauto. }
        destruct (HD n Hn) as (D' & HD' & _ & Hsub).
        apply Hsub. congruence. }
      split; [done|]. by apply (Hsem n D).
    + intros [HdN Hon]. by apply (Hsem n D).
Qed.

(** ** Back edges and the topological order *)

Lemma be_order_push g e tos rest m ck be cur more fin :
  be_inv g e (mkBE (tos :: rest) m ck be) → m !! tos = Some (cur :: more) →
  cur ∉ tos :: rest → cur ∉ ck →
  be_order g (mkBE (tos :: rest) m ck be) fin →
  be_order g
    (push_state g cur (mkBE (tos :: rest) (<[tos := more]> m) ck be)) fin.
Proof.
  intros (Hnd & Hst & _ & Hpend & _ & _ & Hbe & _) Hm Hcs Hcc
    (Hfn & Hfe & Hdec & Hex & Hpath & Hbk).
  set (st' := push_state g cur (mkBE (tos :: rest) (<[tos := more]> m) ck be)).
  pose proof (λ x, be_pend_push g tos rest m ck be cur more x Hm Hcs Hcc)
    as Hpe. fold st' in Hpe. simpl in *.
  pose proof (be_pend_tos g tos rest m ck be _ Hm) as Htos.
  destruct (Hpend tos) as [Hndl Hsub]. rewrite Htos in Hndl, Hsub.
  apply NoDup_cons in Hndl as [Hcm Hndm].
  assert (cur ≠ tos) as Hne by (intros ->; apply Hcs; by left).
  assert (be_pend g (mkBE (tos :: rest) m ck be) cur
          = node_iter (succs_of g cur)) as Hpc.
  { unfold be_pend; simpl. by rewrite decide_False, decide_False. }
  assert (∀ s t, t ∉ be_pend g (mkBE (tos :: rest) m ck be) s →
                 t ∉ be_pend g st' s) as Hshrink.
  { intros s t Ht. rewrite Hpe. repeat case_decide; subst; try done.
    - rewrite Hpc in Ht. by rewrite elem_of_reverse.
    - rewrite Htos in Ht. intros ?. apply Ht. by right. }
  assert (∀ s t, be_tree g (mkBE (tos :: rest) m ck be) s t →
            be_tree g st' s t) as Htree.
  { intros s t (Hst' & Hnb & Hnp). split; [done|].
    split; [done|by apply Hshrink]. }
  assert (cur ∈ succs_of g tos) as Hct by (apply Hsub; by left).
  assert (be_tree g st' tos cur) as Htc.
  { split; [done|]. split.
    - simpl. intros Hin. destruct (Hbe _ _ Hin) as (_ & Hn & _).
      apply Hn. rewrite Htos. by left.
    - by rewrite Hpe, decide_False, decide_True. }
  split; [done|]. split; [done|]. split; [done|].
  split; [|split]; simpl.
  - intros x t Hx Ht Hnp. rewrite Hpe in Hnp.
    destruct (decide (x = cur)) as [->|Hxc].
    { destruct Hnp. by apply elem_of_reverse, (node_iter_elem node_iter_perm). }
    apply elem_of_cons in Hx as [?|Hx]; [done|].
    destruct (decide (x = tos)) as [->|Hxt].
    + destruct (decide (t = cur)) as [->|Htcur].
      * right. right. apply above_top. by left.
      * destruct (Hex tos t) as [?|[?|?]]; [by left|done| |by left|
          by right; left|by right; right; apply above_cons].
        rewrite Htos. by intros [?|?]%elem_of_cons.
    + destruct (Hex x t) as [?|[?|?]]; [done..|by left|
        by right; left|by right; right; apply above_cons].
  - intros x y Hab.
    apply above_inv in Hab as [Hx [->|Hab]];
      [| |by apply NoDup_cons].
    + eapply rtc_r; [|exact Htc].
      apply elem_of_cons in Hx as [->|Hx]; [done|].
      eapply rtc_subrel; [exact Htree|]. by apply Hpath, above_top.
    + eapply rtc_subrel; [exact Htree|]. by apply Hpath.
  - intros s t Hin. eapply rtc_subrel; [exact Htree|]. by apply Hbk.
Qed.

(** [_find_back_edges] on a processed graph: besides [be_post], the
    live nodes can be listed so that every edge that is no back edge
    leads to a node listed before its source, and the target of a back
    edge reaches its source along edges that are no back edges. *)
Lemma _find_back_edges_order g :
  frozen g →
  ∃ e be fin,
    _entry_point g = Some e ∧ _find_back_edges g = Ok be ∧
    be_post g e be ∧
    NoDup fin ∧ (∀ x, x ∈ fin ↔ x ∈ _nodes g) ∧
    decreasing (forward_edge g be) fin ∧
    ∀ s t, (s, t) ∈ be → rtc (forward_edge g be) t s.
Proof.
  intros Hfr.
  destruct (_find_back_edges_spec node_iter_perm g Hfr)
    as (e & be & Hentry & Hbe & Hpost).
  destruct Hfr as (Hwf & e' & Hentry' & Hreach).
  assert (e' = e) as -> by congruence.
  exists e, be. 
  cut (∃ fin, NoDup fin ∧ (∀ x, x ∈ fin ↔ x ∈ _nodes g) ∧
         decreasing (forward_edge g be) fin ∧
         ∀ s t, (s, t) ∈ be → rtc (forward_edge g be) t s).
  { intros (fin & ?). exists fin. by repeat (split; [done|]). }
  assert (e ∈ _nodes g) as He by (by apply Hwf).
  unfold _find_back_edges, entry_point in Hbe. rewrite Hentry in Hbe.
  unfold mbind, res_bind in Hbe. cbv beta iota in Hbe.
  destruct (be_inv_init node_iter_perm g e He) as [Hinit _].
  revert Hbe.
  apply (loop_partial (_find_back_edges_step g)
    (λ st, be_inv g e st ∧ ∃ fin, be_order g st fin)
    (λ be, ∃ fin, NoDup fin ∧ (∀ x, x ∈ fin ↔ x ∈ _nodes g) ∧
       decreasing (forward_edge g be) fin ∧
       ∀ s t, (s, t) ∈ be → rtc (forward_edge g be) t s)).
  - intros [stack m ck be0] [Hinv (fin & Hord)].
    unfold _find_back_edges_step; simpl.
    destruct stack as [|tos rest].
    + destruct Hinv as (_ & _ & Hr & Hpend & Hcl & He' & Hbe0 & _).
      destruct Hord as (Hfn & Hfe & Hdec & _ & _ & Hbk). simpl in *.
      assert (∀ x, x ∈ ck → be_pend g (mkBE [] m ck be0) x = []) as Hpe.
      { intros x Hx. unfold be_pend; simpl.
        destruct (decide (x ∈ [])) as [Hn|_]; [by apply elem_of_nil in Hn|].
        by rewrite decide_True. }
      exists fin. split; [done|]. split; [|split; [done|]].
      * intros n. rewrite Hfe. split.
        -- intros Hn. destruct (Hr n) as [? _]; [by right|done].
        -- intros Hn. apply (reachable_closed g e); [| |by apply Hreach].
           ++ destruct He' as [[]%elem_of_nil|?]; done.
           ++ intros s t Hs Ht.
              destruct (Hcl s t) as [Hp|[?|[]%elem_of_nil]];
                [by right|done| |done].
              rewrite Hpe in Hp by done. by apply elem_of_nil in Hp.
      * intros s t Hin. eapply rtc_subrel; [|by apply Hbk].
        by intros a b (? & ? & _).
    + pose proof Hinv as (Hnd & Hst & Hrest).
      destruct (Hst tos) as [_ [l Hl]]; [by left|].
      simpl in Hl. rewrite Hl. destruct l as [|cur more].
      * split.
        -- by apply be_step_pop.
        -- exists (fin ++ [tos]). by apply (be_order_pop g e).
      * simpl. destruct (decide (cur ∈ tos :: rest)) as [Hcs|Hcs].
        -- split.
           ++ by apply (be_step_next g e tos rest m ck be0 cur more); auto.
           ++ exists fin.
              by apply (be_order_next g e tos rest m ck be0 cur more); auto.
        -- destruct (decide (cur ∉ ck)) as [Hcc|Hcc].
           ++ split.
              ** by apply (be_step_push node_iter_perm
                             g e tos rest m ck be0 cur more).
              ** exists fin. by apply (be_order_push g e).
           ++ apply dec_stable in Hcc. split.
              ** by apply (be_step_next g e tos rest m ck be0 cur more); auto.
              ** exists fin.
                 by apply (be_order_next g e tos rest m ck be0 cur more); auto.
  - split; [done|]. exists [].
    split; [apply NoDup_nil_2|]. split; [|split; [|split; [|split]]]; simpl.
    + intros x. rewrite elem_of_nil, elem_of_empty. done.
    + intros i x t Hi. by rewrite lookup_nil in Hi.
    + intros x t ->%list_elem_of_singleton Ht Hnp. destruct Hnp.
      unfold be_pend; simpl.
      rewrite decide_True, lookup_insert_eq by (by left). simpl.
      rewrite foldl_cons, app_nil_r.
      by apply elem_of_reverse, (node_iter_elem node_iter_perm).
    + intros x y (l1 & l2 & Heq & Hy).
      destruct l1 as [|a l1]; [by apply elem_of_nil in Hy|].
      by destruct l1.
    + by intros s t ?%elem_of_empty.
Qed.

(** A call of [_dfs_rec] on a node [n] that every node in progress (seen
    and not yet appended) reaches appends the nodes it marks so that each
    comes after its successors along edges that are no back edges. *)
Lemma _dfs_rec_ordered g be fin depth n seen post st' :
  wf g → NoDup fin → (∀ x, x ∈ fin ↔ x ∈ _nodes g) →
  decreasing (forward_edge g be) fin →
  n ∈ _nodes g →
  (∀ x, x ∈ post → x ∈ seen) →
  (∀ a, a ∈ seen → a ∉ post → rtc (forward_edge g be) a n) →
  decreasing (forward_edge g be) post →
  _dfs_rec g be depth n (seen, post) = Ok st' →
  seen ⊆ st'.1 ∧ n ∈ st'.1 ∧
  (∃ new, st'.2 = post ++ new ∧ ∀ x, x ∈ new ↔ x ∈ st'.1 ∧ x ∉ seen) ∧
  decreasing (forward_edge g be) st'.2.
Proof.
  intros Hwf Hfn Hfe Hfd. revert n seen post st'.
  induction depth as [|depth IH]; intros n seen post st' Hn Hps Hprog Hord;
    [done|].
  simpl. destruct (decide (n ∈ seen)) as [Hin|Hin].
  { intros [= <-]. simpl. split; [done|]. split; [done|]. split; [|done].
    exists []. rewrite app_nil_r. split; [done|]. intros x.
    rewrite elem_of_nil. naive_solver. }
  destruct (fold_res _ _ _) as [[sf pf]| |] eqn:Hfold; try done.
  simpl. intros [= <-]. simpl.
  pose proof Hwf as (_ & Hw & _).
  assert (seen ∪ {[n]} ⊆ sf ∧
          (∃ new, pf = post ++ new ∧
             ∀ x, x ∈ new ↔ x ∈ sf ∧ x ∉ seen ∪ {[n]}) ∧
          decreasing (forward_edge g be) pf ∧
          ∀ d, d ∈ node_iter (succs_of g n) → (n, d) ∉ be → d ∈ sf)
    as (Hsub & (new & -> & Hnew) & Hdec & Hdone).
  { revert Hfold.
    apply (fold_res_partial _ (λ l1 st,
      seen ∪ {[n]} ⊆ st.1 ∧
      (∃ new, st.2 = post ++ new ∧
         ∀ x, x ∈ new ↔ x ∈ st.1 ∧ x ∉ seen ∪ {[n]}) ∧
      decreasing (forward_edge g be) st.2 ∧
      ∀ d, d ∈ l1 → (n, d) ∉ be → d ∈ st.1)).
    - simpl. split; [done|]. split; [|split; [done|]].
      + exists []. rewrite app_nil_r. split; [done|]. intros x.
        rewrite elem_of_nil. naive_solver.
      + by intros d []%elem_of_nil.
    - intros l1 dest l2 [si pi] [si' pi'] Hl
        (Hsub & (new & Hpi & Hnew) & Hdec & Hdone) Hstep. simpl in *.
      subst pi.
      assert (dest ∈ succs_of g n) as Hdest.
      { apply (node_iter_elem node_iter_perm). rewrite Hl.
        apply elem_of_app. right. by left. }
      destruct (decide ((n, dest) ∈ be)) as [Hbe|Hbe].
      { injection Hstep as <- <-. split; [done|]. split; [by exists new|].
        split; [done|]. intros d [?| ->%list_elem_of_singleton]%elem_of_app;
          [auto|done]. }
      destruct (IH dest si (post ++ new) (si', pi')) as
        (Hsub' & Hd' & (new' & Hpi' & Hnew') & Hdec'); simpl in *.
      + by destruct (Hw n dest Hdest).
      + intros x [?|?%Hnew]%elem_of_app; [|naive_solver].
        apply Hsub, elem_of_union_l. by apply Hps.
      + intros a Ha Hap.
        assert (a ∈ seen ∪ {[n]}) as [Has| ->%elem_of_singleton]%elem_of_union.
        { destruct (decide (a ∈ seen ∪ {[n]})) as [|Hna]; [done|].
          destruct Hap. apply elem_of_app. right. by apply Hnew. }
        * eapply rtc_r; [|by split]. apply Hprog; [done|].
          intros ?. apply Hap, elem_of_app. by left.
        * apply rtc_once. by split.
      + done.
      + done.
      + split; [by etrans|]. split; [|split; [done|]].
        * exists (new ++ new'). rewrite Hpi', app_assoc. split; [done|].
          intros x. rewrite elem_of_app, Hnew, Hnew'. split.
          -- intros [[? ?]|[? ?]]; [by split; [apply Hsub'|]|].
             split; [done|]. intros ?. by apply H1, Hsub.
          -- intros [? ?]. destruct (decide (x ∈ si)); [by left|by right].
        * intros d [?| ->%list_elem_of_singleton]%elem_of_app Hnb;
            [by apply Hsub', Hdone|done]. }
  assert (n ∈ sf) as Hnsf.
  { apply Hsub, elem_of_union_r. by apply elem_of_singleton. }
  split; [by etrans; [apply union_subseteq_l|]|]. split; [done|]. split.
  - exists (new ++ [n]). rewrite app_assoc. split; [done|].
    intros x. rewrite elem_of_app, list_elem_of_singleton, Hnew,
      elem_of_union, elem_of_singleton.
    split; [intros [[? ?]| ->]; naive_solver|].
    intros [? ?]. destruct (decide (x = n)); [by right|left; naive_solver].
  - apply decreasing_snoc; [done|]. intros t [Ht Hnb].
    assert (t ∈ sf) as Htsf.
    { apply Hdone; [|done]. by apply (node_iter_elem node_iter_perm). }
    destruct (decide (t ∈ post ++ new)) as [|Hnp]; [done|]. exfalso.
    assert (rtc (forward_edge g be) t n) as Hcyc.
    { destruct (decide (t = n)) as [->|Htn]; [done|].
      apply Hprog.
      - destruct (decide (t ∈ seen)) as [|Hts]; [done|]. destruct Hnp.
        apply elem_of_app. right. apply Hnew. split; [done|].
        by intros [?| ->%elem_of_singleton]%elem_of_union.
      - intros ?. apply Hnp, elem_of_app. by left. }
    apply (decreasing_acyclic (forward_edge g be) fin n t); try done.
    by apply Hfe.
Qed.

Section more_recursion.
Context {limit : recursion_limit}.

(** The list that [_find_topo_order] reverses: the live nodes, each
    after its successors along edges that are no back edges. *)
Lemma _find_topo_order_decreasing g order :
  frozen g → _find_topo_order g = Ok order →
  ∃ e be fin pf,
    _entry_point g = Some e ∧ _find_back_edges g = Ok be ∧
    be_post g e be ∧
    (∀ s t, (s, t) ∈ be → rtc (forward_edge g be) t s) ∧
    NoDup fin ∧ (∀ x, x ∈ fin ↔ x ∈ _nodes g) ∧
    decreasing (forward_edge g be) fin ∧
    order = reverse pf ∧
    NoDup pf ∧ (∀ x, x ∈ pf ↔ x ∈ _nodes g) ∧
    decreasing (forward_edge g be) pf.
Proof.
  intros Hfr Hto.
  destruct (_find_back_edges_order g Hfr)
    as (e & be & fin & He & Hbe & Hpost & Hfn & Hfe & Hfd & Hcyc).
  pose proof (_find_topo_order_cases node_iter_perm g Hfr) as Hc.
  rewrite Hto in Hc. destruct Hc as [Hnd Hel].
  pose proof Hfr as [Hwf _].
  exists e, be, fin.
  unfold _find_topo_order in Hto. rewrite Hbe, He in Hto.
  unfold mbind, res_bind in Hto. cbv beta iota in Hto.
  destruct (_dfs_rec _ _ _ _ _) as [[sf pf]| |] eqn:Hrec; try done.
  simpl in Hto. injection Hto as <-.
  destruct (_dfs_rec_ordered g be fin max_depth e ∅ [] (sf, pf))
    as (_ & _ & _ & Hdec); try done.
  { by apply Hwf. }
  { by intros x ?%elem_of_nil. }
  exists pf. repeat (split; [done|]). split.
  { by rewrite <-(reverse_involutive pf), reverse_Permutation. }
  split; [|done]. intros x. by rewrite <-Hel, elem_of_reverse.
Qed.

(** X9.  On a processed graph, whenever [topo_order()] returns, it is a
    topological order of the graph without its back edges: an edge
    between live nodes that is no back edge leads from a node to a node
    that comes later in the order.  It returns when the graph has fewer
    live nodes than the interpreter allows nested calls.  And every back
    edge closes a cycle: its target reaches its source along edges that
    are no back edges. *)
Theorem topo_order_is_topological g0 g :
  wf g0 → process g0 = (g, Ok ()) →
  ∃ be,
    _find_back_edges g = Ok be ∧
    (∀ s t, (s, t) ∈ be → edge g s t ∧ rtc (forward_edge g be) t s) ∧
    (size (nodes g) < max_depth → ∃ order, topo_order g = Ok order) ∧
    ∀ order, topo_order g = Ok order →
      ∀ u v, u ∈ nodes g → forward_edge g be u v → before order u v.
Proof.
  intros Hwf0 Hp.
  pose proof (process_frozen node_iter_perm g0 g Hwf0 Hp) as Hfr.
  destruct (_find_back_edges_order g Hfr)
    as (e & be & fin & He & Hbe & [_ Hbe2] & _ & _ & _ & Hcyc).
  exists be. split; [done|]. split; [|split].
  - intros s t Hin. split; [|by apply Hcyc].
    by destruct (Hbe2 s t Hin).
  - intros Hlt.
    destruct (_find_topo_order_spec node_iter_perm g Hfr Hlt)
      as (order & Hto & _).
    by exists order.
  - intros order Hto u v Hu Huv.
    destruct (_find_topo_order_decreasing g order Hfr Hto)
      as (e' & be' & fin' & pf & _ & Hbe' & _ & _ & _ & _ & _ &
          -> & Hnd & Hel & Hdec).
    rewrite Hbe in Hbe'. injection Hbe' as <-.
    assert (u ∈ pf) as [i Hi]%list_elem_of_lookup by (by apply Hel).
    destruct (Hdec i u v Hi Huv) as (j & Hj & Hjv).
    pose proof (lookup_lt_Some _ _ _ Hi) as Hlt.
    exists (length pf - S i), (length pf - S j).
    split; [lia|]. split.
    + rewrite reverse_lookup by lia. rewrite <-Hi. f_equal. lia.
    + rewrite reverse_lookup by lia. rewrite <-Hjv. f_equal. lia.
Qed.

Lemma tc_step (R : relation node) x m :
  tc R x m ↔ ∃ t, R x t ∧ (m = t ∨ tc R t m).
Proof.
  split.
  - intros Htc. destruct Htc as [x y Hxy|x t y Hxt Hty];
      [exists y|exists t]; auto.
  - intros (t & Hxt & [->|Htm]); [by apply tc_once|by eapply tc_l].
Qed.

(** What [_find_descendents] returns once [_find_topo_order] has
    returned. *)
Lemma _find_descendents_spec g order :
  frozen g → _find_topo_order g = Ok order →
  ∃ descs be,
    _find_descendents g = Ok descs ∧ _find_back_edges g = Ok be ∧
    (∀ k, is_Some (descs !! k) ↔ k ∈ nodes g) ∧
    ∀ n, n ∈ nodes g →
      ∃ D, descendents g n = Ok D ∧ ∀ m, m ∈ D ↔ tc (forward_edge g be) n m.
Proof.
  intros Hfr Hto.
  destruct (_find_topo_order_decreasing g order Hfr Hto)
    as (e & be & fin & pf & He & Hbe & _ & _ & Hfn & Hfe & Hfd &
        -> & Hnd & Hel & Hdec).
  cut (∃ descs, _find_descendents g = Ok descs ∧
         (∀ k, is_Some (descs !! k) ↔ k ∈ pf) ∧
         ∀ n D, descs !! n = Some D →
           ∀ m, m ∈ D ↔ tc (forward_edge g be) n m).
  { intros (descs & Hd & Hk & HD). exists descs, be.
    split; [done|]. split; [done|]. split.
    - intros k. by rewrite Hk, Hel.
    - intros n Hn. destruct (proj2 (Hk n)) as [D HDn]; [by apply Hel|].
      exists D. split; [|by apply HD].
      unfold descendents. rewrite Hd. simpl. by rewrite HDn. }
  unfold _find_descendents. rewrite Hto, Hbe.
  unfold mbind, res_bind. cbv beta iota. rewrite reverse_involutive.
  apply (fold_res_rule _ (λ l1 descs,
    (∀ k, is_Some (descs !! k) ↔ k ∈ l1) ∧
    ∀ n D, descs !! n = Some D → ∀ m, m ∈ D ↔ tc (forward_edge g be) n m)).
  { split; [|done]. intros k. rewrite lookup_empty, elem_of_nil.
    split; [by intros [? ?]|done]. }
  intros l1 x l2 descs Hl [Hk HD].
  assert (x ∈ _nodes g) as Hx.
  { apply Hel. rewrite Hl. apply elem_of_app. right. by left. }
  assert (pf !! length l1 = Some x) as Hix.
  { rewrite Hl. by rewrite list_lookup_middle. }
  match goal with |- context [fold_res ?b ?a ?l] =>
    destruct (fold_res_rule b (λ s1 d,
      ∃ Dx, d = <[x := Dx]> descs ∧
        ∀ m, m ∈ Dx ↔ ∃ t, t ∈ s1 ∧ forward_edge g be x t ∧
                        (m = t ∨ tc (forward_edge g be) t m)) l a)
      as (d' & -> & Dx & -> & HDx)
  end.
  - exists ∅. split; [done|]. intros m. rewrite elem_of_empty.
    split; [done|]. by intros (t & []%elem_of_nil & _).
  - intros s1 t s2 d Hs (Dx & -> & HDx).
    assert (t ∈ succs_of g x) as Ht.
    { apply (node_iter_elem node_iter_perm). rewrite Hs.
      apply elem_of_app. right. by left. }
    destruct (decide ((x, t) ∉ be)) as [Hnb|Hb].
    + assert (forward_edge g be x t) as Hf by (by split).
      assert (t ≠ x) as Htx.
      { intros ->. apply (decreasing_acyclic (forward_edge g be) fin x x);
          try done. by apply Hfe. }
      destruct (Hdec _ x t Hix Hf) as (j & Hj & Hjt).
      assert (t ∈ l1) as Htl.
      { rewrite Hl, lookup_app_l in Hjt by done.
        by apply list_elem_of_lookup_2 in Hjt. }
      destruct (proj2 (Hk t) Htl) as [Dt HDt].
      rewrite lookup_insert_eq. simpl.
      rewrite lookup_insert_ne, HDt by done. simpl.
      eexists. split; [done|]. exists (Dx ∪ {[t]} ∪ Dt).
      split; [by rewrite insert_insert_eq|].
      intros m. rewrite !elem_of_union, elem_of_singleton, HDx, (HD t Dt HDt).
      setoid_rewrite elem_of_app. setoid_rewrite list_elem_of_singleton.
      split.
      * intros [[(t' & ? & ? & ?)| ->]|?]; [exists t'|exists t..]; auto.
      * intros (t' & [?| ->] & ? & [->|?]); [left; left; exists t'; auto..| |];
          auto.
    + eexists. split; [done|]. exists Dx. split; [done|].
      intros m. rewrite HDx.
      setoid_rewrite elem_of_app. setoid_rewrite list_elem_of_singleton.
      split.
      * intros (t' & ? & ? & ?). exists t'. auto.
      * intros (t' & [?| ->] & Hf & ?); [exists t'; auto|].
        destruct Hb. by destruct Hf.
  - eexists. split; [done|]. split.
    + intros k. rewrite elem_of_app, list_elem_of_singleton, <-Hk.
      destruct (decide (k = x)) as [->|Hkx].
      * rewrite lookup_insert_eq. split; [by right|eauto].
      * rewrite lookup_insert_ne by done. split; [by left|by intros [?|?]].
    + intros n D. destruct (decide (n = x)) as [->|Hnx].
      * rewrite lookup_insert_eq. intros [= <-] m.
        rewrite HDx, tc_step.
        split; intros (t & Ht); exists t; [by destruct Ht|].
        destruct Ht as [Hf ?]. split; [|done].
        apply (node_iter_elem node_iter_perm). by destruct Hf.
      * rewrite lookup_insert_ne by done. by apply HD.
Qed.

(** X11.  On a processed graph, whenever [_find_descendents] returns, its
    table has one key for each live node, and [descendents(n)] is the
    set of the nodes that [n] reaches by one or more edges that are no
    back edges.  It returns when the graph has fewer live nodes than the
    interpreter allows nested calls. *)
Theorem descendents_are_reachable g0 g :
  wf g0 → process g0 = (g, Ok ()) →
  ∃ be,
    _find_back_edges g = Ok be ∧
    (size (nodes g) < max_depth →
       ∃ descs, _find_descendents g = Ok descs) ∧
    ∀ descs, _find_descendents g = Ok descs →
      (∀ k, is_Some (descs !! k) ↔ k ∈ nodes g) ∧
      ∀ n, n ∈ nodes g →
        ∃ D, descendents g n = Ok D ∧
          ∀ m, m ∈ D ↔ tc (forward_edge g be) n m.
Proof.
  intros Hwf0 Hp.
  pose proof (process_frozen node_iter_perm g0 g Hwf0 Hp) as Hfr.
  destruct (_find_back_edges_spec node_iter_perm g Hfr)
    as (e & be & _ & Hbe & _).
  exists be. split; [done|]. split.
  - intros Hlt.
    destruct (_find_topo_order_spec node_iter_perm g Hfr Hlt)
      as (order & Hto & _).
    destruct (_find_descendents_spec g order Hfr Hto) as (descs & _ & ? & _).
    by exists descs.
  - intros descs Hd.
    destruct (_find_topo_order g) as [order| |] eqn:Hto.
    2,3: by unfold _find_descendents in Hd; rewrite Hto in Hd.
    destruct (_find_descendents_spec g order Hfr Hto)
      as (descs' & be' & Hd' & Hbe' & Hk & HD).
    rewrite Hd in Hd'. injection Hd' as <-.
    rewrite Hbe in Hbe'. injection Hbe' as <-.
    by split.
Qed.

(** X10.  On a processed graph, whenever [topo_sort] returns, it has
    yielded the live nodes of its argument, each once; a node of the
    argument that is not live is left out.  And it returns when the
    graph has fewer live nodes than the interpreter allows nested
    calls. *)
Theorem topo_sort_yields_live_members g0 g (ns : gset node) (rev : bool) :
  wf g0 → process g0 = (g, Ok ()) →
  (size (nodes g) < max_depth → ∃ l, topo_sort g ns rev = Ok l) ∧
  ∀ l, topo_sort g ns rev = Ok l →
    NoDup l ∧ ∀ n, n ∈ l ↔ n ∈ ns ∧ n ∈ nodes g.
Proof.
  intros Hwf0 Hp.
  pose proof (process_frozen node_iter_perm g0 g Hwf0 Hp) as Hfr. split.
  - intros Hlt.
    destruct (_find_topo_order_spec node_iter_perm g Hfr Hlt)
      as (order & Hto & _).
    unfold topo_sort, topo_order. rewrite Hto. simpl. eauto.
  - intros l Hl.
    pose proof (_find_topo_order_cases node_iter_perm g Hfr) as Hc.
    unfold topo_sort, topo_order in Hl.
    destruct (_find_topo_order g) as [order| |]; [|done..].
    destruct Hc as [Hnd Hel]. simpl in Hl. injection Hl as <-. split.
    + apply NoDup_filter. destruct rev; [|done].
      by rewrite reverse_Permutation.
    + intros n. rewrite list_elem_of_filter. unfold nodes. rewrite <-Hel.
      destruct rev; [|done]. by rewrite elem_of_reverse.
Qed.

End more_recursion.


(** X4.  [process] leaves a graph whose tables are consistent, whose
    edges join live nodes, and whose live nodes are all reachable from
    the entry point: no dangling edge survives the removal of the dead
    nodes. *)
Theorem process_keeps_tables_consistent g0 g :
  wf g0 → process g0 = (g, Ok ()) →
  (∀ s t, t ∈ succs_of g s ↔ s ∈ preds_of g t) ∧
  (∀ s t, t ∈ succs_of g s ↔ is_Some (_edge_data g !! (s, t))) ∧
  (∀ s t, t ∈ succs_of g s → s ∈ nodes g ∧ t ∈ nodes g) ∧
  ∃ e, _entry_point g = Some e ∧ e ∈ nodes g ∧
    ∀ n, n ∈ nodes g → reachable g e n.
Proof.
  intros Hwf Hp.
  destruct (process_frozen node_iter_perm g0 g Hwf Hp)
    as (([? ?] & ? & He) & e & Hentry & Hreach).
  repeat (split; [done|]). exists e. split; [done|]. split; [|done].
  by apply He.
Qed.

Lemma chain_avoid g e tos rest t :
  chain g e (tos :: rest) → t ∉ tos :: rest →
  e ≠ t ∧ rtc (λ a b, b ∈ succs_of g a ∧ b ≠ t) e tos.
Proof.
  revert tos. induction rest as [|x rest IH]; intros tos; simpl.
  - intros -> Ht. split; [|done]. intros ->. apply Ht. by left.
  - intros [Hxt Hc] Ht.
    destruct (IH x Hc) as [? Hr].
    { intros ?. apply Ht. by right. }
    split; [done|]. eapply rtc_r; [exact Hr|]. split; [done|].
    intros ->. apply Ht. by left.
Qed.

Lemma dominates_on_chain g e tos rest t :
  chain g e (tos :: rest) → dominates g e t tos → t ∈ tos :: rest.
Proof.
  intros Hc Hd. destruct (decide (t ∈ tos :: rest)) as [|Hn]; [done|].
  destruct (chain_avoid g e tos rest t Hc Hn) as [? ?].
  destruct Hd. exists e. split; [by apply elem_of_singleton|]. done.
Qed.

(** X8.  An edge of a processed graph whose target dominates its source
    is a back edge. *)
Theorem dominating_edges_are_back_edges g0 g :
  wf g0 → process g0 = (g, Ok ()) →
  ∃ e be,
    _entry_point g = Some e ∧ _find_back_edges g = Ok be ∧
    ∀ s t, s ∈ nodes g → edge g s t → dominates g e t s → (s, t) ∈ be.
Proof.
  intros Hwf0 Hp.
  pose proof (process_frozen node_iter_perm g0 g Hwf0 Hp) as Hfr.
  destruct (_find_back_edges_spec node_iter_perm g Hfr)
    as (e & be & Hentry & Hbe & Hpost).
  destruct Hfr as (Hwf & e' & Hentry' & Hreach).
  assert (e' = e) as -> by congruence.
  exists e, be. split; [done|]. split; [done|].
  assert (e ∈ _nodes g) as He by (by apply Hwf).
  unfold _find_back_edges, entry_point in Hbe. rewrite Hentry in Hbe.
  unfold mbind, res_bind in Hbe. cbv beta iota in Hbe.
  destruct (be_inv_init node_iter_perm g e He) as [Hinit _].
  revert Hbe. unfold nodes.
  apply (loop_partial (_find_back_edges_step g)
    (λ st, be_inv g e st ∧ be_dom g e st)
    (λ be, ∀ s t, s ∈ _nodes g → edge g s t → dominates g e t s →
                  (s, t) ∈ be)).
  - intros [stack m ck be0] [Hinv [Hch Hdom]].
    unfold _find_back_edges_step; simpl in *.
    destruct stack as [|tos rest].
    + destruct Hinv as (_ & _ & Hr & Hpend & Hcl & He' & _). simpl in *.
      assert (∀ x, x ∈ ck → be_pend g (mkBE [] m ck be0) x = []) as Hpe.
      { intros x Hx. unfold be_pend; simpl.
        destruct (decide (x ∈ [])) as [Hn|_]; [by apply elem_of_nil in Hn|].
        by rewrite decide_True. }
      intros s t Hs Hst Hd.
      assert (s ∈ ck) as Hsck.
      { apply (reachable_closed g e); [| |by apply Hreach].
        - destruct He' as [[]%elem_of_nil|?]; done.
        - intros a b Ha Hb.
          destruct (Hcl a b) as [Hp'|[?|[]%elem_of_nil]];
            [by right|done| |done].
          rewrite Hpe in Hp' by done. by apply elem_of_nil in Hp'. }
      apply Hdom; [by right|done| |done].
      rewrite Hpe by done. apply not_elem_of_nil.
    + pose proof Hinv as (Hnd & Hst & _ & Hpend & _).
      destruct (Hst tos) as [_ [l Hl]]; [by left|].
      simpl in Hl. rewrite Hl.
      pose proof (be_pend_tos g tos rest m ck be0 _ Hl) as Htos.
      destruct l as [|cur more].
      * split; [by apply be_step_pop|]. split; simpl.
        -- destruct rest as [|x rest]; [done|]. by destruct Hch.
        -- pose proof (λ x, be_pend_pop g tos rest m ck be0 x Hnd Hl) as Hpe.
           intros x t Hx Ht Hnp Hd. rewrite Hpe in Hnp.
           apply Hdom; [|done..].
           destruct Hx as [?|[?| ->%elem_of_singleton]%elem_of_union];
             [left; by right|by right|left; by left].
      * simpl.
        pose proof (λ be' x, be_pend_next g tos rest m ck be0 be' cur more x Hl)
          as Hpe.
        assert (∀ be', be0 ⊆ be' →
                  (cur ∈ tos :: rest → (tos, cur) ∈ be') →
                  be_dom g e (mkBE (tos :: rest) (<[tos := more]> m) ck be'))
          as Hnext.
        { intros be' Hsub Hcur. split; [done|]. simpl.
          intros x t Hx Ht Hnp Hd. rewrite Hpe in Hnp.
          destruct (decide (x = tos ∧ t = cur)) as [[-> ->]|Hne].
          - apply Hcur. by apply (dominates_on_chain g e).
          - apply Hsub, Hdom; [done..| |done].
            case_decide as Hxt; [|done]. subst x. rewrite Htos.
            intros [->|?]%elem_of_cons; [by destruct Hne|done]. }
        destruct (decide (cur ∈ tos :: rest)) as [Hcs|Hcs].
        -- split.
           ++ by apply (be_step_next g e tos rest m ck be0 cur more); auto.
           ++ apply Hnext; [apply union_subseteq_l|].
              intros _. apply elem_of_union_r. by apply elem_of_singleton.
        -- destruct (decide (cur ∉ ck)) as [Hcc|Hcc].
           ++ split.
              ** by apply (be_step_push node_iter_perm
                             g e tos rest m ck be0 cur more).
              ** pose proof (λ x, be_pend_push g tos rest m ck be0
                                    cur more x Hl Hcs Hcc) as Hpp.
                 destruct (Hpend tos) as [_ Hsub]. rewrite Htos in Hsub.
                 split; simpl.
                 --- split; [|done]. apply Hsub. by left.
                 --- intros x t Hx Ht Hnp Hd. rewrite Hpp in Hnp.
                     destruct (decide (x = cur)) as [->|Hxc].
                     { destruct Hnp.
                       by apply elem_of_reverse,
                         (node_iter_elem node_iter_perm). }
                     assert (x ∈ tos :: rest ∨ x ∈ ck) as Hx'.
                     { destruct Hx as [[?|?]%elem_of_cons|?];
                         [done|by left|by right]. }
                     destruct (decide (x = tos)) as [->|Hxt].
                     +++ destruct (decide (t = cur)) as [->|Htc].
                         { destruct Hcs. by apply (dominates_on_chain g e). }
                         apply Hdom; [done..| |done]. rewrite Htos.
                         by intros [?|?]%elem_of_cons.
                     +++ by apply Hdom.
           ++ apply dec_stable in Hcc. split.
              ** by apply (be_step_next g e tos rest m ck be0 cur more); auto.
              ** apply Hnext; [done|]. by intros ?.
  - split; [done|]. split; [done|]. simpl.
    intros x t [->%list_elem_of_singleton|[]%elem_of_empty] Ht Hnp.
    destruct Hnp. unfold be_pend; simpl.
    rewrite decide_True, lookup_insert_eq by (by left). simpl.
    rewrite foldl_cons, app_nil_r.
    by apply elem_of_reverse, (node_iter_elem node_iter_perm).
Qed.

(** X2.  An edge that [add_edge] has added is yielded, with the payload
    given, by [successors] of its source and by [predecessors] of its
    destination, and the graph stays well formed. *)
Theorem add_edge_then_successors g g' (src dest : node) (d : option data) :
  wf g → add_edge src dest d g = (g', Ok ()) →
  wf g' ∧
  ∃ ls lp,
    successors g' src = Ok ls ∧ (dest, d) ∈ ls ∧
    predecessors g' dest = Ok lp ∧ (src, d) ∈ lp.
Proof.
  intros Hwf Hadd. pose proof (add_edge_wf src dest d g Hwf) as Hwf'.
  rewrite Hadd in Hwf'. simpl in Hwf'. split; [done|].
  assert (_edge_data g' !! (src, dest) = Some d) as Hd.
  { unfold add_edge in Hadd. repeat case_decide; simplify_eq.
    simpl. by rewrite lookup_insert_eq. }
  destruct Hwf' as [Hc _]. pose proof Hc as [Hsp Hsd].
  exists ((λ t, (t, default None (_edge_data g' !! (src, t))))
            <$> node_iter (succs_of g' src)),
         ((λ s, (s, default None (_edge_data g' !! (s, dest))))
            <$> node_iter (preds_of g' dest)).
  split; [by apply successors_Ok|]. split.
  { apply list_elem_of_fmap. exists dest. rewrite Hd. split; [done|].
    apply (node_iter_elem node_iter_perm), Hsd. eauto. }
  split; [by apply predecessors_Ok|].
  apply list_elem_of_fmap. exists src. rewrite Hd. split; [done|].
  apply (node_iter_elem node_iter_perm), Hsp, Hsd. eauto.
Qed.

(** X5.  [process] on a processed graph succeeds and changes neither the
    nodes nor the edges; it sets the dead nodes to the empty set. *)
Theorem process_idempotent g0 g :
  wf g0 → process g0 = (g, Ok ()) →
  ∃ g', process g = (g', Ok ()) ∧
    nodes g' = nodes g ∧ dead_nodes g' = Ok ∅ ∧
    (∀ n, succs_of g' n = succs_of g n) ∧
    (∀ n, preds_of g' n = preds_of g n) ∧
    _edge_data g' = _edge_data g ∧
    _entry_point g' = _entry_point g.
Proof.
  intros Hwf Hp.
  destruct (process_frozen node_iter_perm g0 g Hwf Hp)
    as (Hwfg & e & He & Hreach).
  destruct (process_spec node_iter_perm g e Hwfg He)
    as (g' & Hp' & Hn & Hsub & Hdead & He' & Hs & Hpr & Hd & _).
  assert (_nodes g' = _nodes g) as Heq.
  { apply set_eq. intros n. rewrite Hn. split; [|by apply Hreach].
    intros Hr. by apply Hsub, Hn. }
  rewrite Heq in *.
  replace (_nodes g ∖ _nodes g) with (∅ : gset node) in * by set_solver.
  exists g'. split; [done|]. split; [done|].
  split; [unfold dead_nodes; by rewrite Hdead|].
  split. { intros n. rewrite Hs, decide_False by set_solver.
           unfold succs_of. simpl. set_solver. }
  split. { intros n. rewrite Hpr, decide_False by set_solver.
           unfold preds_of. simpl. set_solver. }
  split; [|congruence].
  apply map_eq. intros [s t]. rewrite Hd, decide_False by set_solver. done.
Qed.

(** A relation that decreases along a list without repetition has no
    cycle of one or more steps through an element of the list. *)
Lemma decreasing_no_cycle (R : relation node) (l : list node) a :
  NoDup l → decreasing R l → a ∈ l → tc R a a → False.
Proof.
  intros Hnd Hd Ha (t & Hat & [->|Hta])%tc_step.
  - by apply (decreasing_acyclic R l t t Hnd Hd Ha Hat).
  - apply (decreasing_acyclic R l a t Hnd Hd Ha Hat). by apply tc_rtc.
Qed.

Lemma po_step_ok g e be fin st :
  wf g → NoDup fin → (∀ x, x ∈ fin ↔ x ∈ _nodes g) →
  decreasing (forward_edge g be) fin →
  (∀ n, n ∈ _nodes g → rtc (forward_edge g be) e n) →
  po_inv g be e st →
  match _find_postorder_step g be st with
  | Ok (inl st') => po_inv g be e st' ∧ po_measure g st' < po_measure g st
  | Ok (inr post) =>
      NoDup post ∧ (∀ x, x ∈ post ↔ x ∈ _nodes g) ∧
      decreasing (forward_edge g be) post
  | _ => False
  end.
Proof.
  intros Hwf Hfn Hfe Hfd Hreach.
  assert (∀ a, a ∈ _nodes g → ¬ tc (forward_edge g be) a a) as Hacyc.
  { intros a Ha Htc. apply (decreasing_no_cycle _ fin a Hfn Hfd); [|done].
    by apply Hfe. }
  destruct st as [[stack seen] post].
  intros (Hnd & Hseen & Hpost & Hcb & Hpn & Hdec & Hsucc & Hover & Hentry).
  simpl in *. destruct stack as [|[m|m] rest].
  - (* the stack is empty *)
    destruct Hentry as [He|?]; [|done].
    split; [done|]. split; [|done].
    intros x. split; [by apply Hpn|]. intros Hx.
    apply Hseen in He as [He|He]; [|by apply elem_of_nil in He].
    apply list_elem_of_lookup in He as [i Hi].
    destruct (decreasing_rtc _ post e x i Hdec Hi (Hreach x Hx))
      as (j & _ & Hj).
    by eapply list_elem_of_lookup_2.
  - (* [dfs_rec m] is on top *)
    assert (m ∈ _nodes g) as Hmn by (apply (Hcb (dfs_rec m)); left).
    destruct (decide (m ∉ seen)) as [Hm|Hm%dec_stable].
    + (* [m] is seen for the first time *)
      rewrite postorder_pushes.
      set (P := reverse (dfs_rec <$>
                  filter (λ dest, (m, dest) ∉ be) (node_iter (succs_of g m)))).
      assert (∀ c, c ∈ P ↔ ∃ d, c = dfs_rec d ∧ forward_edge g be m d) as HP.
      { intros c. unfold P. rewrite elem_of_reverse, list_elem_of_fmap.
        unfold forward_edge. split.
        - intros (d & -> & [Hd1 Hd2]%list_elem_of_filter). exists d.
          split; [done|]. split; [|done].
          by apply (node_iter_elem node_iter_perm).
        - intros (d & -> & Hd1 & Hd2). exists d. split; [done|].
          apply list_elem_of_filter. split; [done|].
          by apply (node_iter_elem node_iter_perm). }
      assert (length P ≤ size (succs_of g m)) as HPlen.
      { unfold P. rewrite length_reverse, length_fmap.
        rewrite <-(node_iter_length node_iter_perm). apply length_filter. }
      assert (∀ x, post_order_append x ∉ P) as HPa.
      { intros x (d & ? & _)%HP. done. }
      clearbody P. split.
      * split; [done|]. simpl. split.
        { intros x. rewrite elem_of_union, elem_of_singleton, Hseen.
          rewrite elem_of_app, !elem_of_cons. specialize (HPa x).
          naive_solver. }
        split.
        { intros x Hx [?%HPa|[ [= ->]|Hin]%elem_of_cons]%elem_of_app; [done|..].
          - apply Hm, Hseen. by left.
          - apply (Hpost x Hx). by right. }
        split.
        { intros c [(d & -> & Hd & _)%HP|[->|Hc]%elem_of_cons]%elem_of_app.
          - simpl. by apply Hwf in Hd as [_ ?].
          - done.
          - apply Hcb. by right. }
        split; [done|]. split; [done|]. split.
        { intros n t [?%HPa|[ [= ->]|Hn]%elem_of_cons]%elem_of_app Hnt;
            [done|..].
          - right. exists (dfs_rec t). split; [|done].
            apply over_app. right. left. split; [|by left].
            apply HP. by exists t.
          - destruct (Hsucc n t) as [Ht|(c & Hc & Hct)];
              [by right|done|by left|].
            right. apply over_cons in Hc as [Hc|[-> Hin]].
            + exists c. split; [|done]. apply over_app. right. right.
              apply over_cons. by left.
            + exists (post_order_append m). split; [|done].
              apply over_app. right. right. apply over_cons. by right. }
        split.
        { intros n c [Ho|[[Hc Hn]|Ho]]%over_app.
          - apply over_elem in Ho as [_ ?%HPa]. done.
          - apply HP in Hc as (d & -> & Hd). simpl.
            apply elem_of_cons in Hn as [ [= ->]|Hn]; [by apply tc_once|].
            eapply tc_r; [|exact Hd].
            apply (Hover n (dfs_rec m)), over_cons. by right.
          - apply over_cons in Ho as [Ho|[-> Hn]].
            + apply Hover, over_cons. by left.
            + apply (Hover n (dfs_rec m)), over_cons. by right. }
        left. destruct Hentry as [?|[= -> ->]]; set_solver.
      * unfold po_measure. simpl. rewrite length_app. simpl.
        rewrite (node_weight_remove g (_nodes g ∖ seen) m)
          by (apply elem_of_difference; done).
        replace (_nodes g ∖ seen ∖ {[m]}) with (_nodes g ∖ (seen ∪ {[m]}))
          by set_solver.
        lia.
    + (* [m] was seen before *)
      split; [|unfold po_measure; simpl; lia].
      split; [done|]. simpl. split.
      { intros x. rewrite Hseen, elem_of_cons. naive_solver. }
      split. { intros x Hx Hin. apply (Hpost x Hx). by right. }
      split. { intros c Hc. apply Hcb. by right. }
      split; [done|]. split; [done|]. split.
      { intros n t Hn Hnt.
        destruct (Hsucc n t) as [Ht|(c & Hc & Hct)];
          [by right|done|by left|].
        apply over_cons in Hc as [Hc|[-> Hin]]; [right; by exists c|].
        simpl in Hct. subst t.
        apply Hseen in Hm as [Hm|Hm]; [by left|].
        apply elem_of_cons in Hm as [?|Hm]; [done|].
        destruct (over_total rest (post_order_append m)
                    (post_order_append n) Hm Hn) as [ [= ->]|[Ho|Ho]].
        - destruct (Hacyc n Hmn). by apply tc_once.
        - right. by exists (post_order_append m).
        - destruct (Hacyc m Hmn). eapply tc_r; [|exact Hnt].
          apply (Hover m (post_order_append n)), over_cons. by left. }
      split. { intros n c Ho. apply Hover, over_cons. by left. }
      destruct Hentry as [?|[= -> ->]]; by left.
  - (* [post_order.append m] is on top *)
    assert (m ∈ _nodes g) as Hmn
      by (apply (Hcb (post_order_append m)); left).
    assert (post_order_append m ∉ rest) as Hmr.
    { intros Hin. destruct (Hacyc m Hmn).
      apply (Hover m (post_order_append m)), over_cons. by right. }
    assert (m ∉ post) as Hmp.
    { intros Hin. apply (Hpost m Hin). by left. }
    split; [|unfold po_measure; simpl; lia].
    split.
    { simpl. apply NoDup_app. split; [done|]. split; [|apply NoDup_singleton].
      intros x Hx ->%list_elem_of_singleton. done. }
    simpl. split.
    { intros x. rewrite Hseen, elem_of_app, elem_of_cons,
        list_elem_of_singleton. naive_solver. }
    split.
    { intros x [Hx| ->%list_elem_of_singleton]%elem_of_app; [|done].
      intros Hin. apply (Hpost x Hx). by right. }
    split. { intros c Hc. apply Hcb. by right. }
    split.
    { intros x [Hx| ->%list_elem_of_singleton]%elem_of_app; auto. }
    split.
    { apply decreasing_snoc; [done|]. intros t Hmt.
      destruct (Hsucc m t) as [Ht|(c & Hc & Hct)]; [by left|done|done|].
      apply over_cons in Hc as [[_ ?]%over_elem|[_ ?]]; done. }
    split.
    { intros n t Hn Hnt.
      destruct (Hsucc n t) as [Ht|(c & Hc & Hct)]; [by right|done|..].
      { left. apply elem_of_app. by left. }
      apply over_cons in Hc as [Hc|[-> Hin]]; [right; by exists c|].
      left. simpl in Hct. subst t. apply elem_of_app. right.
      by apply list_elem_of_singleton. }
    split. { intros n c Ho. apply Hover, over_cons. by left. }
    destruct Hentry as [?|?]; [by left|done].
Qed.

Lemma _find_postorder_spec g :
  frozen g →
  ∃ e be post,
    _entry_point g = Some e ∧ _find_back_edges g = Ok be ∧
    be_post g e be ∧
    _find_postorder g = Ok post ∧ NoDup post ∧
    (∀ x, x ∈ post ↔ x ∈ _nodes g) ∧ decreasing (forward_edge g be) post.
Proof.
  intros Hfr.
  destruct (_find_back_edges_order g Hfr)
    as (e & be & fin & He & Hbe & Hbp & Hfn & Hfe & Hfd & _).
  pose proof Hfr as [Hwf _]. pose proof Hbp as [Hreach _].
  exists e, be. unfold _find_postorder. rewrite Hbe, He. simpl.
  destruct (loop_rule (_find_postorder_step g be) (po_inv g be e)
              (po_measure g)
              (λ post, NoDup post ∧ (∀ x, x ∈ post ↔ x ∈ _nodes g) ∧
                       decreasing (forward_edge g be) post))
    with (fuel := S (S (node_weight g (_nodes g))))
         (s := ([dfs_rec e], (∅ : gset node), ([] : list node)))
    as (post & Hl & HQ).
  - intros st Hst. by apply (po_step_ok g e be fin st).
  - split; [apply NoDup_nil_2|]. simpl. split.
    { intros x. rewrite elem_of_empty, elem_of_nil, list_elem_of_singleton.
      naive_solver. }
    split. { by intros x ?%elem_of_nil. }
    split.
    { intros c ->%list_elem_of_singleton. simpl. by apply Hwf. }
    split. { by intros x ?%elem_of_nil. }
    split. { intros i x t Hi. by rewrite lookup_nil in Hi. }
    split. { by intros n t ?%list_elem_of_singleton. }
    split. { by intros n c [_ ?%list_elem_of_singleton]%over_elem. }
    by right.
  - unfold po_measure. simpl.
    replace (_nodes g ∖ ∅) with (_nodes g) by set_solver. lia.
  - exists post. by repeat (split; [done|]).
Qed.

(** X12.  On a processed graph [_find_postorder] returns a list that
    holds every live node once and ends with the entry point, and in
    which a node comes after each of its successors, for the edges that
    are no back edges. *)
Theorem postorder_lists_successors_first g0 g :
  wf g0 → process g0 = (g, Ok ()) →
  ∃ e be post,
    _entry_point g = Some e ∧ _find_back_edges g = Ok be ∧
    _find_postorder g = Ok post ∧
    NoDup post ∧ (∀ x, x ∈ post ↔ x ∈ nodes g) ∧ last post = Some e ∧
    ∀ u v, u ∈ nodes g → forward_edge g be u v → before post v u.
Proof.
  intros Hwf0 Hp.
  pose proof (process_frozen node_iter_perm g0 g Hwf0 Hp) as Hfr.
  destruct (_find_postorder_spec g Hfr)
    as (e & be & post & He & Hbe & [Hreach _] & Hpo & Hnd & Hel & Hdec).
  pose proof Hfr as [Hwf _].
  exists e, be, post. repeat (split; [done|]). split.
  - assert (e ∈ post) as [i Hi]%list_elem_of_lookup.
    { apply Hel. by apply Hwf. }
    rewrite last_lookup.
    pose proof (lookup_lt_Some _ _ _ Hi) as Hlt.
    destruct (post !! pred (length post)) as [x|] eqn:Hx.
    2:{ apply lookup_ge_None in Hx. lia. }
    assert (x ∈ _nodes g) as Hxn.
    { apply Hel. by eapply list_elem_of_lookup_2. }
    destruct (decreasing_rtc _ post e x i Hdec Hi (Hreach x Hxn))
      as (j & Hj & Hjx).
    pose proof (NoDup_lookup post _ _ x Hnd Hx Hjx).
    assert (i = pred (length post)) as -> by lia.
    congruence.
  - intros u v Hu Huv.
    assert (u ∈ post) as [i Hi]%list_elem_of_lookup by (by apply Hel).
    destruct (Hdec i u v Hi Huv) as (j & Hj & Hjv).
    by exists j, i.
Qed.

Section more_edge_order.
Hypothesis edge_iter_perm : enumerates edge_iter.

(** The bodies that [_find_loops] collects: one for each target of a
    back edge, the union of the natural loops of the back edges to it. *)
Lemma _find_loops_bodies_natural g be bodies :
  consistent g → _find_loops_bodies g be = Ok bodies →
  NoDup bodies.*1 ∧
  (∀ h, h ∈ bodies.*1 ↔ ∃ s, (s, h) ∈ be) ∧
  ∀ h B, (h, B) ∈ bodies →
    ∀ x, x ∈ B ↔ ∃ s, (s, h) ∈ be ∧ in_natural_loop g h s x.
Proof.
  intros Hc Hb. unfold _find_loops_bodies in Hb.
  cut (NoDup bodies.*1 ∧
       (∀ h, h ∈ bodies.*1 ↔ ∃ s, (s, h) ∈ edge_iter be) ∧
       ∀ h B, (h, B) ∈ bodies →
         ∀ x, x ∈ B ↔ ∃ s, (s, h) ∈ edge_iter be ∧ in_natural_loop g h s x).
  { intros (? & Hk & HB). split; [done|]. split.
    - intros h. rewrite Hk. by setoid_rewrite (edge_iter_elem edge_iter_perm).
    - intros h B HhB x. rewrite (HB h B HhB).
      by setoid_rewrite (edge_iter_elem edge_iter_perm). }
  revert Hb.
  apply (fold_res_partial _ (λ l1 bodies,
    NoDup bodies.*1 ∧
    (∀ h, h ∈ bodies.*1 ↔ ∃ s, (s, h) ∈ l1) ∧
    ∀ h B, (h, B) ∈ bodies →
      ∀ x, x ∈ B ↔ ∃ s, (s, h) ∈ l1 ∧ in_natural_loop g h s x)).
  - split; [apply NoDup_nil_2|]. split.
    + intros h. simpl. rewrite elem_of_nil. split; [done|].
      by intros (? & []%elem_of_nil).
    + by intros h B []%elem_of_nil.
  - intros l1 [src h0] l2 acc acc' _ (Hnd & Hk & HB) Hstep.
    unfold mbind, res_bind in Hstep.
    destruct (loop _ _ _) as [B0| |] eqn:Hloop; try done.
    pose proof (_find_loops_body_natural g src h0 _ B0 Hc Hloop)
      as HB0.
    assert (∃ B1, acc' = odict.set h0 B1 acc ∧
              ∀ x, x ∈ B1 ↔
                ∃ s, (s, h0) ∈ l1 ++ [(src, h0)] ∧ in_natural_loop g h0 s x)
      as (B1 & -> & HB1).
    { destruct (odict.get h0 acc) as [Bold|] eqn:Hget.
      - injection Hstep as <-. eexists. split; [done|].
        apply odict_get_Some in Hget.
        intros x. rewrite elem_of_union, (HB _ _ Hget), HB0.
        setoid_rewrite elem_of_app. setoid_rewrite list_elem_of_singleton.
        split.
        + intros [(s & ? & ?)|?]; [exists s|exists src]; auto.
        + intros (s & [?|[= ->]] & ?); [left; by exists s|by right].
      - injection Hstep as <-. eexists. split; [done|].
        apply odict_get_None in Hget.
        intros x. rewrite HB0.
        setoid_rewrite elem_of_app. setoid_rewrite list_elem_of_singleton.
        split.
        + intros ?. exists src. auto.
        + intros (s & [Hs|[= ->]] & ?); [|done].
          destruct Hget. apply Hk. by exists s. }
    destruct (odict_set_NoDup h0 B1 acc Hnd) as [Hnd' Hk'].
    split; [done|]. split.
    + intros h. rewrite Hk', Hk.
      setoid_rewrite elem_of_app. setoid_rewrite list_elem_of_singleton.
      split.
      * intros [->|(s & ?)]; [exists src; by right|exists s; by left].
      * intros (s & [?|[= -> ->]]); [right; by exists s|by left].
    + intros h B [[-> ->]|[Hne Hin]]%odict_set_elem; [done| |done].
      intros x. rewrite (HB h B Hin).
      setoid_rewrite elem_of_app. setoid_rewrite list_elem_of_singleton.
      split.
      * intros (s & ? & ?). exists s. auto.
      * intros (s & [?|[= -> ->]] & ?); [by exists s|done].
Qed.

(** X13.  What [loops()] returns on a processed graph: one loop for each
    target of a back edge, under this header as its key; the body of the
    loop is the header together with the nodes that reach the source of
    a back edge to the header without passing through the header (the
    natural loop); its entries are the nodes outside the body with an
    edge into it and its exits the nodes outside with an edge from it. *)
Theorem loops_are_natural_loops g0 g :
  wf g0 → process g0 = (g, Ok ()) →
  ∃ ls be,
    loops g = Ok ls ∧ _find_back_edges g = Ok be ∧
    NoDup ls.*1 ∧
    (∀ h, h ∈ ls.*1 ↔ ∃ s, (s, h) ∈ be) ∧
    ∀ h L, (h, L) ∈ ls →
      header L = h ∧
      (∀ x, x ∈ body L ↔ ∃ s, (s, h) ∈ be ∧ in_natural_loop g h s x) ∧
      (∀ p, p ∈ entries L ↔ (p ∉ body L) ∧ ∃ n, n ∈ body L ∧ edge g p n) ∧
      (∀ x, x ∈ exits L ↔ (x ∉ body L) ∧ ∃ n, n ∈ body L ∧ edge g n x).
Proof.
  intros Hwf Hp.
  pose proof (process_frozen node_iter_perm g0 g Hwf Hp) as Hfr.
  destruct (_find_back_edges_spec node_iter_perm g Hfr)
    as (e & be & Hentry & Hbe & Hpost).
  destruct Hfr as [Hwfg _]. pose proof Hwfg as (Hc & _).
  destruct (_find_loops_bodies_spec node_iter_perm edge_iter_perm
              g e be Hwfg Hpost) as (bodies & Hb & _ & _).
  destruct (_find_loops_bodies_natural g be bodies Hc Hb) as (Hnd & Hk & HB).
  exists (make_loop g <$> bodies), be.
  split.
  { unfold loops, _find_loops. rewrite Hbe.
    unfold mbind at 1, res_bind at 1. cbv beta iota. rewrite Hb.
    unfold mbind, res_bind. cbv beta iota. f_equal.
    etrans; [|apply (foldl_odict_set_fresh (λ hb, (make_loop g hb).2) bodies []);
                [done|by intros k _ ?%elem_of_nil]].
    apply foldl_ext. intros acc [h B]. unfold make_loop. simpl.
    by destruct (foldl _ _ _). }
  split; [done|]. rewrite make_loop_keys. split; [done|]. split; [done|].
  intros h L ([h' B] & [= -> ->] & Hin)%list_elem_of_fmap. simpl.
  split; [done|]. split; [by apply HB|].
  destruct (entries_exits_fold g B (node_iter B) ∅ ∅) as [HE HX].
  destruct Hc as [Hsp _]. split.
  - intros p. rewrite HE, elem_of_empty.
    setoid_rewrite (node_iter_elem node_iter_perm). unfold edge.
    setoid_rewrite Hsp. naive_solver.
  - intros x. rewrite HX, elem_of_empty.
    setoid_rewrite (node_iter_elem node_iter_perm). unfold edge.
    naive_solver.
Qed.

(** X14.  Two loops of one processed graph that [Loop.__eq__] takes for
    equal (they have the same header) are the same loop. *)
Theorem loop_eq_is_identity g0 g :
  wf g0 → process g0 = (g, Ok ()) →
  ∃ ls, loops g = Ok ls ∧
    ∀ L1 L2, L1 ∈ odict.values ls → L2 ∈ odict.values ls →
      Loop_eq L1 L2 = true ↔ L1 = L2.
Proof.
  intros Hwf Hp.
  pose proof (process_frozen node_iter_perm g0 g Hwf Hp) as Hfr.
  destruct (_find_in_loops_spec node_iter_perm edge_iter_perm g Hfr)
    as (ls & _ & Hl & _ & Hnd & Hls & _).
  exists ls. split; [done|].
  intros L1 L2 ([h1 L1'] & -> & H1)%list_elem_of_fmap
    ([h2 L2'] & -> & H2)%list_elem_of_fmap. simpl.
  unfold Loop_eq. rewrite bool_decide_eq_true.
  destruct (Hls _ _ H1) as [Hh1 _]. destruct (Hls _ _ H2) as [Hh2 _].
  split; [|by intros ->].
  intros Heq. rewrite Hh1, Hh2 in Heq. subst h2.
  pose proof (odict_get_elem _ _ _ Hnd H1) as E1.
  pose proof (odict_get_elem _ _ _ Hnd H2) as E2. congruence.
Qed.

(** X15.  [in_loops] of a node that is not live is the empty list, and
    no error. *)
Theorem in_loops_of_unknown_node g0 g (n : node) :
  wf g0 → process g0 = (g, Ok ()) → n ∉ nodes g → in_loops g n = Ok [].
Proof.
  intros Hwf Hp Hn.
  pose proof (process_frozen node_iter_perm g0 g Hwf Hp) as Hfr.
  destruct (_find_in_loops_spec node_iter_perm edge_iter_perm g Hfr)
    as (ls & table & Hl & Ht & _ & _ & Htn).
  unfold in_loops. rewrite Ht, Hl. unfold mbind, res_bind. cbv beta iota.
  by rewrite Htn, decide_False.
Qed.

(** ** Post-dominators *)

Lemma link_sink_sources d Ls g :
  linked d (sink_sources Ls) g (link_sink d Ls g).
Proof.
  unfold link_sink, sink_sources.
  cut (∀ g1 W, linked d W g g1 →
         linked d (W ∪ ⋃ ((λ L, if decide (exits L = ∅) then body L else ∅)
                            <$> Ls)) g
           (foldl (λ g loop,
                     if decide (exits loop = ∅) then
                       foldl (λ g b, _add_edge b d None g) g
                         (node_iter (body loop))
                     else g) g1 Ls)).
  { intros Hc. specialize (Hc g ∅ (linked_refl d g)).
    by rewrite union_empty_l_L in Hc. }
  induction Ls as [|L Ls IH]; intros g1 W Hl; simpl.
  { by rewrite union_empty_r_L. }
  rewrite (assoc_L (∪)). apply IH.
  destruct (decide (exits L = ∅)); [|by rewrite union_empty_r_L].
  cut (∀ l g1 W, linked d W g g1 →
         linked d (W ∪ list_to_set l) g
           (foldl (λ g b, _add_edge b d None g) g1 l)).
  { intros Hc. specialize (Hc (node_iter (body L)) g1 W Hl).
    assert (list_to_set (node_iter (body L)) = body L) as Heq.
    { apply set_eq. intros x.
      by rewrite elem_of_list_to_set, (node_iter_elem node_iter_perm). }
    by rewrite Heq in Hc. }
  clear. induction l as [|b l IH]; intros g1 W Hl; simpl.
  { by rewrite union_empty_r_L. }
  rewrite (assoc_L (∪)). apply IH. by apply linked_add.
Qed.

(** X7.  On a processed graph [post_dominators()] returns a table with
    one key for each live node; the set of a node [n] holds exactly the
    live nodes that are on every path from [n] to an exit point or to a
    node of a loop without exits, and the set of an exit point holds the
    exit point alone. *)
Theorem post_dominators_are_post_dominators g0 g (d : node) :
  wf g0 → process g0 = (g, Ok ()) → d ∉ _nodes g0 →
  ∃ ls pdoms,
    loops g = Ok ls ∧ post_dominators d g = Ok pdoms ∧
    (∀ k, is_Some (pdoms !! k) ↔ k ∈ nodes g) ∧
    (∀ x, x ∈ exit_points g → pdoms !! x = Some {[x]}) ∧
    ∀ n D, pdoms !! n = Some D →
      ∀ p, p ∈ D ↔
        p ∈ nodes g ∧ post_dominates g (sink_sources (odict.values ls)) p n.
Proof.
  intros Hwf0 Hp Hd0.
  pose proof (process_frozen node_iter_perm g0 g Hwf0 Hp) as Hfr.
  assert (d ∉ _nodes g) as Hd.
  { intros Hin. by apply Hd0, (process_nodes_subset node_iter_perm g0 g). }
  destruct (_find_in_loops_spec node_iter_perm edge_iter_perm g Hfr)
    as (ls & _ & Hl & _ & _ & Hls & _).
  destruct Hfr as [Hwf _]. pose proof Hwf as ([Hsp Hsd] & Hw & _).
  set (Ls := odict.values ls).
  set (W := sink_sources Ls).
  assert (W ⊆ _nodes g) as HWN.
  { intros x. unfold W, sink_sources. rewrite elem_of_union_list.
    intros (B & (L & -> & HL)%list_elem_of_fmap & Hx).
    destruct (decide (exits L = ∅)); [|by apply elem_of_empty in Hx].
    apply list_elem_of_fmap in HL as ([h L'] & -> & Hin).
    destruct (Hls h L' Hin) as [_ Hsub]. by apply Hsub. }
  pose proof (link_sink_sources d Ls g) as Hlk. fold W in Hlk.
  set (g1 := link_sink d Ls g) in *.
  pose proof Hlk as (Hs1 & Hp1 & Hd1 & Hn1 & He1 & Hdn1).
  set (X := _find_exit_points g).
  assert (d ∉ X) as HdX.
  { unfold X. rewrite (_find_exit_points_elem node_iter_perm).
    by intros [? _]. }
  assert (X ⊆ _nodes g) as HXN.
  { intros x Hx. unfold X in Hx.
    by apply (_find_exit_points_elem node_iter_perm) in Hx as [? _]. }
  assert (preds_of g d = ∅) as Hpd.
  { apply set_eq. intros x. rewrite elem_of_empty. split; [|done].
    intros Hx%Hsp. by destruct (Hw x d Hx). }
  assert (X ∪ {[d]} ≠ ∅) as Hne.
  { apply (non_empty_inhabited_L d), elem_of_union. right.
    by apply elem_of_singleton. }
  destruct (dom_loop_sem (_nodes g1) (X ∪ {[d]}) (succs_of g1) (preds_of g1))
    as (doms & Hdoms & (Hkeys & Hseeds & HD) & Hsem).
  { done. }
  { intros n p. destruct (linked_consistent d W g g1) as [Hc _]; [done..|].
    by rewrite Hc. }
  { intros n p Hn Hns. rewrite Hs1, Hn1. intros [Hp'|Hp']%elem_of_union.
    - left. by destruct (Hw n p Hp').
    - right. clear -Hp'. case_decide; set_solver. }
  { intros n Hn Hns. rewrite Hn1 in Hn |- *.
    assert (succs_of g n ≠ ∅) as Hne'.
    { intros He. apply Hns, elem_of_union. left.
      by apply (_find_exit_points_elem node_iter_perm). }
    apply set_choose_L in Hne' as [p Hp']. exists p.
    split; [rewrite Hs1; apply elem_of_union; by left|].
    by destruct (Hw n p Hp'). }
  { intros n Hn Hns p. rewrite Hn1 in Hn |- *. rewrite Hp1.
    rewrite decide_False by (by intros ->). rewrite union_empty_r_L.
    intros Hp'. apply Hsp in Hp'. by destruct (Hw p n Hp'). }
  { intros s m Hs Hm. rewrite Hp1 in Hm. rewrite Hn1. left.
    apply elem_of_union in Hm as [Hm|Hm].
    - apply Hsp in Hm. by destruct (Hw m s Hm).
    - case_decide; [by apply HWN|by apply elem_of_empty in Hm]. }
  rewrite Hn1 in Hkeys, HD, Hsem.
  assert (_find_post_dominators d g
          = ((_remove_node_edges d g1).1, X,
             Ok ((λ D, D ∖ {[d]}) <$> delete d doms))) as Heq.
  { unfold _find_post_dominators. rewrite Hl. fold Ls.
    change (foldl _ g Ls) with g1. fold X.
    unfold _find_dominators_internal. unfold mbind, res_bind.
    cbv beta iota. rewrite decide_False by done.
    cbv zeta in Hdoms. rewrite Hdoms.
    rewrite (Hseeds d) by (apply elem_of_union_r; by apply elem_of_singleton).
    destruct (_remove_node_edges_restricted node_iter_perm d g1)
      as (g2 & -> & Hr).
    { by eapply linked_consistent. }
    rewrite decide_True
      by (apply elem_of_union_r; by apply elem_of_singleton).
    simpl. f_equal. f_equal. clear -HdX. set_solver. }
  exists ls, ((λ D, D ∖ {[d]}) <$> delete d doms).
  split; [done|]. split; [unfold post_dominators; by rewrite Heq|].
  unfold nodes, exit_points. fold X. split; [|split].
  - intros k. rewrite lookup_fmap, fmap_is_Some, lookup_delete.
    case_decide as Hk; [subst; split; [by intros []|done]|].
    rewrite Hkeys. clear -Hk HXN. set_solver.
  - intros x Hx. rewrite lookup_fmap, lookup_delete.
    rewrite decide_False by (by intros <-).
    rewrite (Hseeds x) by (by apply elem_of_union_l). simpl. f_equal.
    clear -Hx HdX. set_solver.
  - intros n D. rewrite lookup_fmap, lookup_delete.
    case_decide as Hk; [done|]. intros HDn.
    apply fmap_Some in HDn as (D0 & HD0 & ->).
    assert (n ∈ _nodes g) as Hn.
    { assert (is_Some (doms !! n)) as Hsome by eauto.
      apply Hkeys in Hsome. clear -Hsome Hk HXN. set_solver. }
    destruct (HD n Hn) as (D' & HD' & HnD & HDN).
    rewrite HD0 in HD'. injection HD' as <-.
    intros p. rewrite elem_of_difference, elem_of_singleton. split.
    + intros [HpD Hpd']. assert (p ∈ _nodes g) as HpN by (by apply HDN).
      split; [done|]. intros (t & Ht & Hnp & Hr).
      apply (proj1 (Hsem n D0 HD0 p HpN) HpD).
      assert (∀ a, a ≠ p → rtc (λ a b, edge g a b ∧ b ≠ p) a t →
                rtc (λ a b, b ∈ preds_of g1 a ∧ b ≠ p) t a ∧ t ≠ p) as Hflip.
      { clear -Hp1 Hsp. intros a Ha Hr.
        induction Hr as [a|a b c [Hab Hbp] Hbc IH].
        - done.
        - destruct (IH Hbp) as [Hcb Hcp]. split; [|done].
          eapply rtc_r; [exact Hcb|]. split; [|done].
          rewrite Hp1. apply elem_of_union_l. by apply Hsp. }
      destruct (Hflip n Hnp Hr) as [Hback Htp].
      destruct Ht as [Ht|Ht].
      * exists t. split; [by apply elem_of_union_l|]. done.
      * exists d. split; [apply elem_of_union_r; by apply elem_of_singleton|].
        split; [by intros <-|].
        eapply rtc_l; [|exact Hback]. split; [|done].
        rewrite Hp1, decide_True by done. by apply elem_of_union_r.
    + intros [HpN Hpost].
      assert (p ≠ d) as Hpd' by (by intros ->). split; [|done].
      apply (Hsem n D0 HD0 p HpN). intros (s & Hs & Hsp' & Hr).
      apply Hpost.
      assert (∀ s, s ∈ _nodes g → s ≠ p →
                rtc (λ a b, b ∈ preds_of g1 a ∧ b ≠ p) s n →
                n ≠ p ∧ rtc (λ a b, edge g a b ∧ b ≠ p) n s) as Hflip.
      { clear -Hp1 Hsp Hw Hd. intros s Hs Hsp' Hr.
        cut (n ∈ _nodes g ∧ n ≠ p ∧ rtc (λ a b, edge g a b ∧ b ≠ p) n s).
        { by intros (_ & ? & ?). }
        revert n Hr.
        apply (rtc_ind_r (λ n, n ∈ _nodes g ∧ n ≠ p ∧
                                rtc (λ a b, edge g a b ∧ b ≠ p) n s)).
        - done.
        - intros y z _ [Hzy Hzp] (Hy & Hyp & Hys).
          rewrite Hp1, decide_False, union_empty_r_L in Hzy
            by (by intros ->).
          apply Hsp in Hzy. split; [by destruct (Hw z y Hzy)|].
          split; [done|]. eapply rtc_l; [|exact Hys]. done. }
      apply elem_of_union in Hs as [Hs| ->%elem_of_singleton].
      * destruct (Hflip s (HXN s Hs) Hsp' Hr) as [? ?].
        exists s. split; [by left|]. done.
      * apply rtc_inv in Hr as [->|(a & [Ha Hap] & Hr)]; [done|].
        rewrite Hp1, decide_True, Hpd, union_empty_l_L in Ha by done.
        destruct (Hflip a (HWN a Ha) Hap Hr) as [? ?].
        exists a. split; [by right|]. done.
Qed.

End more_edge_order.
End more_node_order.
End more_properties.

(** * Properties of the concrete graphs *)


Lemma patch_eq {A} `{Countable A} (T : list (gset A * list A))
    (it : iter_order A) :
  enumerates it → Forall (λ p, it p.1 = p.2) T → it = patch T it.
Proof.
  intros Hit HT. apply functional_extensionality. intros s. unfold patch.
  destruct (decide (size s ≤ 1)) as [Hs|Hs].
  - specialize (Hit s). change (length (elements s) ≤ 1) in Hs.
    destruct (elements s) as [|x [|y l]]; simpl in Hs; [| |lia].
    + by apply Permutation_nil_r.
    + by apply Permutation_singleton_r.
  - destruct (odict.get s T) as [l|] eqn:Hl; [|done].
    apply odict_get_Some in Hl. rewrite Forall_forall in HT.
    apply (HT _ Hl).
Qed.

Lemma tables_elem {A} `{Countable A} (it : iter_order A)
    (ss : list (gset A)) :
  enumerates it → ((λ s, (s, it s)) <$> ss) ∈ tables ss.
Proof.
  intros Hit. induction ss as [|s ss IH]; simpl; [by left|].
  apply list_elem_of_bind. exists (it s).
  split; [|by apply permutations_Permutation].
  apply list_elem_of_bind. exists ((λ s, (s, it s)) <$> ss).
  split; [by left|done].
Qed.

(** A property of an iteration order that holds for the orders patched
    by every table of [ss] holds for every iteration order. *)
Lemma one_order {A} `{Countable A} (P : iter_order A → Prop)
    (ss : list (gset A)) (it : iter_order A) :
  enumerates it → (∀ T, T ∈ tables ss → P (patch T it)) → P it.
Proof.
  intros Hit HP.
  rewrite (patch_eq ((λ s, (s, it s)) <$> ss) it Hit).
  - by apply HP, tables_elem.
  - apply Forall_forall. by intros p (s & -> & _)%list_elem_of_fmap.
Qed.

(** A decidable property of the two iteration orders holds for all of
    them when the code, run on every enumeration of the node sets [ssA]
    and of the edge sets [ssB], decides it; a run on a set with two or
    more elements that is not listed does not finish the decision. *)
Lemma all_orders {A B} `{Countable A, Countable B}
    (P : iter_order A → iter_order B → Prop)
    (P_dec : ∀ a b, Decision (P a b))
    (ssA : list (gset A)) (ssB : list (gset B))
    (itA : iter_order A) (itB : iter_order B) :
  enumerates itA → enumerates itB →
  (∀ a b,
     forallb (λ TA, forallb (λ TB,
       @bool_decide _ (P_dec (patch TA a) (patch TB b))) (tables ssB))
       (tables ssA)
     = true) →
  P itA itB.
Proof.
  intros HA HB Hall.
  apply (one_order (λ a, P a itB) ssA itA HA). intros TA HTA.
  apply (one_order (λ b, P (patch TA itA) b) ssB itB HB). intros TB HTB.
  specialize (Hall itA itB).
  rewrite forallb_forall in Hall.
  specialize (Hall TA (proj1 (list_elem_of_In _ _) HTA)).
  rewrite forallb_forall in Hall.
  specialize (Hall TB (proj1 (list_elem_of_In _ _) HTB)).
  by apply bool_decide_eq_true in Hall.
Qed.

(** Proves a decidable property of the iteration orders for all of them,
    by running the code on each enumeration of the sets [ssA] and [ssB]. *)
Ltac by_all_orders ssA ssB :=
  lazymatch goal with
  | Ha : enumerates ?a, Hb : enumerates ?b |- _ =>
      pattern a, b;
      lazymatch goal with
      | |- ?P a b =>
          refine (all_orders P _ ssA ssB a b Ha Hb _);
          clear; intros a' b'; vm_compute; reflexivity
      end
  end.

Lemma graph_of_wf ns es entry : wf (graph_of ns es entry).
Proof.
  unfold graph_of. apply set_entry_point_wf.
  assert (∀ g : CFGraph string unit,
            wf g → wf (foldl (λ g n, add_node n g) g ns)) as Hn.
  { induction ns as [|n ns IH]; intros g Hg; simpl; [done|].
    by apply IH, add_node_wf. }
  assert (∀ g : CFGraph string unit,
            wf g → wf (foldl (λ g e, (add_edge e.1 e.2 None g).1) g es)) as He.
  { induction es as [|e es IH]; intros g Hg; simpl; [done|].
    by apply IH, add_edge_wf. }
  apply He, Hn, init_wf.
Qed.

(** A call of [process] that succeeds returns the graph it leaves. *)
Lemma process_ok `{Countable node} {data} {node_iter : iter_order node}
    (g : CFGraph node data) :
  (process g).2 = Ok () → process g = ((process g).1, Ok ()).
Proof. destruct (process g) as [g' r]. simpl. by intros ->. Qed.

Lemma elements_order_enumerates {A} `{Countable A} :
  enumerates (elements_order (A := A)).
Proof. by intros s. Qed.

(** The same for a property of the iteration order of node sets alone. *)
Lemma all_node_orders {A} `{Countable A}
    (P : iter_order A → Prop) (P_dec : ∀ a, Decision (P a))
    (ss : list (gset A)) (it : iter_order A) :
  enumerates it →
  (∀ a, forallb (λ T, @bool_decide _ (P_dec (patch T a))) (tables ss) = true) →
  P it.
Proof.
  intros Hit Hall.
  apply (one_order P ss it Hit). intros T HT.
  specialize (Hall it). rewrite forallb_forall in Hall.
  specialize (Hall T (proj1 (list_elem_of_In _ _) HT)).
  by apply bool_decide_eq_true in Hall.
Qed.

Ltac by_all_node_orders ss :=
  lazymatch goal with
  | Ha : enumerates ?a |- _ =>
      pattern a;
      lazymatch goal with
      | |- ?P a =>
          refine (all_node_orders P _ ss a Ha _);
          clear; intros a'; vm_compute; reflexivity
      end
  end.

(** Decides a closed statement by running the code. *)
Ltac by_running := by apply (bool_decide_unpack _); vm_compute.

Open Scope string_scope.

(** ** The diamond *)

(** C2.  The diamond graph with the nodes entry, A, B and C and the
    edges entry→A, entry→B, A→C and B→C is processed without error;
    then [dominators()["C"]] is {entry, C}, [dominance_frontier()["A"]]
    and [dominance_frontier()["B"]] are {C}, and
    [dominance_frontier()["entry"]] is the empty set; this in whatever
    order the sets are iterated over. *)
Theorem diamond_dominators (node_iter : iter_order string) :
  enumerates node_iter →
  (process diamond).2 = Ok () ∧
  (doms ← dominators (process diamond).1; getitem (doms !! "C"))
    = Ok {["entry"; "C"]} ∧
  (df ← dominance_frontier (process diamond).1; getitem (df !! "A"))
    = Ok {["C"]} ∧
  (df ← dominance_frontier (process diamond).1; getitem (df !! "B"))
    = Ok {["C"]} ∧
  (df ← dominance_frontier (process diamond).1; getitem (df !! "entry"))
    = Ok ∅.
Proof.
  intros Hn.
  by_all_node_orders
    [({["A"; "B"]} : gset string); {["entry"; "A"; "B"; "C"]}].
Qed.

(** ** The loop of two nodes *)

(** C4.  The graph with the nodes entry, A and B and the edges entry→A,
    A→B and B→A is processed without error and keeps its three nodes;
    its back edges are exactly (B, A), [loops()] has exactly one entry,
    under the header A, the loop with header A, body {A, B}, entry
    {entry} and no exit, and [in_loops("B")] lists this loop and no
    other; this in whatever order the sets are iterated over. *)
Theorem two_node_loop_loops (node_iter : iter_order string)
    (edge_iter : iter_order (string * string)) :
  enumerates node_iter → enumerates edge_iter →
  (process two_node_loop).2 = Ok () ∧
  nodes (process two_node_loop).1 = {["entry"; "A"; "B"]} ∧
  _find_back_edges (process two_node_loop).1 = Ok {[("B", "A")]} ∧
  loops (process two_node_loop).1
    = Ok [("A", mkLoop {["entry"]} ∅ "A" {["A"; "B"]})] ∧
  in_loops (process two_node_loop).1 "B"
    = Ok [mkLoop {["entry"]} ∅ "A" {["A"; "B"]}].
Proof.
  intros Hn He.
  by_all_orders
    [({["entry"; "B"]} : gset string); {["A"; "B"]}; {["entry"; "A"; "B"]}]
    (@nil (gset (string * string))).
Qed.

(** ** Runs under the iteration order [elements_order] *)

#[local] Existing Instance elements_order.
#[local] Existing Instance default_limit.

Lemma diamond_dominators_witness :
  enumerates (elements_order (A := string)) ∧
  (process diamond).2 = Ok () ∧
  (doms ← dominators (process diamond).1; getitem (doms !! "C"))
    = Ok {["entry"; "C"]} ∧
  (df ← dominance_frontier (process diamond).1; getitem (df !! "A"))
    = Ok {["C"]} ∧
  (df ← dominance_frontier (process diamond).1; getitem (df !! "B"))
    = Ok {["C"]} ∧
  (df ← dominance_frontier (process diamond).1; getitem (df !! "entry"))
    = Ok ∅.
Proof.
  split; [intros s; reflexivity|].
  apply (diamond_dominators elements_order). intros s; reflexivity.
Defined.

Lemma two_node_loop_loops_witness :
  enumerates (elements_order (A := string)) ∧
  enumerates (elements_order (A := string * string)) ∧
  (process two_node_loop).2 = Ok () ∧
  nodes (process two_node_loop).1 = {["entry"; "A"; "B"]} ∧
  _find_back_edges (process two_node_loop).1 = Ok {[("B", "A")]} ∧
  loops (process two_node_loop).1
    = Ok [("A", mkLoop {["entry"]} ∅ "A" {["A"; "B"]})] ∧
  in_loops (process two_node_loop).1 "B"
    = Ok [mkLoop {["entry"]} ∅ "A" {["A"; "B"]}].
Proof.
  split; [intros s; reflexivity|]. split; [intros s; reflexivity|].
  apply (two_node_loop_loops elements_order elements_order);
    intros s; reflexivity.
Defined.

(** The graph [with_dead_block] has the entry point [entry]; [process]
    removes its block [dead]. *)
Lemma process_eliminates_dead_blocks_witness :
  wf with_dead_block ∧ _entry_point with_dead_block = Some "entry" ∧
  ∃ g' dead,
    process with_dead_block = (g', Ok ()) ∧ dead_nodes g' = Ok dead ∧
    (∀ n, n ∈ nodes g' ↔ reachable with_dead_block "entry" n) ∧
    dead ## nodes g' ∧
    dead ∪ nodes g' = _nodes with_dead_block ∧
    (∀ d n, d ∈ dead →
       (d ∉ succs_of g' n) ∧ (n ∉ succs_of g' d) ∧
       (d ∉ preds_of g' n) ∧ (n ∉ preds_of g' d) ∧
       _edge_data g' !! (d, n) = None ∧ _edge_data g' !! (n, d) = None).
Proof.
  split; [apply graph_of_wf|]. split; [reflexivity|].
  apply (process_eliminates_dead_blocks elements_order_enumerates).
  - apply graph_of_wf.
  - reflexivity.
Defined.

(** With two nested calls left the traversal of the loop of [A] and [B],
    whose path from the entry point has three nodes, goes beyond what the
    interpreter allows. *)
Lemma two_node_loop_beyond_limit :
  @topo_order _ _ _ _ elements_order (2 : recursion_limit)
    (process two_node_loop).1
  = Raise RecursionError.
Proof. vm_compute. reflexivity. Qed.


Lemma topo_sort_filters_topo_order_witness :
  wf diamond ∧ process diamond = ((process diamond).1, Ok ()) ∧
  (size (nodes (process diamond).1) < max_depth)%nat ∧
  ((size (nodes (process diamond).1) < max_depth)%nat →
   ∃ order, topo_order (process diamond).1 = Ok order) ∧
  ∀ order, topo_order (process diamond).1 = Ok order →
    topo_sort (process diamond).1 {["A"; "C"]} true
      = Ok (reverse (filter (λ n, n ∈ ({["A"; "C"]} : gset string)) order)) ∧
    topo_sort (process diamond).1 {["A"; "C"]} false
      = Ok (filter (λ n, n ∈ ({["A"; "C"]} : gset string)) order) ∧
    filter (λ n, n ∈ ({["A"; "C"]} : gset string)) order `sublist_of` order.
Proof.
  split; [apply graph_of_wf|].
  split; [apply process_ok; vm_compute; reflexivity|].
  split; [by_running|].
  apply (topo_sort_filters_topo_order elements_order_enumerates diamond).
  - apply graph_of_wf.
  - apply process_ok. vm_compute. reflexivity.
Defined.

(** C6 as it is stated fails on [nested_loops]: the table binds [B] to
    the headers [B], [A], the inner loop (body {B}) before the outer one
    (body {A, B}), and [in_loops("B")] returns the loops in this stored
    order, not in the reverse of it. *)
Lemma nested_loops_in_loops :
  (process nested_loops).2 = Ok () ∧
  (table ← _find_in_loops (process nested_loops).1; getitem (table !! "B"))
    = Ok ["B"; "A"] ∧
  fmap (M := list) (λ L : Loop string, (header L, body L))
    <$> in_loops (process nested_loops).1 "B"
    = Ok [("B", {["B"]}); ("A", {["A"; "B"]})] ∧
  fmap (M := list) (λ L : Loop string, header L)
    <$> in_loops (process nested_loops).1 "B"
    ≠ Ok (reverse ["B"; "A"]).
Proof. by_running. Qed.

Lemma in_loops_ascending_body_size_witness :
  wf nested_loops ∧
  process nested_loops = ((process nested_loops).1, Ok ()) ∧
  "B" ∈ nodes (process nested_loops).1 ∧
  ∃ all_loops table ls,
    loops (process nested_loops).1 = Ok all_loops ∧
    _find_in_loops (process nested_loops).1 = Ok table ∧
    in_loops (process nested_loops).1 "B" = Ok ls ∧
    table !! "B" = Some (header <$> ls) ∧
    NoDup ls ∧
    (∀ L, L ∈ ls ↔ L ∈ odict.values all_loops ∧ "B" ∈ body L) ∧
    StronglySorted (λ a b, (size (body a) ≤ size (body b))%nat) ls.
Proof.
  split; [apply graph_of_wf|].
  split; [apply process_ok; vm_compute; reflexivity|].
  split; [by_running|].
  apply (in_loops_ascending_body_size elements_order_enumerates
           elements_order_enumerates nested_loops).
  - apply graph_of_wf.
  - apply process_ok. vm_compute. reflexivity.
  - by_running.
Defined.

Lemma post_dominators_scopes_sink_witness :
  wf two_node_loop ∧
  process two_node_loop = ((process two_node_loop).1, Ok ()) ∧
  ("sink" ∉ _nodes two_node_loop) ∧
  ∃ g' pdoms,
    _find_post_dominators "sink" (process two_node_loop).1
      = (g', exit_points (process two_node_loop).1, Ok pdoms) ∧
    pdoms !! "sink" = None ∧
    (∀ n D, pdoms !! n = Some D → "sink" ∉ D) ∧
    ("sink" ∉ exit_points (process two_node_loop).1) ∧
    ("sink" ∉ nodes g') ∧
    (∀ n, ("sink" ∉ succs_of g' n) ∧ ("sink" ∉ preds_of g' n) ∧
          _edge_data g' !! (n, "sink") = None ∧
          _edge_data g' !! ("sink", n) = None) ∧
    succs_of g' "sink" = ∅ ∧ preds_of g' "sink" = ∅ ∧
    same_graph (process two_node_loop).1 g'.
Proof.
  split; [apply graph_of_wf|].
  split; [apply process_ok; vm_compute; reflexivity|].
  split; [by_running|].
  apply (post_dominators_scopes_sink elements_order_enumerates
           elements_order_enumerates two_node_loop).
  - apply graph_of_wf.
  - apply process_ok. vm_compute. reflexivity.
  - by_running.
Defined.

Lemma backbone_contains_entry_witness :
  wf self_loop ∧ process self_loop = ((process self_loop).1, Ok ()) ∧
  ("sink" ∉ _nodes self_loop) ∧
  ∃ e B, _entry_point (process self_loop).1 = Some e ∧
    backbone "sink" (process self_loop).1 = Ok B ∧ e ∈ B.
Proof.
  split; [apply graph_of_wf|].
  split; [apply process_ok; vm_compute; reflexivity|].
  split; [by_running|].
  apply (backbone_contains_entry elements_order_enumerates
           elements_order_enumerates self_loop).
  - apply graph_of_wf.
  - apply process_ok. vm_compute. reflexivity.
  - by_running.
Defined.

(** C9 as it is stated fails on [self_loop]: the processed graph has no
    exit point, and [post_dominators] returns a table. *)
Lemma self_loop_post_dominators :
  (process self_loop).2 = Ok () ∧
  exit_points (process self_loop).1 = ∅ ∧
  post_dominators "sink" (process self_loop).1
    = Ok {["entry" := {["entry"]}]}.
Proof. by_running. Qed.

Lemma post_dominators_without_exit_points_witness :
  wf self_loop ∧ process self_loop = ((process self_loop).1, Ok ()) ∧
  ("sink" ∉ _nodes self_loop) ∧ exit_points (process self_loop).1 = ∅ ∧
  (∃ pdoms, post_dominators "sink" (process self_loop).1 = Ok pdoms ∧
     ∀ k, is_Some (pdoms !! k) ↔ k ∈ nodes (process self_loop).1) ∧
  _find_dominators_internal (process self_loop).1
    (exit_points (process self_loop).1) true = Raise RuntimeError.
Proof.
  split; [apply graph_of_wf|].
  split; [apply process_ok; vm_compute; reflexivity|].
  split; [by_running|]. split; [by_running|].
  apply (post_dominators_without_exit_points elements_order_enumerates
           elements_order_enumerates self_loop).
  - apply graph_of_wf.
  - apply process_ok. vm_compute. reflexivity.
  - by_running.
  - by_running.
Defined.

(** ** Runs of the further operations *)

Lemma graph_of_constructed ns es entry : constructed (graph_of ns es entry).
Proof.
  unfold graph_of. apply constructed_set_entry_point.
  assert (∀ g : CFGraph string unit,
            constructed g → constructed (foldl (λ g n, add_node n g) g ns))
    as Hn.
  { induction ns as [|n ns IH]; intros g Hg; simpl; [done|].
    by apply IH, constructed_add_node. }
  assert (∀ g : CFGraph string unit,
            constructed g →
            constructed (foldl (λ g e, (add_edge e.1 e.2 None g).1) g es))
    as He.
  { induction es as [|e es IH]; intros g Hg; simpl; [done|].
    by apply IH, constructed_add_edge. }
  apply He, Hn, constructed_init.
Qed.

(** A call of [add_edge] that succeeds returns the graph it leaves. *)
Lemma add_edge_ok `{Countable node} {data} (g : CFGraph node data)
    (src dest : node) (d : option data) :
  (add_edge src dest d g).2 = Ok () →
  add_edge src dest d g = ((add_edge src dest d g).1, Ok ()).
Proof. destruct (add_edge src dest d g) as [g' r]. simpl. by intros ->. Qed.

Lemma successors_predecessors_edges_witness :
  consistent diamond ∧
  ∃ ls lp,
    successors diamond "C" = Ok ls ∧ predecessors diamond "C" = Ok lp ∧
    NoDup ls.*1 ∧ NoDup lp.*1 ∧
    (∀ t d, (t, d) ∈ ls ↔ _edge_data diamond !! ("C", t) = Some d) ∧
    (∀ s d, (s, d) ∈ lp ↔ _edge_data diamond !! (s, "C") = Some d).
Proof.
  split; [apply graph_of_wf|].
  apply (successors_predecessors_edges elements_order_enumerates).
  apply graph_of_wf.
Defined.

Lemma add_edge_then_successors_witness :
  wf diamond ∧
  add_edge "C" "entry" (Some ()) diamond
    = ((add_edge "C" "entry" (Some ()) diamond).1, Ok ()) ∧
  wf (add_edge "C" "entry" (Some ()) diamond).1 ∧
  ∃ ls lp,
    successors (add_edge "C" "entry" (Some ()) diamond).1 "C" = Ok ls ∧
    ("entry", Some ()) ∈ ls ∧
    predecessors (add_edge "C" "entry" (Some ()) diamond).1 "entry" = Ok lp ∧
    ("C", Some ()) ∈ lp.
Proof.
  split; [apply graph_of_wf|].
  split; [apply add_edge_ok; vm_compute; reflexivity|].
  apply (add_edge_then_successors elements_order_enumerates diamond).
  - apply graph_of_wf.
  - apply add_edge_ok. vm_compute. reflexivity.
Defined.

Lemma process_idempotent_witness :
  wf with_dead_block ∧
  process with_dead_block = ((process with_dead_block).1, Ok ()) ∧
  ∃ g', process (process with_dead_block).1 = (g', Ok ()) ∧
    nodes g' = nodes (process with_dead_block).1 ∧ dead_nodes g' = Ok ∅ ∧
    (∀ n, succs_of g' n = succs_of (process with_dead_block).1 n) ∧
    (∀ n, preds_of g' n = preds_of (process with_dead_block).1 n) ∧
    _edge_data g' = _edge_data (process with_dead_block).1 ∧
    _entry_point g' = _entry_point (process with_dead_block).1.
Proof.
  split; [apply graph_of_wf|].
  split; [apply process_ok; vm_compute; reflexivity|].
  apply (process_idempotent elements_order_enumerates with_dead_block).
  - apply graph_of_wf.
  - apply process_ok. vm_compute. reflexivity.
Defined.

Lemma process_keeps_tables_consistent_witness :
  wf with_dead_block ∧
  process with_dead_block = ((process with_dead_block).1, Ok ()) ∧
  (∀ s t, t ∈ succs_of (process with_dead_block).1 s
          ↔ s ∈ preds_of (process with_dead_block).1 t) ∧
  (∀ s t, t ∈ succs_of (process with_dead_block).1 s
          ↔ is_Some (_edge_data (process with_dead_block).1 !! (s, t))) ∧
  (∀ s t, t ∈ succs_of (process with_dead_block).1 s →
          s ∈ nodes (process with_dead_block).1 ∧
          t ∈ nodes (process with_dead_block).1) ∧
  ∃ e, _entry_point (process with_dead_block).1 = Some e ∧
    e ∈ nodes (process with_dead_block).1 ∧
    ∀ n, n ∈ nodes (process with_dead_block).1 →
         reachable (process with_dead_block).1 e n.
Proof.
  split; [apply graph_of_wf|].
  split; [apply process_ok; vm_compute; reflexivity|].
  apply (process_keeps_tables_consistent elements_order_enumerates
           with_dead_block).
  - apply graph_of_wf.
  - apply process_ok. vm_compute. reflexivity.
Defined.

Lemma constructed_graph_is_consistent_witness :
  constructed diamond ∧
  (∀ s t, t ∈ succs_of diamond s ↔ s ∈ preds_of diamond t) ∧
  (∀ s t, t ∈ succs_of diamond s ↔ is_Some (_edge_data diamond !! (s, t))) ∧
  (∀ s t, t ∈ succs_of diamond s → s ∈ _nodes diamond ∧ t ∈ _nodes diamond) ∧
  (∀ e, _entry_point diamond = Some e → e ∈ _nodes diamond).
Proof.
  split; [apply graph_of_constructed|].
  apply constructed_graph_is_consistent, graph_of_constructed.
Defined.

Lemma dominators_are_dominators_witness :
  wf diamond ∧ process diamond = ((process diamond).1, Ok ()) ∧
  ∃ e doms,
    _entry_point (process diamond).1 = Some e ∧
    dominators (process diamond).1 = Ok doms ∧
    (∀ k, is_Some (doms !! k) ↔ k ∈ nodes (process diamond).1) ∧
    ∀ n D, doms !! n = Some D →
      ∀ d, d ∈ D ↔
        d ∈ nodes (process diamond).1 ∧ dominates (process diamond).1 e d n.
Proof.
  split; [apply graph_of_wf|].
  split; [apply process_ok; vm_compute; reflexivity|].
  apply (dominators_are_dominators elements_order_enumerates diamond).
  - apply graph_of_wf.
  - apply process_ok. vm_compute. reflexivity.
Defined.

Lemma post_dominators_are_post_dominators_witness :
  wf two_node_loop ∧
  process two_node_loop = ((process two_node_loop).1, Ok ()) ∧
  ("sink" ∉ _nodes two_node_loop) ∧
  ∃ ls pdoms,
    loops (process two_node_loop).1 = Ok ls ∧
    post_dominators "sink" (process two_node_loop).1 = Ok pdoms ∧
    (∀ k, is_Some (pdoms !! k) ↔ k ∈ nodes (process two_node_loop).1) ∧
    (∀ x, x ∈ exit_points (process two_node_loop).1 →
          pdoms !! x = Some {[x]}) ∧
    ∀ n D, pdoms !! n = Some D →
      ∀ p, p ∈ D ↔
        p ∈ nodes (process two_node_loop).1 ∧
        post_dominates (process two_node_loop).1
          (sink_sources (odict.values ls)) p n.
Proof.
  split; [apply graph_of_wf|].
  split; [apply process_ok; vm_compute; reflexivity|].
  split; [by_running|].
  apply (post_dominators_are_post_dominators elements_order_enumerates
           elements_order_enumerates two_node_loop).
  - apply graph_of_wf.
  - apply process_ok. vm_compute. reflexivity.
  - by_running.
Defined.

Lemma topo_order_is_topological_witness :
  wf two_node_loop ∧
  process two_node_loop = ((process two_node_loop).1, Ok ()) ∧
  (size (nodes (process two_node_loop).1) < max_depth)%nat ∧
  ∃ be,
    _find_back_edges (process two_node_loop).1 = Ok be ∧
    (∀ s t, (s, t) ∈ be →
       edge (process two_node_loop).1 s t ∧
       rtc (forward_edge (process two_node_loop).1 be) t s) ∧
    ((size (nodes (process two_node_loop).1) < max_depth)%nat →
     ∃ order, topo_order (process two_node_loop).1 = Ok order) ∧
    ∀ order, topo_order (process two_node_loop).1 = Ok order →
      ∀ u v, u ∈ nodes (process two_node_loop).1 →
        forward_edge (process two_node_loop).1 be u v → before order u v.
Proof.
  split; [apply graph_of_wf|].
  split; [apply process_ok; vm_compute; reflexivity|].
  split; [by_running|].
  apply (topo_order_is_topological elements_order_enumerates two_node_loop).
  - apply graph_of_wf.
  - apply process_ok. vm_compute. reflexivity.
Defined.

Lemma descendents_are_reachable_witness :
  wf diamond ∧ process diamond = ((process diamond).1, Ok ()) ∧
  (size (nodes (process diamond).1) < max_depth)%nat ∧
  ∃ be,
    _find_back_edges (process diamond).1 = Ok be ∧
    ((size (nodes (process diamond).1) < max_depth)%nat →
     ∃ descs, _find_descendents (process diamond).1 = Ok descs) ∧
    ∀ descs, _find_descendents (process diamond).1 = Ok descs →
      (∀ k, is_Some (descs !! k) ↔ k ∈ nodes (process diamond).1) ∧
      ∀ n, n ∈ nodes (process diamond).1 →
        ∃ D, descendents (process diamond).1 n = Ok D ∧
          ∀ m, m ∈ D ↔ tc (forward_edge (process diamond).1 be) n m.
Proof.
  split; [apply graph_of_wf|].
  split; [apply process_ok; vm_compute; reflexivity|].
  split; [by_running|].
  apply (descendents_are_reachable elements_order_enumerates diamond).
  - apply graph_of_wf.
  - apply process_ok. vm_compute. reflexivity.
Defined.

Lemma loops_are_natural_loops_witness :
  wf nested_loops ∧
  process nested_loops = ((process nested_loops).1, Ok ()) ∧
  ∃ ls be,
    loops (process nested_loops).1 = Ok ls ∧
    _find_back_edges (process nested_loops).1 = Ok be ∧
    NoDup ls.*1 ∧
    (∀ h, h ∈ ls.*1 ↔ ∃ s, (s, h) ∈ be) ∧
    ∀ h L, (h, L) ∈ ls →
      header L = h ∧
      (∀ x, x ∈ body L ↔
         ∃ s, (s, h) ∈ be ∧ in_natural_loop (process nested_loops).1 h s x) ∧
      (∀ p, p ∈ entries L ↔
         (p ∉ body L) ∧ ∃ n, n ∈ body L ∧ edge (process nested_loops).1 p n) ∧
      (∀ x, x ∈ exits L ↔
         (x ∉ body L) ∧ ∃ n, n ∈ body L ∧ edge (process nested_loops).1 n x).
Proof.
  split; [apply graph_of_wf|].
  split; [apply process_ok; vm_compute; reflexivity|].
  apply (loops_are_natural_loops elements_order_enumerates
           elements_order_enumerates nested_loops).
  - apply graph_of_wf.
  - apply process_ok. vm_compute. reflexivity.
Defined.

Lemma loop_eq_is_identity_witness :
  wf nested_loops ∧
  process nested_loops = ((process nested_loops).1, Ok ()) ∧
  ∃ ls, loops (process nested_loops).1 = Ok ls ∧
    ∀ L1 L2, L1 ∈ odict.values ls → L2 ∈ odict.values ls →
      Loop_eq L1 L2 = true ↔ L1 = L2.
Proof.
  split; [apply graph_of_wf|].
  split; [apply process_ok; vm_compute; reflexivity|].
  apply (loop_eq_is_identity elements_order_enumerates
           elements_order_enumerates nested_loops).
  - apply graph_of_wf.
  - apply process_ok. vm_compute. reflexivity.
Defined.

Lemma in_loops_of_unknown_node_witness :
  wf two_node_loop ∧
  process two_node_loop = ((process two_node_loop).1, Ok ()) ∧
  ("ghost" ∉ nodes (process two_node_loop).1) ∧
  in_loops (process two_node_loop).1 "ghost" = Ok [].
Proof.
  split; [apply graph_of_wf|].
  split; [apply process_ok; vm_compute; reflexivity|].
  split; [by_running|].
  apply (in_loops_of_unknown_node elements_order_enumerates
           elements_order_enumerates two_node_loop).
  - apply graph_of_wf.
  - apply process_ok. vm_compute. reflexivity.
  - by_running.
Defined.

Lemma dominator_tree_inverts_idom_witness :
  immediate_dominators (process diamond).1
    = Ok [("entry", "entry"); ("A", "entry"); ("B", "entry");
          ("C", "entry")] ∧
  ∃ tree, dominator_tree (process diamond).1 = Ok tree ∧
    (∀ v u, u ∈ tree !!! v ↔
       (u, v) ∈ [("entry", "entry"); ("A", "entry"); ("B", "entry");
                 ("C", "entry")] ∧ u ≠ v) ∧
    (∀ k, is_Some (tree !! k) ↔
       k ∈ [("entry", "entry"); ("A", "entry"); ("B", "entry");
            ("C", "entry")].*1 ∨
       ∃ u, (u, k) ∈ [("entry", "entry"); ("A", "entry"); ("B", "entry");
                      ("C", "entry")] ∧ u ≠ k).
Proof.
  split; [by_running|].
  apply dominator_tree_inverts_idom. by_running.
Defined.

Lemma topo_sort_yields_live_members_witness :
  wf with_dead_block ∧
  process with_dead_block = ((process with_dead_block).1, Ok ()) ∧
  (size (nodes (process with_dead_block).1) < max_depth)%nat ∧
  ((size (nodes (process with_dead_block).1) < max_depth)%nat →
   ∃ l, topo_sort (process with_dead_block).1 {["A"; "dead"]} true = Ok l) ∧
  ∀ l, topo_sort (process with_dead_block).1 {["A"; "dead"]} true = Ok l →
    NoDup l ∧
    ∀ n, n ∈ l ↔
      n ∈ ({["A"; "dead"]} : gset string) ∧
      n ∈ nodes (process with_dead_block).1.
Proof.
  split; [apply graph_of_wf|].
  split; [apply process_ok; vm_compute; reflexivity|].
  split; [by_running|].
  apply (topo_sort_yields_live_members elements_order_enumerates
           with_dead_block).
  - apply graph_of_wf.
  - apply process_ok. vm_compute. reflexivity.
Defined.

Lemma dominating_edges_are_back_edges_witness :
  wf two_node_loop ∧
  process two_node_loop = ((process two_node_loop).1, Ok ()) ∧
  ∃ e be,
    _entry_point (process two_node_loop).1 = Some e ∧
    _find_back_edges (process two_node_loop).1 = Ok be ∧
    ∀ s t, s ∈ nodes (process two_node_loop).1 →
      edge (process two_node_loop).1 s t →
      dominates (process two_node_loop).1 e t s → (s, t) ∈ be.
Proof.
  split; [apply graph_of_wf|].
  split; [apply process_ok; vm_compute; reflexivity|].
  apply (dominating_edges_are_back_edges elements_order_enumerates
           two_node_loop).
  - apply graph_of_wf.
  - apply process_ok. vm_compute. reflexivity.
Defined.

Lemma postorder_lists_successors_first_witness :
  wf two_node_loop ∧
  process two_node_loop = ((process two_node_loop).1, Ok ()) ∧
  ∃ e be post,
    _entry_point (process two_node_loop).1 = Some e ∧
    _find_back_edges (process two_node_loop).1 = Ok be ∧
    _find_postorder (process two_node_loop).1 = Ok post ∧
    NoDup post ∧ (∀ x, x ∈ post ↔ x ∈ nodes (process two_node_loop).1) ∧
    last post = Some e ∧
    ∀ u v, u ∈ nodes (process two_node_loop).1 →
      forward_edge (process two_node_loop).1 be u v → before post v u.
Proof.
  split; [apply graph_of_wf|].
  split; [apply process_ok; vm_compute; reflexivity|].
  apply (postorder_lists_successors_first elements_order_enumerates
           two_node_loop).
  - apply graph_of_wf.
  - apply process_ok. vm_compute. reflexivity.
Defined.
